(** * PDF tilted-text corrector: a shallow embedding of [app.py]

    The script extracts the text of a PDF with PyMuPDF, collects the words of
    rotated spans, runs OCR on the first page, corrects the spelling with
    TextBlob, diffs original against corrected text with [difflib.ndiff] and
    renders a report.

    Conventions of the embedding.
    - A Python [str] is a Rocq [string]; a character is an [ascii], read as
      the code point of the same number (U+0000 to U+00FF).
    - A Python [list] is a Rocq [list]; [dict]s are stdpp [gmap]s, [set]s
      are [gset]s.
    - A number coming from the PDF parser, and a similarity ratio of
      [difflib], is a binary64 [float].
    - A run of the script either completes with its outputs or stops with
      an uncaught exception: [result]. [OutOfFuel] is not an outcome of
      Python: it marks a loop of the embedding that ran past its bound,
      which [MatcherTotal.get_matching_blocks_total] shows never to happen.
    - [Differ._fancy_replace] is a recursive generator, and the interpreter
      raises [RecursionError] when its calls nest deeper than the recursion
      limit leaves room for. How deep that is depends on
      [sys.getrecursionlimit()] and on the frames above the script, so the
      embedding takes it as a parameter, [depth]: the number of nested
      calls of [_fancy_replace] that the interpreter allows while the
      script iterates over a diff. All other loops of [difflib] are
      iterative.
    - [difflib] is embedded from CPython 3.11 and [TextBlob.correct] from
      textblob; the engines behind them and behind OCR (Tesseract, the
      spelling dictionary) are section variables.
    - The lines of the report are kept as data, before the f-strings format
      them; what Streamlit shows and what pandas exports is not modelled. *)

From Stdlib Require Import ZArith List String Ascii Floats Lia.
From stdpp Require Import base option list sorting gmap strings.
Import ListNotations.
Local Open Scope string_scope.
Local Open Scope list_scope.
Local Set Warnings "-inexact-float".

(** ** Python string primitives *)

Module PyStr.

(** [c.isspace()] for a character below U+0100. *)
Definition isspace (c : ascii) : bool :=
  let n := nat_of_ascii c in
  (((9 <=? n) && (n <=? 13)) || ((28 <=? n) && (n <=? 32))
   || (n =? 133) || (n =? 160))%nat.

Definition is_empty (s : string) : bool :=
  match s with EmptyString => true | String _ _ => false end.

(** Truth value of a [str]: non-empty. *)
Definition truthy (s : string) : bool := negb (is_empty s).

Fixpoint lstrip (s : string) : string :=
  match s with
  | EmptyString => EmptyString
  | String c s' => if isspace c then lstrip s' else s
  end.

Fixpoint rstrip (s : string) : string :=
  match s with
  | EmptyString => EmptyString
  | String c s' =>
      let r := rstrip s' in
      if isspace c && is_empty r then EmptyString else String c r
  end.

(** [s.strip()] *)
Definition strip (s : string) : string := rstrip (lstrip s).

(** [s.split()]: the maximal runs of non-whitespace characters. [w] is the
    run being read. *)
Fixpoint split_from (w : string) (s : string) : list string :=
  match s with
  | EmptyString => if is_empty w then [] else [w]
  | String c s' =>
      if isspace c
      then (if is_empty w then split_from "" s' else w :: split_from "" s')
      else split_from (w +:+ String c "") s'
  end.

Definition split (s : string) : list string := split_from "" s.

(** [s.split(sep)] for a one-character separator: every piece is kept,
    empty ones included. *)
Fixpoint split_on_from (sep : ascii) (w : string) (s : string) : list string :=
  match s with
  | EmptyString => [w]
  | String c s' =>
      if Ascii.eqb c sep
      then w :: split_on_from sep "" s'
      else split_on_from sep (w +:+ String c "") s'
  end.

Definition split_on (sep : ascii) (s : string) : list string :=
  split_on_from sep "" s.

(** [sep.join(l)] *)
Fixpoint join (sep : string) (l : list string) : string :=
  match l with
  | [] => ""
  | [x] => x
  | x :: l' => x +:+ sep +:+ join sep l'
  end.

(** [s.startswith(p)] *)
Definition startswith (p s : string) : bool := String.prefix p s.

(** [s[n:]] for [n >= 0]. *)
Fixpoint drop (n : nat) (s : string) : string :=
  match n, s with
  | O, _ => s
  | S _, EmptyString => EmptyString
  | S n', String _ s' => drop n' s'
  end.

(** [c * n] *)
Fixpoint repeat_char (c : ascii) (n : nat) : string :=
  match n with
  | O => EmptyString
  | S n' => String c (repeat_char c n')
  end.

End PyStr.

(** ** Outcome of a run *)

(** The exceptions that the embedding can raise; [ExternalError] is any
    exception of an engine. *)
Inductive exn : Type :=
| NameError (name : string)
| IndexError
| AssertionError
| RecursionError
| ExternalError.

Inductive result (A : Type) : Type :=
| Ok (x : A)
| Raise (e : exn)
| OutOfFuel.
Arguments Ok {A} x.
Arguments Raise {A} e.
Arguments OutOfFuel {A}.

#[global] Instance result_ret : MRet result := fun _ x => Ok x.
#[global] Instance result_bind : MBind result := fun _ _ k r =>
  match r with
  | Ok x => k x
  | Raise e => Raise e
  | OutOfFuel => OutOfFuel
  end.

(** [x[i]] on a list: [IndexError] past the end. *)
Definition getitem {A : Type} (x : list A) (i : nat) : result A :=
  match x !! i with
  | Some v => Ok v
  | None => Raise IndexError
  end.

(** ** [difflib]: [SequenceMatcher] (CPython 3.11, Lib/difflib.py) *)

Module Difflib.

(** [Match(a, b, size)] *)
Definition Match : Type := nat * nat * nat.

Inductive tag : Type := replace | delete | insert | equal.

(** An opcode [(tag, i1, i2, j1, j2)]. *)
Definition opcode : Type := tag * nat * nat * nat * nat.

(** [int] to [float]; exact below 2^53. *)
Definition float_of_nat (n : nat) : float :=
  PrimFloat.of_uint63 (Uint63.of_Z (Z.of_nat n)).

(** [_calculate_ratio] *)
Definition calculate_ratio (matches length : nat) : float :=
  if (length =? 0)%nat then 1%float
  else (2 * float_of_nat matches / float_of_nat length)%float.

(** Tuples of integers compare lexicographically. *)
Definition match_leb (x y : Match) : bool :=
  let '(i1, j1, k1) := x in
  let '(i2, j2, k2) := y in
  ((i1 <? i2) || ((i1 =? i2) && ((j1 <? j2) || ((j1 =? j2) && (k1 <=? k2)))))%nat.

Fixpoint insert_sorted (x : Match) (l : list Match) : list Match :=
  match l with
  | [] => [x]
  | y :: l' => if match_leb x y then x :: l else y :: insert_sorted x l'
  end.

(** [list.sort()] on a list of matches. *)
Definition sort (l : list Match) : list Match := foldr insert_sorted [] l.

(** The loop of [get_matching_blocks] that merges adjacent blocks; the
    state is [(i1, j1, k1)] and [non_adjacent]. *)
Definition collapse_step (st : Match * list Match) (m : Match)
  : Match * list Match :=
  let '((i1, j1, k1), non_adjacent) := st in
  let '(i2, j2, k2) := m in
  if ((i1 + k1 =? i2) && (j1 + k1 =? j2))%nat
  then ((i1, j1, k1 + k2), non_adjacent)
  else ((i2, j2, k2),
        if (k1 =? 0)%nat then non_adjacent else non_adjacent ++ [(i1, j1, k1)]).

Definition collapse (la lb : nat) (matching_blocks : list Match) : list Match :=
  let '((i1, j1, k1), non_adjacent) :=
    fold_left collapse_step matching_blocks ((0, 0, 0), []) in
  let non_adjacent :=
    if (k1 =? 0)%nat then non_adjacent else non_adjacent ++ [(i1, j1, k1)] in
  non_adjacent ++ [(la, lb, 0)].

(** The loop of [get_opcodes]; the state is [(i, j)] and [answer]. *)
Definition opcode_step (st : nat * nat * list opcode) (m : Match)
  : nat * nat * list opcode :=
  let '(i, j, answer) := st in
  let '(ai, bj, size) := m in
  let answer :=
    if ((i <? ai) && (j <? bj))%nat then answer ++ [(replace, i, ai, j, bj)]
    else if (i <? ai)%nat then answer ++ [(delete, i, ai, j, bj)]
    else if (j <? bj)%nat then answer ++ [(insert, i, ai, j, bj)]
    else answer in
  let '(i, j) := (ai + size, bj + size) in
  let answer :=
    if (size =? 0)%nat then answer else answer ++ [(equal, ai, i, bj, j)] in
  (i, j, answer).

Definition opcodes_of_blocks (blocks : list Match) : list opcode :=
  (fold_left opcode_step blocks (0, 0, [])).2.

Section SequenceMatcher.
Context {A : Type} `{Countable A}.
(** [isjunk], [None] when no junk function is given. *)
Variable isjunk : option (A -> bool).
Variables a b : list A.

(** The constructor's default, which [Differ] never overrides. *)
Definition autojunk : bool := true.

Definition junk_of (elt : A) : bool :=
  match isjunk with Some f => f elt | None => false end.

(** [__chain_b]: [b2j] maps each element of [b] to the list of its
    indices, junk and popular elements purged. *)
Definition chain_step (b2j : gmap A (list nat)) (ie : nat * A)
  : gmap A (list nat) :=
  <[ie.2 := default [] (b2j !! ie.2) ++ [ie.1]]> b2j.

Definition b2j_all : gmap A (list nat) :=
  fold_left chain_step (imap pair b) ∅.

Definition bjunk : gset A :=
  dom (filter (fun kv => junk_of kv.1 = true) b2j_all).

Definition b2j_nojunk : gmap A (list nat) :=
  filter (fun kv => junk_of kv.1 = false) b2j_all.

Definition ntest : nat := length b / 100 + 1.

Definition b2j : gmap A (list nat) :=
  if autojunk && (200 <=? length b)%nat
  then filter (fun kv => length kv.2 <= ntest) b2j_nojunk
  else b2j_nojunk.

Definition isbjunk (elt : A) : bool := bool_decide (elt ∈ bjunk).

(** The inner loop of [find_longest_match] over the indices [js] of
    [a[i]] in [b]; [best] is [(besti, bestj, bestsize)]. *)
Fixpoint scan_row (i blo bhi : nat) (j2len : gmap nat nat) (js : list nat)
  (newj2len : gmap nat nat) (best : Match) : gmap nat nat * Match :=
  match js with
  | [] => (newj2len, best)
  | j :: js' =>
      if (j <? blo)%nat then scan_row i blo bhi j2len js' newj2len best
      else if (bhi <=? j)%nat then (newj2len, best)
      else
        (* j2len.get(j-1, 0): no key is negative *)
        let k := match j with
                 | O => 0
                 | S j' => default 0 (j2len !! j')
                 end + 1 in
        let newj2len := <[j := k]> newj2len in
        let best := if (best.2 <? k)%nat then (i + 1 - k, j + 1 - k, k)
                    else best in
        scan_row i blo bhi j2len js' newj2len best
  end.

(** The outer loop, over [range(alo, ahi)]. *)
Fixpoint scan_rows (blo bhi : nat) (rows : list nat) (j2len : gmap nat nat)
  (best : Match) : result Match :=
  match rows with
  | [] => Ok best
  | i :: rows' =>
      ai ← getitem a i;
      let '(newj2len, best) :=
        scan_row i blo bhi j2len (default [] (b2j !! ai)) ∅ best in
      scan_rows blo bhi rows' newj2len best
  end.

(** The two loops that grow a match to the left: over elements of [b]
    that are not junk ([want_junk = false]), then over junk. *)
Fixpoint extend_left (want_junk : bool) (alo blo : nat)
  (besti bestj bestsize : nat) : result Match :=
  match besti with
  | O => Ok (besti, bestj, bestsize)
  | S i' =>
      if ((alo <? besti) && (blo <? bestj))%nat then
        bj ← getitem b (bestj - 1);
        if Bool.eqb (isbjunk bj) want_junk then
          ai ← getitem a i';
          if bool_decide (ai = bj)
          then extend_left want_junk alo blo i' (bestj - 1) (bestsize + 1)
          else Ok (besti, bestj, bestsize)
        else Ok (besti, bestj, bestsize)
      else Ok (besti, bestj, bestsize)
  end.

(** The two loops that grow a match to the right; [n] bounds the number
    of rounds by [ahi - (besti + bestsize)]. *)
Fixpoint extend_right (want_junk : bool) (ahi bhi : nat) (n : nat)
  (besti bestj bestsize : nat) : result Match :=
  match n with
  | O => Ok (besti, bestj, bestsize)
  | S n' =>
      if ((besti + bestsize <? ahi) && (bestj + bestsize <? bhi))%nat then
        bj ← getitem b (bestj + bestsize);
        if Bool.eqb (isbjunk bj) want_junk then
          ai ← getitem a (besti + bestsize);
          if bool_decide (ai = bj)
          then extend_right want_junk ahi bhi n' besti bestj (bestsize + 1)
          else Ok (besti, bestj, bestsize)
        else Ok (besti, bestj, bestsize)
      else Ok (besti, bestj, bestsize)
  end.

Definition find_longest_match (alo ahi blo bhi : nat) : result Match :=
  '(besti, bestj, bestsize) ←
    scan_rows blo bhi (seq alo (ahi - alo)) ∅ (alo, blo, 0);
  '(besti, bestj, bestsize) ←
    extend_left false alo blo besti bestj bestsize;
  '(besti, bestj, bestsize) ←
    extend_right false ahi bhi (ahi - (besti + bestsize)) besti bestj bestsize;
  '(besti, bestj, bestsize) ←
    extend_left true alo blo besti bestj bestsize;
  extend_right true ahi bhi (ahi - (besti + bestsize)) besti bestj bestsize.

(** The [while queue] loop of [get_matching_blocks]. The head of [queue]
    is the end of the Python list, where [pop] and [append] work. *)
Fixpoint blocks_loop (fuel : nat) (queue : list (nat * nat * nat * nat))
  (matching_blocks : list Match) : result (list Match) :=
  match queue with
  | [] => Ok matching_blocks
  | (alo, ahi, blo, bhi) :: queue =>
      match fuel with
      | O => OutOfFuel
      | S fuel' =>
          '(i, j, k) ← find_longest_match alo ahi blo bhi;
          if (k =? 0)%nat then blocks_loop fuel' queue matching_blocks
          else
            let matching_blocks := matching_blocks ++ [(i, j, k)] in
            let queue :=
              if ((alo <? i) && (blo <? j))%nat
              then (alo, i, blo, j) :: queue else queue in
            let queue :=
              if ((i + k <? ahi) && (j + k <? bhi))%nat
              then (i + k, ahi, j + k, bhi) :: queue else queue in
            blocks_loop fuel' queue matching_blocks
      end
  end.

(** Every round with a match uses up an element of [a], and every other
    round empties a region that such a round queued. *)
Definition blocks_fuel : nat := 2 * length a + 1.

Definition get_matching_blocks : result (list Match) :=
  let la := length a in
  let lb := length b in
  matching_blocks ← blocks_loop blocks_fuel [(0, la, 0, lb)] [];
  Ok (collapse la lb (sort matching_blocks)).

Definition get_opcodes : result (list opcode) :=
  blocks ← get_matching_blocks;
  Ok (opcodes_of_blocks blocks).

Definition ratio : result float :=
  blocks ← get_matching_blocks;
  let matches := foldr (fun m s => m.2 + s) 0 blocks in
  Ok (calculate_ratio matches (length a + length b)).

(** [quick_ratio]: [fullbcount] counts the elements of [b]; [avail]
    counts down, below zero too. *)
Definition fullbcount : gmap A Z :=
  fold_left (fun m elt => <[elt := (default 0 (m !! elt) + 1)%Z]> m) b ∅.

Definition quick_step (st : gmap A Z * nat) (elt : A) : gmap A Z * nat :=
  let '(avail, matches) := st in
  let numb := match avail !! elt with
              | Some n => n
              | None => default 0%Z (fullbcount !! elt)
              end in
  (<[elt := (numb - 1)%Z]> avail,
   if (0 <? numb)%Z then matches + 1 else matches).

Definition quick_ratio : float :=
  let matches := (fold_left quick_step a (∅, 0)).2 in
  calculate_ratio matches (length a + length b).

Definition real_quick_ratio : float :=
  let la := length a in
  let lb := length b in
  calculate_ratio (Nat.min la lb) (la + lb).

End SequenceMatcher.

(** *** [Differ] and [ndiff] *)

(** [IS_CHARACTER_JUNK]: a blank or a tab. *)
Definition IS_CHARACTER_JUNK (ch : ascii) : bool :=
  Ascii.eqb ch " " || Ascii.eqb ch (ascii_of_nat 9).

(** A [str] as the sequence of its characters. *)
Definition chars (s : string) : list ascii := list_ascii_of_string s.

(** [_keep_original_ws] *)
Fixpoint keep_original_ws (s tag_s : string) : string :=
  match s, tag_s with
  | String c s', String tag_c tag_s' =>
      String (if Ascii.eqb tag_c " " && PyStr.isspace c then c else tag_c)
             (keep_original_ws s' tag_s')
  | _, _ => EmptyString
  end.

(** [_qformat] *)
Definition qformat (aline bline atags btags : string) : list string :=
  let atags := PyStr.rstrip (keep_original_ws aline atags) in
  let btags := PyStr.rstrip (keep_original_ws bline btags) in
  let nl := String (ascii_of_nat 10) "" in
  ["- " +:+ aline]
  ++ (if PyStr.truthy atags then ["? " +:+ atags +:+ nl] else [])
  ++ ["+ " +:+ bline]
  ++ (if PyStr.truthy btags then ["? " +:+ btags +:+ nl] else []).

(** The intraline marks of [_fancy_replace], one step per opcode of the
    character-level comparison. *)
Definition tags_step (st : string * string) (op : opcode) : string * string :=
  let '(atags, btags) := st in
  let '(tg, ai1, ai2, bj1, bj2) := op in
  let la := ai2 - ai1 in
  let lb := bj2 - bj1 in
  match tg with
  | replace => (atags +:+ PyStr.repeat_char "^" la, btags +:+ PyStr.repeat_char "^" lb)
  | delete => (atags +:+ PyStr.repeat_char "-" la, btags)
  | insert => (atags, btags +:+ PyStr.repeat_char "+" lb)
  | equal => (atags +:+ PyStr.repeat_char " " la, btags +:+ PyStr.repeat_char " " lb)
  end.

(** State of the search of [_fancy_replace]: [best_ratio], the pair
    [(best_i, best_j)] once it is bound, and [(eqi, eqj)]. *)
Record search_state : Type := SearchState {
  best_ratio : float;
  best_ij : option (nat * nat);
  eq_ij : option (nat * nat)
}.

Section Differ.
Variables a b : list string.

(** [_dump] *)
Definition dump (tg : string) (x : list string) (lo hi : nat)
  : result (list string) :=
  mapM (fun i => xi ← getitem x i; Ok (tg +:+ " " +:+ xi)) (seq lo (hi - lo)).

(** [_plain_replace] *)
Definition plain_replace (alo ahi blo bhi : nat) : result (list string) :=
  if ((alo <? ahi) && (blo <? bhi))%nat then
    if (bhi - blo <? ahi - alo)%nat then
      first ← dump "+" b blo bhi;
      second ← dump "-" a alo ahi;
      Ok (first ++ second)
    else
      first ← dump "-" a alo ahi;
      second ← dump "+" b blo bhi;
      Ok (first ++ second)
  else Raise AssertionError.

(** The body of the inner [for i] loop of [_fancy_replace]. *)
Definition search_step (j : nat) (bj : string) (st : search_state) (i : nat)
  : result search_state :=
  ai ← getitem a i;
  if bool_decide (ai = bj) then
    Ok (match eq_ij st with
        | None => SearchState (best_ratio st) (best_ij st) (Some (i, j))
        | Some _ => st
        end)
  else
    let ca := chars ai in
    let cb := chars bj in
    if PrimFloat.ltb (best_ratio st) (real_quick_ratio ca cb) then
      if PrimFloat.ltb (best_ratio st) (quick_ratio ca cb) then
        r ← ratio (Some IS_CHARACTER_JUNK) ca cb;
        if PrimFloat.ltb (best_ratio st) r
        then Ok (SearchState r (Some (i, j)) (eq_ij st))
        else Ok st
      else Ok st
    else Ok st.

Fixpoint search_row (j : nat) (bj : string) (st : search_state)
  (rows : list nat) : result search_state :=
  match rows with
  | [] => Ok st
  | i :: rows' => st ← search_step j bj st i; search_row j bj st rows'
  end.

Fixpoint search (alo ahi : nat) (st : search_state) (cols : list nat)
  : result search_state :=
  match cols with
  | [] => Ok st
  | j :: cols' =>
      bj ← getitem b j;
      st ← search_row j bj st (seq alo (ahi - alo));
      search alo ahi st cols'
  end.

(** [_fancy_helper], given the generator it may call. *)
Definition fancy_helper
  (fancy : nat -> nat -> nat -> nat -> result (list string))
  (alo ahi blo bhi : nat) : result (list string) :=
  if (alo <? ahi)%nat then
    if (blo <? bhi)%nat then fancy alo ahi blo bhi
    else dump "-" a alo ahi
  else if (blo <? bhi)%nat then dump "+" b blo bhi
  else Ok [].

(** [_fancy_replace], a recursive generator: through [_fancy_helper] it
    calls itself on the ranges before and after the pair of lines that it
    synchs on. [depth] is the number of nested calls that the interpreter
    still allows; a call beyond it raises [RecursionError]. *)
Fixpoint fancy_replace (depth : nat) (alo ahi blo bhi : nat)
  : result (list string) :=
  match depth with
  | O => Raise RecursionError
  | S depth' =>
      st ← search alo ahi (SearchState 0.74 None None) (seq blo (bhi - blo));
      let synch (best_i best_j : nat) (identical : bool) :=
        before ← fancy_helper (fancy_replace depth') alo best_i blo best_j;
        aelt ← getitem a best_i;
        belt ← getitem b best_j;
        middle ←
          (if identical then Ok ["  " +:+ aelt]
           else
             ops ← get_opcodes (Some IS_CHARACTER_JUNK) (chars aelt) (chars belt);
             let '(atags, btags) := fold_left tags_step ops ("", "") in
             Ok (qformat aelt belt atags btags));
        after ← fancy_helper (fancy_replace depth')
                  (best_i + 1) ahi (best_j + 1) bhi;
        Ok (before ++ middle ++ after) in
      if PrimFloat.ltb (best_ratio st) 0.75 then
        match eq_ij st with
        | None => plain_replace alo ahi blo bhi
        | Some (eqi, eqj) => synch eqi eqj true
        end
      else
        match best_ij st with
        | Some (best_i, best_j) => synch best_i best_j false
        | None => Raise (NameError "best_i")
        end
  end.

(** [Differ.compare] with [linejunk = None], consumed to its end;
    [depth] is the number of nested calls of [_fancy_replace] that the
    interpreter allows. *)
Definition compare_step (depth : nat) (op : opcode) : result (list string) :=
  let '(tg, alo, ahi, blo, bhi) := op in
  match tg with
  | replace => fancy_replace depth alo ahi blo bhi
  | delete => dump "-" a alo ahi
  | insert => dump "+" b blo bhi
  | equal => dump " " a alo ahi
  end.

Definition compare (depth : nat) : result (list string) :=
  ops ← get_opcodes None a b;
  gs ← mapM (compare_step depth) ops;
  Ok (concat gs).

End Differ.

(** [ndiff(a, b)] with its default [linejunk] and [charjunk], consumed to
    its end. *)
Definition ndiff (depth : nat) (a b : list string) : result (list string) :=
  compare a b depth.

End Difflib.


(** ** TextBlob: [TextBlob(text).correct()] (textblob/blob.py)

    [correct] tokenizes the raw text with the regular expression
    [\w+|[^\w\s]|\s], replaces every token [w] by [Word(w).correct()] and
    joins the results with nothing in between. *)

Module TextBlob.

(** [\w] for a character below U+0100. *)
Definition is_word_char (c : ascii) : bool :=
  let n := nat_of_ascii c in
  (((48 <=? n) && (n <=? 57)) || ((65 <=? n) && (n <=? 90)) || (n =? 95)
   || ((97 <=? n) && (n <=? 122)) || (n =? 170) || ((178 <=? n) && (n <=? 179))
   || (n =? 181) || ((185 <=? n) && (n <=? 186)) || ((188 <=? n) && (n <=? 190))
   || ((192 <=? n) && (n <=? 214)) || ((216 <=? n) && (n <=? 246))
   || ((248 <=? n) && (n <=? 255)))%nat.

(** [nltk.tokenize.regexp_tokenize(raw, r"\w+|[^\w\s]|\s")]: maximal runs of
    word characters, and every other character on its own. [w] is the run
    being read. *)
Fixpoint tokenize_from (w : string) (s : string) : list string :=
  match s with
  | EmptyString => if PyStr.is_empty w then [] else [w]
  | String c s' =>
      if is_word_char c then tokenize_from (w +:+ String c "") s'
      else (if PyStr.is_empty w then [] else [w])
           ++ String c "" :: tokenize_from "" s'
  end.

Definition regexp_tokenize (raw : string) : list string := tokenize_from "" raw.

Section Correct.
(** The spelling engine: [Word(w).correct()] as a [str]. *)
Variable spelling : string -> string.

Definition correct (raw : string) : string :=
  PyStr.join "" (map spelling (regexp_tokenize raw)).
End Correct.

End TextBlob.

(** ** The script *)

Module App.

(** The parser's view of a document: [page.get_text("dict")["blocks"]],
    and the keys that the script reads with [get]. A key may be absent. *)
Record span : Type := Span {
  sp_text : option string;
  sp_angle : option float
}.
Record line : Type := Line { ln_spans : option (list span) }.
Record block : Type := Block { bl_lines : option (list line) }.
Record page : Type := Page { pg_blocks : list block }.
Definition document : Type := list page.

(** The body of the innermost loop of [extract_with_pymupdf]; the state is
    [(text, tilted_words)]. *)
Definition span_step (st : string * list string) (sp : span)
  : string * list string :=
  let '(text, tilted_words) := st in
  let span_text := PyStr.strip (default "" (sp_text sp)) in
  if negb (PyStr.truthy span_text) then st
  else
    let angle := PrimFloat.abs (default 0%float (sp_angle sp)) in
    let tilted_words :=
      if PrimFloat.ltb 1 angle
      then tilted_words ++ PyStr.split span_text
      else tilted_words in
    (text +:+ " " +:+ span_text, tilted_words).

Definition line_step (st : string * list string) (ln : line) :=
  fold_left span_step (default [] (ln_spans ln)) st.

Definition block_step (st : string * list string) (bl : block) :=
  fold_left line_step (default [] (bl_lines bl)) st.

Definition page_step (st : string * list string) (pg : page) :=
  fold_left block_step (pg_blocks pg) st.

Definition extract_with_pymupdf (doc : document) : string * list string :=
  let '(text, tilted_words) := fold_left page_step doc ("", []) in
  (PyStr.strip text, tilted_words).

(** [highlight_tilted]; the loop appends to [out]. *)
Definition mark (w : string) : string :=
  "<span style='color:green;font-weight:bold'>" +:+ w +:+ "</span>".

Definition highlight_step (tilted_words : list string) (out : list string)
  (w : string) : list string :=
  if bool_decide (w ∈ tilted_words) then out ++ [mark w] else out ++ [w].

Definition highlight_tilted (text : string) (tilted_words : list string)
  : string :=
  let words := PyStr.split text in
  let out := fold_left (highlight_step tilted_words) words [] in
  PyStr.join " " out.

(** A line of [agent_report], before it is formatted. *)
Inductive report_line : Type :=
| Agent1 (words : nat) (tilted : list string)
| Agent2 (words : nat)
| Agent2Failed
| Agent3 (words : nat)
| Agent4 (added removed tilted : list string).

(** Agent 4: the loop that fills [added] and [removed]. *)
Definition summary_step (st : list string * list string) (d : string)
  : list string * list string :=
  let '(added, removed) := st in
  if PyStr.startswith "+ " d then (added ++ [PyStr.drop 2 d], removed)
  else if PyStr.startswith "- " d then (added, removed ++ [PyStr.drop 2 d])
  else (added, removed).

(** The loop that fills [diff_html] for a pair of sentences. *)
Definition diff_html_step (diff_html : list string) (d : string) : list string :=
  if PyStr.startswith "+ " d
  then diff_html ++ ["<span style='color:green'>" +:+ PyStr.drop 2 d +:+ "</span>"]
  else if PyStr.startswith "- " d
  then diff_html ++ ["<span style='color:red'>" +:+ PyStr.drop 2 d +:+ "</span>"]
  else diff_html ++ [PyStr.drop 2 d].

(** [[s.strip() for s in text.split('.') if s.strip()]] *)
Definition sentences (text : string) : list string :=
  map PyStr.strip
    (filter (fun s => PyStr.truthy (PyStr.strip s) = true) (PyStr.split_on "." text)).

(** Padding to [max_len] and [zip]. *)
Definition align (original_sentences corrected_sentences : list string)
  : list (string * string) :=
  let max_len := Nat.max (length original_sentences) (length corrected_sentences) in
  let original_sentences :=
    original_sentences ++ replicate (max_len - length original_sentences) "" in
  let corrected_sentences :=
    corrected_sentences ++ replicate (max_len - length corrected_sentences) "" in
  zip original_sentences corrected_sentences.

(** What a completed run has produced. *)
Record output : Type := Output {
  agent_report : list report_line;
  combined_text : string;
  corrected_text : string;
  added : list string;
  removed : list string;
  final_text_display : string;
  df_rows : list (string * string);
  html_rows : list string
}.

Section Main.
(** The number of nested calls of [_fancy_replace] that the recursion
    limit of the interpreter leaves room for, at the top level of the
    script. *)
Variable depth : nat.
(** Rendering a page and recognising its text: [page.get_pixmap],
    [Image.open], [pytesseract.image_to_string]. *)
Variable ocr_engine : page -> result string.
Variable spelling : string -> string.

Definition extract_with_ocr (pg : page) : result string := ocr_engine pg.

Definition correct_text (text : string) : string :=
  TextBlob.correct spelling text.

(** The body of the loop over the sentence pairs: the row of [html_rows]. *)
Definition html_row (tilted_words : list string) (oc : string * string)
  : result string :=
  let '(o, c) := oc in
  diff ← Difflib.ndiff depth (PyStr.split o) (PyStr.split c);
  let diff_html := fold_left diff_html_step diff [] in
  Ok ("<p><b>Original:</b> " +:+ highlight_tilted o tilted_words
      +:+ "<br><b>Corrected:</b> " +:+ highlight_tilted c tilted_words
      +:+ "<br><b>Diff:</b> " +:+ PyStr.join " " diff_html +:+ "</p><hr>").

(** The script after the upload. [ocr_text] is bound only when the
    [try] block reached its assignment. *)
Definition main (doc : document) : result output :=
  let agent_report := [] in
  let '(raw_text, tilted_words) := extract_with_pymupdf doc in
  let agent_report :=
    agent_report ++ [Agent1 (length (PyStr.split raw_text)) tilted_words] in
  let '(ocr_text, agent_report) :=
    match (pg ← getitem doc 0; extract_with_ocr pg) with
    | Ok t => (Some t, agent_report ++ [Agent2 (length (PyStr.split t))])
    | _ => (None, agent_report ++ [Agent2Failed])
    end in
  combined_text ←
    (if PyStr.truthy raw_text then Ok raw_text
     else match ocr_text with
          | Some t => Ok t
          | None => Raise (NameError "ocr_text")
          end);
  let corrected_text := correct_text combined_text in
  let agent_report :=
    agent_report ++ [Agent3 (length (PyStr.split corrected_text))] in
  diff ← Difflib.ndiff depth (PyStr.split combined_text) (PyStr.split corrected_text);
  let '(added, removed) := fold_left summary_step diff ([], []) in
  let agent_report := agent_report ++ [Agent4 added removed tilted_words] in
  let final_text_display := highlight_tilted corrected_text tilted_words in
  let pairs := align (sentences combined_text) (sentences corrected_text) in
  html_rows ← mapM (html_row tilted_words) pairs;
  Ok (Output agent_report combined_text corrected_text added removed
        final_text_display pairs html_rows).
End Main.

End App.

(** ** Notions used to state the properties *)

Module Spec.
Import App.

(** An entry of an edit script, and the line of [ndiff] that stands for it. *)
Inductive DiffEntry : Type :=
| Unchanged (token : string)
| Added (token : string)
| Removed (token : string).

Definition render (e : DiffEntry) : string :=
  match e with
  | Unchanged t => "  " +:+ t
  | Added t => "+ " +:+ t
  | Removed t => "- " +:+ t
  end.

(** [d] is the line of one of the three kinds of entry, for a token of
    [tokens]. *)
Definition is_entry (tokens : list string) (d : string) : bool :=
  existsb (fun t => String.eqb d (render (Unchanged t))
                    || String.eqb d (render (Added t))
                    || String.eqb d (render (Removed t))) tokens.

(** [d] is the line of an entry for a token of [tokens], or an intraline
    hint. *)
Definition entry_line (tokens : list string) (d : string) : Prop :=
  exists t, t ∈ tokens
    /\ (d = render (Unchanged t) \/ d = render (Added t) \/ d = render (Removed t)).

Definition hint_line (d : string) : Prop := exists h, d = "? " +:+ h.

Definition ndiff_line (tokens : list string) (d : string) : Prop :=
  entry_line tokens d \/ hint_line d.

(** The spans of a document, in the order in which the loops visit them. *)
Definition spans_of_line (ln : line) : list span := default [] (ln_spans ln).
Definition spans_of_block (bl : block) : list span :=
  flat_map spans_of_line (default [] (bl_lines bl)).
Definition spans_of_page (pg : page) : list span :=
  flat_map spans_of_block (pg_blocks pg).
Definition spans_of (doc : document) : list span := flat_map spans_of_page doc.

(** The tilt test, [abs(angle) > 1], with 0 for a missing angle. *)
Definition is_tilted (sp : span) : bool :=
  PrimFloat.ltb 1 (PrimFloat.abs (default 0%float (sp_angle sp))).

(** The whitespace-separated words of a span. *)
Definition span_words (sp : span) : list string :=
  PyStr.split (default "" (sp_text sp)).

(** What a span adds to the tilted words. *)
Definition tilted_words_of (sp : span) : list string :=
  if is_tilted sp then span_words sp else [].

(** A token as the highlighter shows it. *)
Definition shown (tilted_words : list string) (w : string) : string :=
  if bool_decide (w ∈ tilted_words) then mark w else w.

(** The outcome of a computation that may nest calls of [_fancy_replace]:
    it answers with a value that satisfies [P], or the interpreter stops
    it with [RecursionError]. *)
Definition answers_or_recursion {T : Type} (P : T -> Prop) (r : result T) : Prop :=
  (exists y, r = Ok y /\ P y) \/ r = Raise RecursionError.

(** The documents and engines of the examples. *)
Definition one_line (sps : list span) : document :=
  [Page [Block (Some [Line (Some sps)])]].

Definition helo_world : document :=
  one_line [Span (Some "Helo") (Some 5%float); Span (Some "world.") (Some 0%float)].

Definition blank_page : document := [Page []].

(** A tilted word, and its corrected spelling in a tilted span of its own. *)
Definition helo_hello : document :=
  one_line [Span (Some "Helo") (Some 5%float); Span (Some "Hello") (Some 5%float)].

(** A depth of nested calls that the default recursion limit of 1000
    leaves room for. *)
Definition example_depth : nat := 400.

Definition bad_twice : document :=
  one_line [Span (Some "bad") (Some 5%float); Span (Some "bad") (Some 7%float)].

Definition helo_to_hello (w : string) : string :=
  if String.eqb w "Helo" then "Hello" else w.

Definition ocr_unavailable (pg : page) : result string := Raise ExternalError.

Definition ocr_reads_nothing (pg : page) : result string := Ok "".

(** The intraline hint that [ndiff] emits after [+ Hello] when it follows
    [- Helo]: a question mark, and a plus sign under the added letter. *)
Definition hint_plus : string := "?    +" +:+ String (ascii_of_nat 10) "".

End Spec.

(** ** Notions used to reason about [find_longest_match] *)

Module MatcherSpec.
Section Run.
Context {A : Type} `{Countable A}.
(** A sequence compared with itself, with no junk function. *)
Variable X : list A.

(** [X[i]] is a key of [b2j]: it takes part in the search. *)
Definition keyed (i : nat) : bool :=
  match X !! i with
  | Some x => bool_decide (is_Some (Difflib.b2j None X !! x))
  | None => false
  end.

(** The length of the run of keyed elements that ends at [i]. *)
Fixpoint run (i : nat) : nat :=
  if keyed i then S (match i with O => 0 | S i' => run i' end) else 0.

Definition prevrun (i : nat) : nat :=
  match i with O => 0 | S i' => run i' end.

(** The value that [scan_row] stores under [j]. *)
Definition kval (j2len : gmap nat nat) (j : nat) : nat :=
  match j with O => 0 | S j' => default 0 (j2len !! j') end + 1.

(** The state of the search before row [i]: the table of row [i - 1]
    never exceeds the runs, and is exact on the diagonal. *)
Record table_ok (i : nat) (j2len : gmap nat nat) : Prop := TableOk {
  table_prev : forall j, default 0 (j2len !! j) <= prevrun i;
  table_run : forall j, default 0 (j2len !! j) <= run j;
  table_diag : match i with
               | O => True
               | S i' => default 0 (j2len !! i') = run i'
               end
}.

End Run.

(** [m] maps every key to the ascending list of its positions in [b]. *)
Definition indexes {A : Type} `{Countable A} (b : list A)
  (m : gmap A (list nat)) : Prop :=
  forall x js, m !! x = Some js ->
    StronglySorted lt js /\ forall j, j ∈ js <-> b !! j = Some x.

(** A match inside the region [a[alo:ahi]], [b[blo:bhi]]. *)
Definition in_region (alo ahi blo bhi : nat) (m : Difflib.Match) : Prop :=
  alo <= m.1.1 /\ m.1.1 + m.2 <= ahi /\ blo <= m.1.2 /\ m.1.2 + m.2 <= bhi.

(** The table of the row before [i]: no entry is longer than the part of
    the region above and to the left of its cell. *)
Definition table_in (alo blo i : nat) (j2len : gmap nat nat) : Prop :=
  forall j v, j2len !! j = Some v -> v + alo <= i /\ v + blo <= j + 1.

Section Regions.
Context {A : Type}.
Variables a b : list A.

(** A block of [a] and [b], and a region still to be searched. *)
Definition block_in (m : Difflib.Match) : Prop :=
  m.1.1 + m.2 <= length a /\ m.1.2 + m.2 <= length b.

Definition region_in (r : nat * nat * nat * nat) : Prop :=
  let '(alo, ahi, blo, bhi) := r in
  alo <= ahi /\ ahi <= length a /\ blo <= bhi /\ bhi <= length b.

(** What a queue can cost: a round for each region, and two for each
    element of [a] in it. *)
Definition weight (queue : list (nat * nat * nat * nat)) : nat :=
  foldr (fun r w => let '(alo, ahi, _, _) := r in 2 * (ahi - alo) + 1 + w) 0 queue.

(** An opcode of [a] and [b]; a [replace] has something on both sides. *)
Definition opcode_in (op : Difflib.opcode) : Prop :=
  let '(tg, i1, i2, j1, j2) := op in
  i2 <= length a /\ j2 <= length b /\ (tg = Difflib.replace -> i1 < i2 /\ j1 < j2).

End Regions.

(** The state of the search of [_fancy_replace] over [a[alo:ahi]] and
    [b[blo:bhi]]. *)
Definition pair_in (alo ahi blo bhi : nat) (ij : nat * nat) : Prop :=
  alo <= ij.1 /\ ij.1 < ahi /\ blo <= ij.2 /\ ij.2 < bhi.

Definition search_ok (alo ahi blo bhi : nat) (st : Difflib.search_state) : Prop :=
  match Difflib.best_ij st with
  | Some ij => pair_in alo ahi blo bhi ij
  | None => Difflib.best_ratio st = 0.74%float
  end
  /\ match Difflib.eq_ij st with
     | Some ij => pair_in alo ahi blo bhi ij
     | None => True
     end.

End MatcherSpec.

(** ** Notions used to state further properties *)

Module MoreSpec.
Import App Spec.

(** No character of [s] is whitespace. *)
Fixpoint no_space (s : string) : Prop :=
  match s with
  | EmptyString => True
  | String c s' => PyStr.isspace c = false /\ no_space s'
  end.

(** A word: not empty, and without whitespace. *)
Definition is_word (s : string) : Prop := s <> "" /\ no_space s.

(** [s] neither starts nor ends with whitespace. *)
Definition trimmed (s : string) : Prop := PyStr.lstrip s = s /\ PyStr.rstrip s = s.

(** Character [c] does not occur in [s]. *)
Fixpoint free_of (c : ascii) (s : string) : Prop :=
  match s with
  | EmptyString => True
  | String c' s' => c' <> c /\ free_of c s'
  end.

(** Every character of [s] is whitespace. *)
Fixpoint all_space (s : string) : Prop :=
  match s with
  | EmptyString => True
  | String c s' => PyStr.isspace c = true /\ all_space s'
  end.

(** The first character of [s], if any, is not whitespace; so for the
    last one. *)
Definition starts_nonspace (s : string) : Prop :=
  match s with
  | EmptyString => True
  | String c _ => PyStr.isspace c = false
  end.

Fixpoint ends_nonspace (s : string) : Prop :=
  match s with
  | EmptyString => True
  | String c s' =>
      match s' with
      | EmptyString => PyStr.isspace c = false
      | String _ _ => ends_nonspace s'
      end
  end.

(** [s] is [piece] without the whitespace at its two ends. *)
Definition trim_of (piece s : string) : Prop :=
  exists l r, piece = l +:+ s +:+ r
    /\ all_space l /\ all_space r /\ starts_nonspace s /\ ends_nonspace s.

(** [pieces] are the parts of [text] between its periods. *)
Definition pieces_of (text : string) (pieces : list string) : Prop :=
  pieces <> [] /\ PyStr.join "." pieces = text /\ Forall (free_of ".") pieces.

(** The sentences of a list of pieces: every piece trimmed, in order, as
    often as it occurs; the pieces of whitespace only are left out. *)
Inductive kept : list string -> list string -> Prop :=
| kept_nil : kept [] []
| kept_blank (p : string) (ps ss : list string) :
    all_space p -> kept ps ss -> kept (p :: ps) ss
| kept_sentence (p s : string) (ps ss : list string) :
    trim_of p s -> s <> "" -> kept ps ss -> kept (p :: ps) (s :: ss).

(** The recursion limit leaves room for the comparison of [text] with
    another text, as a whole and sentence by sentence: [depth] is at
    least the number of words of the text and of each of its sentences. *)
Definition room_for (depth : nat) (text : string) : Prop :=
  length (PyStr.split text) <= depth
  /\ Forall (fun o => length (PyStr.split o) <= depth) (sentences text).

(** The text that a span adds, and whether it adds any. *)
Definition span_text (sp : span) : string := PyStr.strip (default "" (sp_text sp)).

Definition nonblank (sp : span) : bool := PyStr.truthy (span_text sp).

(** [difflib.restore(delta, which)]: the lines of [delta] that start with
    two blanks or with the tag of [which], without these two characters. *)
Inductive side : Type := First | Second.

Definition side_tag (which : side) : string :=
  match which with First => "- " | Second => "+ " end.

Definition restore (delta : list string) (which : side) : list string :=
  map (PyStr.drop 2)
    (filter (fun d => PyStr.startswith "  " d || PyStr.startswith (side_tag which) d = true)
       delta).

Section Matching.
Context {A : Type}.
Variables a b : list A.

(** [a[i:i+k]] and [b[j:j+k]] are the same, element by element. *)
Definition match_at (i j k : nat) : Prop :=
  forall x, x < k -> exists e, a !! (i + x) = Some e /\ b !! (j + x) = Some e.

Definition match_ok (m : Difflib.Match) : Prop := match_at m.1.1 m.1.2 m.2.

(** The table of the row before [i]: an entry [v] under [j] stands for a
    match of length [v] that ends at row [i - 1] and column [j]. *)
Definition table_match (i : nat) (j2len : gmap nat nat) : Prop :=
  forall j v, j2len !! j = Some v ->
    v <= i /\ v <= j + 1 /\ match_at (i - v) (j + 1 - v) v.

End Matching.

(** A region of the two sequences, [(alo, ahi, blo, bhi)]; a block as a
    region; one region wholly before another, in [a] and in [b]. *)
Definition box : Type := nat * nat * nat * nat.

Definition box_of (m : Difflib.Match) : box :=
  (m.1.1, m.1.1 + m.2, m.1.2, m.1.2 + m.2).

Definition before (x y : box) : Prop :=
  let '(_, ahi, _, bhi) := x in
  let '(alo, _, blo, _) := y in
  ahi <= alo /\ bhi <= blo.

Definition apart (x y : box) : Prop := before x y \/ before y x.

Definition inside (s r : box) : Prop :=
  let '(salo, sahi, sblo, sbhi) := s in
  let '(alo, ahi, blo, bhi) := r in
  alo <= salo /\ sahi <= ahi /\ blo <= sblo /\ sbhi <= bhi.

(** A block that ends where the next one starts, or earlier. *)
Definition mbefore (x y : Difflib.Match) : Prop :=
  x.1.1 + x.2 <= y.1.1 /\ x.1.2 + x.2 <= y.1.2.

(** [l[lo:hi]] for [lo <= hi]. *)
Definition slice {T : Type} (l : list T) (lo hi : nat) : list T :=
  take (hi - lo) (drop lo l).

Section Cover.
Context {A : Type}.
Variables a b : list A.

(** The blocks that [get_matching_blocks] returns: real matches inside the
    sequences, each before the next, closed by the sentinel. *)
Definition blocks_ok (blocks : list Difflib.Match) : Prop :=
  StronglySorted mbefore blocks
  /\ Forall (match_ok a b) blocks
  /\ Forall (MatcherSpec.block_in a b) blocks
  /\ exists pre, blocks = pre ++ [(length a, length b, 0)].

(** An opcode says what its tag promises. *)
Definition tag_ok (op : Difflib.opcode) : Prop :=
  let '(tg, i1, i2, j1, j2) := op in
  i1 <= i2 /\ i2 <= length a /\ j1 <= j2 /\ j2 <= length b
  /\ match tg with
     | Difflib.replace => i1 < i2 /\ j1 < j2
     | Difflib.delete => i1 < i2 /\ j1 = j2
     | Difflib.insert => i1 = i2 /\ j1 < j2
     | Difflib.equal => i1 < i2 /\ slice a i1 i2 = slice b j1 j2
     end.

(** What [get_opcodes] adds for a block [(ai, bj, size)] when it stands at
    [(i, j)]: an opcode for the gap before the block, and one for the
    block. *)
Definition gap_ops (i j ai bj : nat) : list Difflib.opcode :=
  if ((i <? ai) && (j <? bj))%nat then [(Difflib.replace, i, ai, j, bj)]
  else if (i <? ai)%nat then [(Difflib.delete, i, ai, j, bj)]
  else if (j <? bj)%nat then [(Difflib.insert, i, ai, j, bj)]
  else [].

Definition equal_ops (ai bj size : nat) : list Difflib.opcode :=
  if (size =? 0)%nat then [] else [(Difflib.equal, ai, ai + size, bj, bj + size)].

(** The opcodes go through [a] from [i] and through [b] from [j], each
    starting where the one before it ends, up to the ends. *)
Fixpoint covers (i j : nat) (ops : list Difflib.opcode) : Prop :=
  match ops with
  | [] => i = length a /\ j = length b
  | op :: ops' =>
      let '(tg, i1, i2, j1, j2) := op in
      i1 = i /\ j1 = j /\ tag_ok op /\ covers i2 j2 ops'
  end.

End Cover.

(** The lines [l] stand for [a[alo:ahi]] against [b[blo:bhi]]. *)
Definition restores (a b : list string) (l : list string)
  (alo ahi blo bhi : nat) : Prop :=
  restore l First = slice a alo ahi /\ restore l Second = slice b blo bhi.

(** The pair of identical lines that the search of [_fancy_replace]
    remembers is a pair of identical lines. *)
Definition eq_ok (a b : list string) (st : Difflib.search_state) : Prop :=
  forall i j, Difflib.eq_ij st = Some (i, j) ->
    exists e, a !! i = Some e /\ b !! j = Some e.

(** The [try] block of the script: the first page, then its OCR. *)
Definition ocr_attempt (ocr_engine : page -> result string) (doc : document)
  : result string :=
  pg ← getitem doc 0; extract_with_ocr ocr_engine pg.

(** The line that the [try] block or its [except] adds to the report. *)
Definition agent2_line (r : result string) : report_line :=
  match r with
  | Ok t => Agent2 (length (PyStr.split t))
  | _ => Agent2Failed
  end.

(** The text that the script selects, [raw_text if raw_text else
    ocr_text]: the embedded text when there is any, else the text that
    OCR read on the first page. *)
Definition selects (ocr_engine : page -> result string) (doc : document)
  (selected : string) : Prop :=
  (PyStr.truthy (extract_with_pymupdf doc).1 = true
   /\ selected = (extract_with_pymupdf doc).1)
  \/ (PyStr.truthy (extract_with_pymupdf doc).1 = false
      /\ ocr_attempt ocr_engine doc = Ok selected).

(** The script from the correction on, given the selected text and the
    report so far. *)
Definition run_from_selection (depth : nat) (spelling : string -> string)
  (tilted_words : list string) (report : list report_line) (combined : string)
  : result output :=
  let corrected := correct_text spelling combined in
  let report := report ++ [Agent3 (length (PyStr.split corrected))] in
  diff ← Difflib.ndiff depth (PyStr.split combined) (PyStr.split corrected);
  let '(ad, rm) := fold_left summary_step diff ([], []) in
  let report := report ++ [Agent4 ad rm tilted_words] in
  let display := highlight_tilted corrected tilted_words in
  let pairs := align (sentences combined) (sentences corrected) in
  rows ← mapM (html_row depth tilted_words) pairs;
  Ok (Output report combined corrected ad rm display pairs rows).

(** The tokens of the lines of a diff that start with [p]. *)
Definition lines_with (p : string) (diff : list string) : list string :=
  map (PyStr.drop 2) (filter (fun d => PyStr.startswith p d = true) diff).

(** A token as the per-sentence diff shows it when it is removed, and
    when it is added. *)
Definition red (t : string) : string := "<span style='color:red'>" +:+ t +:+ "</span>".

Definition green (t : string) : string :=
  "<span style='color:green'>" +:+ t +:+ "</span>".

(** Further documents and engines of the examples: two spans without an
    angle of their own, a spelling engine that changes nothing, an OCR
    engine that reads two words. *)
Definition plain_doc : document :=
  one_line [Span (Some "Hello ") None; Span (Some " big  world.") (Some 0.5%float)].

Definition keep_spelling (w : string) : string := w.

Definition ocr_reads_two (pg : page) : result string := Ok "two words".

End MoreSpec.

(** ** Strings *)

Module PyStrFacts.
Import PyStr.

Lemma split_from_lstrip (s : string) :
  split_from "" (lstrip s) = split_from "" s.
Proof.
  induction s as [|c s IH]; simpl; [reflexivity|].
  destruct (isspace c) eqn:Hc; simpl.
  - exact IH.
  - rewrite Hc. reflexivity.
Qed.

Lemma split_from_rstrip (s : string) :
  forall w, split_from w (rstrip s) = split_from w s.
Proof.
  induction s as [|c s IH]; intros w; simpl; [reflexivity|].
  destruct (isspace c) eqn:Hc; simpl.
  - destruct (is_empty (rstrip s)) eqn:He.
    + destruct (rstrip s) eqn:Hr; [|discriminate].
      rewrite <- (IH ""). simpl. destruct (is_empty w); reflexivity.
    + simpl. rewrite Hc, !IH. reflexivity.
  - rewrite Hc. apply IH.
Qed.

(** Stripping a text does not change its words. *)
Lemma split_strip (s : string) : split (strip s) = split s.
Proof.
  unfold split, strip. rewrite split_from_rstrip. apply split_from_lstrip.
Qed.

Lemma truthy_false (s : string) : truthy s = false -> s = "".
Proof. destruct s; [reflexivity|discriminate]. Qed.

Lemma length_append (s1 s2 : string) :
  String.length (s1 +:+ s2) = String.length s1 + String.length s2.
Proof. induction s1 as [|c s1 IH]; simpl; [reflexivity|]. rewrite IH. reflexivity. Qed.

End PyStrFacts.

(** ** The span extractor *)

Module ExtractFacts.
Import App Spec.

Lemma fold_left_flat_map {S X Y : Type} (f : S -> Y -> S) (g : X -> list Y)
  (l : list X) (st : S) :
  fold_left (fun st x => fold_left f (g x) st) l st = fold_left f (flat_map g l) st.
Proof.
  revert st. induction l as [|x l IH]; intros st; simpl; [reflexivity|].
  rewrite fold_left_app. apply IH.
Qed.

(** The four nested loops visit the spans of the document in order. *)
Lemma pages_fold (doc : document) (st : string * list string) :
  fold_left page_step doc st = fold_left span_step (spans_of doc) st.
Proof.
  unfold spans_of. rewrite <- fold_left_flat_map.
  revert st. induction doc as [|pg doc IH]; intros st; simpl; [reflexivity|].
  rewrite <- IH. f_equal.
  unfold page_step, spans_of_page. rewrite <- fold_left_flat_map.
  generalize (pg_blocks pg). clear. intros bls. revert st.
  induction bls as [|bl bls IH]; intros st; simpl; [reflexivity|].
  rewrite <- IH. f_equal.
  unfold block_step, spans_of_block. rewrite <- fold_left_flat_map. reflexivity.
Qed.

(** One span: the tilted words grow by the words of the span when it is
    tilted, and not at all otherwise. *)
Lemma span_step_tilted (text : string) (tilted_words : list string) (sp : span) :
  (span_step (text, tilted_words) sp).2 = tilted_words ++ tilted_words_of sp.
Proof.
  unfold span_step, tilted_words_of, span_words, is_tilted.
  destruct (PyStr.truthy (PyStr.strip (default "" (sp_text sp)))) eqn:Ht; simpl.
  - destruct (PrimFloat.ltb _ _); simpl.
    + rewrite PyStrFacts.split_strip. reflexivity.
    + rewrite app_nil_r. reflexivity.
  - apply PyStrFacts.truthy_false in Ht.
    rewrite <- PyStrFacts.split_strip, Ht.
    destruct (PrimFloat.ltb _ _); simpl; rewrite app_nil_r; reflexivity.
Qed.

Lemma spans_fold_tilted (sps : list span) :
  forall st, (fold_left span_step sps st).2 = st.2 ++ flat_map tilted_words_of sps.
Proof.
  induction sps as [|sp sps IH]; intros [text tw]; cbn [fold_left flat_map].
  - rewrite app_nil_r. reflexivity.
  - rewrite IH, span_step_tilted. symmetry. apply app_assoc.
Qed.

(** The tilted words of a document. *)
Lemma extract_tilted (doc : document) :
  (extract_with_pymupdf doc).2 = flat_map tilted_words_of (spans_of doc).
Proof.
  unfold extract_with_pymupdf.
  destruct (fold_left page_step doc ("", [])) as [text tw] eqn:E. simpl.
  change tw with (text, tw).2. rewrite <- E, pages_fold, spans_fold_tilted.
  reflexivity.
Qed.

(** A word is among the tilted words exactly when a tilted span has it. *)
Lemma elem_of_tilted (doc : document) (w : string) :
  w ∈ (extract_with_pymupdf doc).2 <->
  exists sp, sp ∈ spans_of doc /\ is_tilted sp = true /\ w ∈ span_words sp.
Proof.
  rewrite extract_tilted, list_elem_of_In, in_flat_map. split.
  - intros (sp & Hin & Hw). exists sp. unfold tilted_words_of in Hw.
    destruct (is_tilted sp) eqn:Ht; [|destruct Hw].
    rewrite !list_elem_of_In. auto.
  - intros (sp & Hin & Ht & Hw). exists sp. unfold tilted_words_of.
    rewrite Ht, <- !list_elem_of_In. auto.
Qed.

End ExtractFacts.

(** ** The tilt highlighter and the sentence aligner *)

Module DisplayFacts.
Import App Spec.

Lemma highlight_fold (tilted_words words out : list string) :
  fold_left (highlight_step tilted_words) words out
  = out ++ map (shown tilted_words) words.
Proof.
  revert out. induction words as [|w words IH]; intros out; simpl.
  - rewrite app_nil_r. reflexivity.
  - rewrite IH. unfold highlight_step, shown.
    destruct (bool_decide _); rewrite <- app_assoc; reflexivity.
Qed.

Lemma highlight_map (text : string) (tilted_words : list string) :
  highlight_tilted text tilted_words
  = PyStr.join " " (map (shown tilted_words) (PyStr.split text)).
Proof. unfold highlight_tilted. rewrite highlight_fold. reflexivity. Qed.

(** A marked token is never the token itself. *)
Lemma mark_neq (w : string) : mark w <> w.
Proof.
  intros E. apply (f_equal String.length) in E. unfold mark in E.
  rewrite !PyStrFacts.length_append in E. simpl in E. lia.
Qed.

Lemma shown_mark (tilted_words : list string) (w : string) :
  shown tilted_words w = mark w <-> w ∈ tilted_words.
Proof.
  unfold shown. destruct (bool_decide (w ∈ tilted_words)) eqn:E.
  - apply bool_decide_eq_true in E. tauto.
  - apply bool_decide_eq_false in E. split; [|tauto].
    intros Hw. symmetry in Hw. destruct (mark_neq w Hw).
Qed.

Lemma pad_lookup (l : list string) (n i : nat) :
  (l ++ replicate (n - length l) "") !! i
  = if bool_decide (i < Nat.max (length l) n) then Some (default "" (l !! i)) else None.
Proof.
  destruct (decide (i < length l)) as [Hi|Hi].
  - rewrite lookup_app_l by done.
    rewrite bool_decide_eq_true_2 by lia.
    destruct (lookup_lt_is_Some_2 l i Hi) as [x ->]. reflexivity.
  - rewrite lookup_app_r by lia.
    rewrite (lookup_ge_None_2 l i) by lia. simpl.
    case_bool_decide as Hm.
    + apply lookup_replicate_2. lia.
    + apply lookup_replicate_None. lia.
Qed.

Lemma align_lookup (sa sb : list string) (i : nat) :
  align sa sb !! i
  = if bool_decide (i < Nat.max (length sa) (length sb))
    then Some (default "" (sa !! i), default "" (sb !! i)) else None.
Proof.
  unfold align. cbv zeta. rewrite lookup_zip_with, !pad_lookup.
  rewrite (Nat.max_comm (length sb)), Nat.max_assoc, Nat.max_id.
  rewrite <- Nat.max_assoc, Nat.max_id.
  case_bool_decide; reflexivity.
Qed.

Lemma align_length (sa sb : list string) :
  length (align sa sb) = Nat.max (length sa) (length sb).
Proof.
  unfold align. cbv zeta. rewrite length_zip_with, !length_app, !length_replicate. lia.
Qed.

End DisplayFacts.

(** ** [SequenceMatcher] on a sequence and itself *)

Module MatcherFacts.
Import Difflib MatcherSpec.

Section Chain.
Context {A : Type} `{Countable A}.

Lemma sorted_snoc (js : list nat) (n : nat) :
  StronglySorted lt js -> (forall j, j ∈ js -> j < n) ->
  StronglySorted lt (js ++ [n]).
Proof.
  intros Hs Hlt. apply StronglySorted_app; split_and!.
  - intros x1 x2 H1 H2. apply list_elem_of_singleton in H2. subst. auto.
  - exact Hs.
  - repeat constructor.
Qed.

(** [__chain_b], before anything is purged: every element of [b] is a key,
    with its positions in ascending order. *)
Lemma chain_spec (b : list A) :
  indexes b (b2j_all b) /\
  forall x, b2j_all b !! x = None -> forall j, b !! j <> Some x.
Proof.
  unfold b2j_all.
  induction b as [|y p [IH IHn]] using rev_ind.
  - split.
    + intros x js. simpl. rewrite lookup_empty. discriminate.
    + intros x _ j. rewrite lookup_nil. discriminate.
  - rewrite imap_app, fold_left_app. simpl. rewrite Nat.add_0_r.
    set (m := fold_left chain_step (imap pair p) ∅) in *.
    unfold chain_step. simpl. split.
    + intros x js. destruct (decide (x = y)) as [->|Hxy].
      * rewrite lookup_insert_eq. intros [= <-].
        assert (Hold : StronglySorted lt (default [] (m !! y)) /\
                       forall j, j ∈ default [] (m !! y) <-> p !! j = Some y).
        { destruct (m !! y) as [js0|] eqn:E; simpl.
          - exact (IH y js0 E).
          - split; [constructor|]. intros j. split.
            + intros Hj. inversion Hj.
            + intros Hj. destruct (IHn y E j Hj). }
        destruct Hold as [Hs Hm]. split.
        -- apply sorted_snoc; [exact Hs|].
           intros j Hj. apply Hm in Hj. eapply lookup_lt_Some, Hj.
        -- intros j. rewrite elem_of_app, list_elem_of_singleton, Hm, lookup_snoc_Some.
           split.
           ++ intros [Hj| ->]; [left|right]; auto.
              split; [eapply lookup_lt_Some, Hj|exact Hj].
           ++ intros [[_ Hj]|[-> _]]; auto.
      * rewrite lookup_insert_ne by congruence. intros E.
        destruct (IH x js E) as [Hs Hm]. split; [exact Hs|].
        intros j. rewrite Hm, lookup_snoc_Some. split.
        -- intros Hj. left. split; [eapply lookup_lt_Some, Hj|exact Hj].
        -- intros [[_ ?]|[_ ?]]; congruence.
    + intros x. destruct (decide (x = y)) as [->|Hxy].
      * rewrite lookup_insert_eq. discriminate.
      * rewrite lookup_insert_ne by congruence. intros E j.
        rewrite lookup_snoc_Some. intros [[_ Hj]|[_ ?]]; [|congruence].
        exact (IHn x E j Hj).
Qed.

End Chain.
(** Purging junk and popular elements only removes keys. *)
Lemma b2j_indexes {A : Type} `{Countable A} (isjunk : option (A -> bool))
  (b : list A) : indexes b (b2j isjunk b).
Proof.
  intros x js E. apply (proj1 (chain_spec b)).
  unfold b2j, b2j_nojunk in E.
  destruct (autojunk && (200 <=? length b)%nat).
  - apply map_lookup_filter_Some in E as [E _].
    apply map_lookup_filter_Some in E as [E _]. exact E.
  - apply map_lookup_filter_Some in E as [E _]. exact E.
Qed.

(** Without a junk function nothing is junk. *)
Lemma isbjunk_None {A : Type} `{Countable A} (b : list A) (x : A) :
  isbjunk None b x = false.
Proof.
  unfold isbjunk, bjunk. apply bool_decide_eq_false.
  rewrite elem_of_dom. intros [js E].
  apply map_lookup_filter_Some in E as [_ E]. discriminate.
Qed.

Section Same.
Context {A : Type} `{Countable A}.
Variable X : list A.
Let n := length X.

Lemma run_keyed (i : nat) : keyed X i = true -> run X i = S (prevrun X i).
Proof. intros Hk. destruct i; simpl; rewrite Hk; reflexivity. Qed.

Lemma run_unkeyed (i : nat) : keyed X i = false -> run X i = 0.
Proof. intros Hk. destruct i; simpl; rewrite Hk; reflexivity. Qed.

Lemma run_le (i : nat) : run X i <= i + 1.
Proof.
  induction i as [|i IH].
  - simpl. destruct (keyed X 0); lia.
  - destruct (keyed X (S i)) eqn:Hk.
    + rewrite (run_keyed _ Hk). simpl. lia.
    + rewrite (run_unkeyed _ Hk). lia.
Qed.

(** The table of a row: all values depend on the key only. *)
Lemma fold_insert_lookup (f : nat -> nat) (js : list nat) :
  forall (new : gmap nat nat) (j : nat),
    fold_left (fun m j => <[j := f j]> m) js new !! j
    = if bool_decide (j ∈ js) then Some (f j) else new !! j.
Proof.
  induction js as [|j0 js IH]; intros new j; simpl; [reflexivity|].
  rewrite IH. destruct (decide (j = j0)) as [->|Hne].
  - rewrite lookup_insert_eq, (bool_decide_eq_true_2 (j0 ∈ j0 :: js)) by left.
    destruct (bool_decide (j0 ∈ js)); reflexivity.
  - rewrite lookup_insert_ne by congruence.
    destruct (bool_decide (j ∈ js)) eqn:E.
    + apply bool_decide_eq_true in E.
      rewrite bool_decide_eq_true_2 by (right; exact E). reflexivity.
    + apply bool_decide_eq_false in E.
      rewrite bool_decide_eq_false_2; [reflexivity|].
      intros Hj. apply elem_of_cons in Hj as [?|?]; tauto.
Qed.


Lemma kval_le_run (i : nat) (j2len : gmap nat nat) (j : nat) :
  table_ok X i j2len -> keyed X j = true -> kval j2len j <= run X j.
Proof.
  intros Ht Hk. rewrite (run_keyed _ Hk). unfold kval.
  destruct j as [|j']; simpl; [lia|].
  pose proof (table_run _ _ _ Ht j'). lia.
Qed.

Lemma kval_le_row (i : nat) (j2len : gmap nat nat) (j : nat) :
  table_ok X i j2len -> keyed X i = true -> kval j2len j <= run X i.
Proof.
  intros Ht Hk. rewrite (run_keyed _ Hk). unfold kval.
  destruct j as [|j']; simpl; [lia|].
  pose proof (table_prev _ _ _ Ht j'). lia.
Qed.

Lemma kval_diag (i : nat) (j2len : gmap nat nat) :
  table_ok X i j2len -> keyed X i = true -> kval j2len i = run X i.
Proof.
  intros Ht Hk. rewrite (run_keyed _ Hk). unfold kval.
  destruct i as [|i']; simpl; [reflexivity|].
  rewrite (table_diag _ _ _ Ht). lia.
Qed.

(** One row of the search: the best match stays on the diagonal, and after
    the row it is at least as long as the run that ends at [i]. *)
Lemma scan_row_diag (i : nat) (j2len : gmap nat nat) :
  table_ok X i j2len -> keyed X i = true ->
  forall (js : list nat) (new : gmap nat nat) (d s : nat),
    StronglySorted lt js ->
    (forall j, j ∈ js -> j < n /\ keyed X j = true) ->
    (forall i', i' < i -> run X i' <= s) ->
    d + s <= i + 1 ->
    i ∈ js \/ run X i <= s ->
    exists d' s',
      scan_row i 0 n j2len js new (d, d, s)
      = (fold_left (fun m j => <[j := kval j2len j]> m) js new, (d', d', s'))
      /\ d' + s' <= i + 1 /\ s <= s' /\ run X i <= s'.
Proof.
  intros Ht Hk js. induction js as [|j js IH]; intros new d s Hs Hjs Hlt Hd Hi.
  - exists d, s. simpl. split_and!; try done.
    destruct Hi as [Hi|Hi]; [inversion Hi|exact Hi].
  - apply StronglySorted_inv in Hs as [Hs Hall].
    destruct (Hjs j ltac:(left)) as [Hjn Hjk].
    assert (Hjs' : forall j', j' ∈ js -> j' < n /\ keyed X j' = true).
    { intros j' Hj'. apply Hjs. right. exact Hj'. }
    cbn [scan_row fold_left].
    replace (j <? 0)%nat with false by (symmetry; apply Nat.ltb_ge; lia).
    replace (n <=? j)%nat with false by (symmetry; apply Nat.leb_gt; lia).
    fold (kval j2len j). cbn [snd].
    pose proof (kval_le_run i j2len j Ht Hjk) as Hkj.
    pose proof (kval_le_row i j2len j Ht Hk) as Hki.
    destruct (lt_eq_lt_dec j i) as [[Hlt'| ->]|Hgt].
    + (* left of the diagonal *)
      pose proof (Hlt j Hlt').
      replace (s <? kval j2len j)%nat with false by (symmetry; apply Nat.ltb_ge; lia).
      apply IH; try done.
      destruct Hi as [Hi|Hi]; [|right; exact Hi].
      apply elem_of_cons in Hi as [->|Hi]; [lia|left; exact Hi].
    + (* on the diagonal *)
      rewrite (kval_diag i j2len Ht Hk).
      pose proof (run_le i).
      destruct (s <? run X i)%nat eqn:E.
      * apply Nat.ltb_lt in E.
        destruct (IH (<[i := run X i]> new) (i + 1 - run X i) (run X i))
          as (d' & s' & -> & ? & ? & ?); try done.
        -- intros i' Hi'. pose proof (Hlt i' Hi'). lia.
        -- lia.
        -- right. lia.
        -- exists d', s'. split_and!; try done; try lia.
      * apply Nat.ltb_ge in E.
        apply IH; try done. right. exact E.
    + (* right of the diagonal *)
      assert (Hrun : run X i <= s).
      { destruct Hi as [Hi|Hi]; [|exact Hi].
        apply elem_of_cons in Hi as [->|Hi]; [lia|].
        rewrite Forall_forall in Hall. pose proof (Hall i Hi). lia. }
      replace (s <? kval j2len j)%nat with false by (symmetry; apply Nat.ltb_ge; lia).
      apply IH; try done. right. exact Hrun.
Qed.

Lemma getitem_Some {B : Type} (l : list B) (i : nat) (x : B) :
  l !! i = Some x -> getitem l i = Ok x.
Proof. unfold getitem. intros ->. reflexivity. Qed.

Lemma keyed_Some (i : nat) (x : A) (js : list nat) :
  X !! i = Some x -> b2j None X !! x = Some js -> keyed X i = true.
Proof.
  intros Hx Hjs. unfold keyed. rewrite Hx, Hjs.
  apply bool_decide_eq_true. eauto.
Qed.

Lemma keyed_None (i : nat) (x : A) :
  X !! i = Some x -> b2j None X !! x = None -> keyed X i = false.
Proof.
  intros Hx Hjs. unfold keyed. rewrite Hx, Hjs.
  apply bool_decide_eq_false. intros [? ?]. discriminate.
Qed.

Lemma table_first : table_ok X 0 ∅.
Proof. split; try done; intros j; rewrite lookup_empty; simpl; lia. Qed.

Lemma table_unkeyed (i : nat) : keyed X i = false -> table_ok X (S i) ∅.
Proof.
  intros Hk. split.
  - intros j. rewrite lookup_empty. simpl. lia.
  - intros j. rewrite lookup_empty. simpl. lia.
  - rewrite lookup_empty, (run_unkeyed _ Hk). reflexivity.
Qed.

Lemma table_next (i : nat) (j2len : gmap nat nat) (x : A) (js : list nat) :
  table_ok X i j2len -> X !! i = Some x -> b2j None X !! x = Some js ->
  table_ok X (S i) (fold_left (fun m j => <[j := kval j2len j]> m) js ∅).
Proof.
  intros Ht Hx Hjs.
  pose proof (keyed_Some i x js Hx Hjs) as Hk.
  destruct (b2j_indexes None X x js Hjs) as [_ Hm].
  split.
  - intros j. rewrite fold_insert_lookup. case_bool_decide; simpl.
    + apply (kval_le_row i); assumption.
    + rewrite lookup_empty. simpl. lia.
  - intros j. rewrite fold_insert_lookup. case_bool_decide as Hj; simpl.
    + apply (kval_le_run i); [assumption|].
      apply Hm in Hj. exact (keyed_Some j x js Hj Hjs).
    + rewrite lookup_empty. simpl. lia.
  - rewrite fold_insert_lookup, bool_decide_eq_true_2 by (apply Hm; exact Hx).
    simpl. apply kval_diag; assumption.
Qed.

(** The search over all rows ends with a match on the diagonal. *)
Lemma scan_rows_diag (m : nat) :
  forall (i : nat) (j2len : gmap nat nat) (d s : nat),
    i + m = n -> table_ok X i j2len ->
    (forall i', i' < i -> run X i' <= s) -> d + s <= i ->
    exists d' s',
      scan_rows None X X 0 n (seq i m) j2len (d, d, s) = Ok (d', d', s')
      /\ d' + s' <= n.
Proof.
  induction m as [|m IH]; intros i j2len d s Hn Ht Hlt Hd.
  - exists d, s. split; [reflexivity|lia].
  - destruct (lookup_lt_is_Some_2 X i ltac:(fold n; lia)) as [x Hx].
    cbn [seq scan_rows]. rewrite (getitem_Some _ _ _ Hx). cbn [mbind result_bind].
    destruct (b2j None X !! x) as [js|] eqn:Hjs; cbn [default from_option id].
    + pose proof (keyed_Some i x js Hx Hjs) as Hk.
      destruct (b2j_indexes None X x js Hjs) as [Hsorted Hm].
      destruct (scan_row_diag i j2len Ht Hk js ∅ d s) as (d' & s' & -> & ? & ? & ?).
      * exact Hsorted.
      * intros j Hj. apply Hm in Hj. split.
        -- eapply lookup_lt_Some, Hj.
        -- exact (keyed_Some j x js Hj Hjs).
      * exact Hlt.
      * lia.
      * left. apply Hm, Hx.
      * apply IH.
        -- lia.
        -- exact (table_next i j2len x js Ht Hx Hjs).
        -- intros i' Hi'. destruct (decide (i' = i)) as [->|?]; [assumption|].
           pose proof (Hlt i' ltac:(lia)). lia.
        -- lia.
    + pose proof (keyed_None i x Hx Hjs) as Hk.
      cbn [scan_row]. apply IH.
      * lia.
      * exact (table_unkeyed i Hk).
      * intros i' Hi'. destruct (decide (i' = i)) as [->|?].
        -- rewrite (run_unkeyed _ Hk). lia.
        -- apply Hlt. lia.
      * lia.
Qed.

(** Growing a diagonal match to the left reaches the start. *)
Lemma extend_left_same (d : nat) :
  forall s, d <= n -> extend_left None X X false 0 0 d d s = Ok (0, 0, s + d).
Proof.
  induction d as [|d IH]; intros s Hd.
  - simpl. rewrite Nat.add_0_r. reflexivity.
  - destruct (lookup_lt_is_Some_2 X d ltac:(fold n; lia)) as [x Hx].
    cbn [extend_left]. replace (S d - 1) with d by lia.
    replace ((0 <? S d)%nat && (0 <? S d)%nat) with true
      by (symmetry; rewrite andb_true_iff, Nat.ltb_lt; lia).
    rewrite (getitem_Some _ _ _ Hx). cbn [mbind result_bind].
    rewrite isbjunk_None. cbn [Bool.eqb].
    rewrite bool_decide_eq_true_2 by reflexivity.
    rewrite IH by lia. replace (s + 1 + d) with (s + S d) by lia. reflexivity.
Qed.

(** Growing a match that starts at the start reaches the end. *)
Lemma extend_right_same (m : nat) :
  forall s, s + m = n -> extend_right None X X false n n m 0 0 s = Ok (0, 0, n).
Proof.
  induction m as [|m IH]; intros s Hs.
  - simpl. replace s with n by lia. reflexivity.
  - destruct (lookup_lt_is_Some_2 X s ltac:(fold n; lia)) as [x Hx].
    cbn [extend_right]. rewrite Nat.add_0_l.
    replace ((s <? n)%nat && (s <? n)%nat) with true
      by (symmetry; rewrite andb_true_iff, Nat.ltb_lt; lia).
    rewrite (getitem_Some _ _ _ Hx). cbn [mbind result_bind].
    rewrite isbjunk_None. cbn [Bool.eqb].
    rewrite bool_decide_eq_true_2 by reflexivity.
    apply IH. lia.
Qed.

(** The longest match of a sequence with itself is the whole sequence. *)
Lemma find_longest_match_same :
  find_longest_match None X X 0 n 0 n = Ok (0, 0, n).
Proof.
  unfold find_longest_match. rewrite Nat.sub_0_r.
  destruct (scan_rows_diag n 0 ∅ 0 0) as (d & s & -> & Hds);
    [lia|exact table_first|intros; lia|lia|].
  cbn [mbind result_bind].
  rewrite extend_left_same by lia. cbn [mbind result_bind].
  rewrite extend_right_same by lia. cbn [mbind result_bind].
  cbn [extend_left mbind result_bind].
  rewrite Nat.add_0_l, Nat.sub_diag. reflexivity.
Qed.

Lemma blocks_loop_nil (fuel : nat) (matching_blocks : list Match) :
  blocks_loop None X X fuel [] matching_blocks = Ok matching_blocks.
Proof. destruct fuel; reflexivity. Qed.

Lemma get_matching_blocks_same :
  get_matching_blocks None X X
  = Ok (if (n =? 0)%nat then [(0, 0, 0)] else [(0, 0, n); (n, n, 0)]).
Proof.
  unfold get_matching_blocks, blocks_fuel. fold n.
  replace (2 * n + 1) with (S (2 * n)) by lia.
  cbn [blocks_loop]. rewrite find_longest_match_same. cbn [mbind result_bind].
  destruct (n =? 0)%nat eqn:E.
  - rewrite blocks_loop_nil. apply Nat.eqb_eq in E. rewrite E. reflexivity.
  - rewrite Nat.ltb_irrefl, Nat.add_0_l, Nat.ltb_irrefl. cbn [andb].
    rewrite blocks_loop_nil. cbn. rewrite E. reflexivity.
Qed.

Lemma get_opcodes_same :
  get_opcodes None X X
  = Ok (if (n =? 0)%nat then [] else [(equal, 0, n, 0, n)]).
Proof.
  unfold get_opcodes. rewrite get_matching_blocks_same. cbn [mbind result_bind].
  destruct (n =? 0)%nat eqn:E; [reflexivity|].
  cbn -[Nat.ltb Nat.eqb]. rewrite E, Nat.ltb_irrefl. reflexivity.
Qed.

End Same.
End MatcherFacts.

(** ** [SequenceMatcher] always answers, within the sequences *)

Module MatcherTotal.
Import Difflib MatcherSpec MatcherFacts.



Section Bounds.
Context {A : Type} `{Countable A}.
Variable isjunk : option (A -> bool).
Variables a b : list A.

Lemma kval_in (alo blo i j : nat) (j2len : gmap nat nat) :
  table_in alo blo i j2len -> alo <= i -> blo <= j ->
  kval j2len j + alo <= i + 1 /\ kval j2len j + blo <= j + 1.
Proof.
  intros Ht Hi Hj. unfold kval.
  destruct j as [|j']; [simpl; lia|].
  destruct (j2len !! j') as [v|] eqn:E; simpl; [|lia].
  destruct (Ht j' v E). lia.
Qed.

Lemma scan_row_in (alo ahi blo bhi i : nat) (j2len : gmap nat nat) :
  table_in alo blo i j2len -> alo <= i -> i < ahi ->
  forall (js : list nat) (new : gmap nat nat) (best : Match),
    table_in alo blo (i + 1) new -> in_region alo ahi blo bhi best ->
    table_in alo blo (i + 1) (scan_row i blo bhi j2len js new best).1
    /\ in_region alo ahi blo bhi (scan_row i blo bhi j2len js new best).2.
Proof.
  intros Ht Hi Hia js. induction js as [|j js IH]; intros new best Hn Hb.
  - split; assumption.
  - cbn [scan_row]. destruct (j <? blo)%nat eqn:Elo; [apply IH; assumption|].
    destruct (bhi <=? j)%nat eqn:Ehi; [split; assumption|].
    apply Nat.ltb_ge in Elo. apply Nat.leb_gt in Ehi.
    fold (kval j2len j).
    destruct (kval_in alo blo i j j2len Ht Hi Elo) as [Hka Hkb].
    apply IH.
    + intros j0 v. destruct (decide (j0 = j)) as [->|Hne].
      * rewrite lookup_insert_eq. intros [= <-]. lia.
      * rewrite lookup_insert_ne by congruence. apply Hn.
    + destruct (best.2 <? kval j2len j)%nat; [|exact Hb].
      unfold in_region. simpl. lia.
Qed.

Lemma scan_rows_in (alo ahi blo bhi : nat) (m : nat) :
  ahi <= length a ->
  forall (i : nat) (j2len : gmap nat nat) (best : Match),
    i + m = ahi -> alo <= i -> table_in alo blo i j2len ->
    in_region alo ahi blo bhi best ->
    exists best', scan_rows isjunk a b blo bhi (seq i m) j2len best = Ok best'
                  /\ in_region alo ahi blo bhi best'.
Proof.
  intros Hla. induction m as [|m IH]; intros i j2len best Hm Hi Ht Hb.
  - exists best. split; [reflexivity|assumption].
  - destruct (lookup_lt_is_Some_2 a i ltac:(lia)) as [x Hx].
    cbn [seq scan_rows]. rewrite (getitem_Some _ _ _ Hx). cbn [mbind result_bind].
    pose proof (scan_row_in alo ahi blo bhi i j2len Ht Hi ltac:(lia)
                  (default [] (b2j isjunk b !! x)) ∅ best) as Hrow.
    destruct (scan_row i blo bhi j2len (default [] (b2j isjunk b !! x)) ∅ best)
      as [new best1].
    destruct Hrow as [Hn1 Hb1]; [intros j v; rewrite lookup_empty; discriminate|assumption|].
    apply IH; [lia|lia| |assumption].
    simpl in Hn1. replace (S i) with (i + 1) by lia. exact Hn1.
Qed.

Lemma extend_left_in (want_junk : bool) (alo ahi blo bhi : nat) :
  ahi <= length a -> bhi <= length b ->
  forall besti bestj bestsize,
    in_region alo ahi blo bhi (besti, bestj, bestsize) ->
    exists m, extend_left isjunk a b want_junk alo blo besti bestj bestsize = Ok m
              /\ in_region alo ahi blo bhi m.
Proof.
  intros Hla Hlb besti.
  induction besti as [|i IH]; intros bestj bestsize Hb.
  - eexists. split; [reflexivity|assumption].
  - cbn [extend_left].
    destruct ((alo <? S i)%nat && (blo <? bestj)%nat) eqn:E;
      [|eexists; split; [reflexivity|assumption]].
    apply andb_true_iff in E as [E1 E2].
    apply Nat.ltb_lt in E1, E2. unfold in_region in Hb. simpl in Hb.
    destruct (lookup_lt_is_Some_2 b (bestj - 1) ltac:(lia)) as [y Hy].
    destruct (lookup_lt_is_Some_2 a i ltac:(lia)) as [x Hx].
    rewrite (getitem_Some _ _ _ Hy). cbn [mbind result_bind].
    destruct (Bool.eqb _ _); [|eexists; split; [reflexivity|unfold in_region; simpl; lia]].
    rewrite (getitem_Some _ _ _ Hx). cbn [mbind result_bind].
    destruct (bool_decide (x = y)); [|eexists; split; [reflexivity|unfold in_region; simpl; lia]].
    apply IH. unfold in_region. simpl. lia.
Qed.

Lemma extend_right_in (want_junk : bool) (alo ahi blo bhi : nat) :
  ahi <= length a -> bhi <= length b ->
  forall n besti bestj bestsize,
    in_region alo ahi blo bhi (besti, bestj, bestsize) ->
    exists m, extend_right isjunk a b want_junk ahi bhi n besti bestj bestsize = Ok m
              /\ in_region alo ahi blo bhi m.
Proof.
  intros Hla Hlb n.
  induction n as [|n IH]; intros besti bestj bestsize Hb.
  - eexists. split; [reflexivity|assumption].
  - cbn [extend_right].
    destruct ((besti + bestsize <? ahi)%nat && (bestj + bestsize <? bhi)%nat) eqn:E;
      [|eexists; split; [reflexivity|assumption]].
    apply andb_true_iff in E as [E1 E2].
    apply Nat.ltb_lt in E1, E2. unfold in_region in Hb. simpl in Hb.
    destruct (lookup_lt_is_Some_2 b (bestj + bestsize) ltac:(lia)) as [y Hy].
    destruct (lookup_lt_is_Some_2 a (besti + bestsize) ltac:(lia)) as [x Hx].
    rewrite (getitem_Some _ _ _ Hy). cbn [mbind result_bind].
    destruct (Bool.eqb _ _); [|eexists; split; [reflexivity|unfold in_region; simpl; lia]].
    rewrite (getitem_Some _ _ _ Hx). cbn [mbind result_bind].
    destruct (bool_decide (x = y)); [|eexists; split; [reflexivity|unfold in_region; simpl; lia]].
    apply IH. unfold in_region. simpl. lia.
Qed.

(** [find_longest_match] answers with a match inside the region. *)
Lemma find_longest_match_in (alo ahi blo bhi : nat) :
  alo <= ahi -> ahi <= length a -> blo <= bhi -> bhi <= length b ->
  exists m, find_longest_match isjunk a b alo ahi blo bhi = Ok m
            /\ in_region alo ahi blo bhi m.
Proof.
  intros Ha Hla Hb Hlb. unfold find_longest_match.
  destruct (scan_rows_in alo ahi blo bhi (ahi - alo) Hla alo ∅ (alo, blo, 0))
    as ([[i1 j1] k1] & -> & H1).
  { lia. } { lia. } { intros j v. rewrite lookup_empty. discriminate. }
  { unfold in_region. simpl. lia. }
  cbn [mbind result_bind].
  destruct (extend_left_in false alo ahi blo bhi Hla Hlb i1 j1 k1 H1)
    as ([[i2 j2] k2] & -> & H2). cbn [mbind result_bind].
  destruct (extend_right_in false alo ahi blo bhi Hla Hlb (ahi - (i2 + k2)) i2 j2 k2 H2)
    as ([[i3 j3] k3] & -> & H3). cbn [mbind result_bind].
  destruct (extend_left_in true alo ahi blo bhi Hla Hlb i3 j3 k3 H3)
    as ([[i4 j4] k4] & -> & H4). cbn [mbind result_bind].
  apply extend_right_in; assumption.
Qed.


Lemma blocks_loop_total (fuel : nat) :
  forall (queue : list (nat * nat * nat * nat)) (matching_blocks : list Match),
    Forall (region_in a b) queue -> weight queue <= fuel ->
    Forall (block_in a b) matching_blocks ->
    exists blocks, blocks_loop isjunk a b fuel queue matching_blocks = Ok blocks
                   /\ Forall (block_in a b) blocks.
Proof.
  induction fuel as [|fuel IH]; intros queue mb Hq Hw Hmb.
  - destruct queue as [|[[[alo ahi] blo] bhi] queue]; [|simpl in Hw; lia].
    exists mb. split; [reflexivity|assumption].
  - destruct queue as [|[[[alo ahi] blo] bhi] queue].
    { exists mb. split; [reflexivity|assumption]. }
    apply Forall_cons in Hq as [(Ha & Hla & Hb & Hlb) Hq].
    cbn [blocks_loop].
    destruct (find_longest_match_in alo ahi blo bhi Ha Hla Hb Hlb)
      as ([[i j] k] & -> & Hm).
    cbn [mbind result_bind]. unfold in_region in Hm. simpl in Hm, Hw.
    destruct (k =? 0)%nat eqn:Ek.
    + apply IH; [assumption|lia|assumption].
    + apply Nat.eqb_neq in Ek. apply IH.
      * destruct ((i + k <? ahi)%nat && (j + k <? bhi)%nat) eqn:E2;
          destruct ((alo <? i)%nat && (blo <? j)%nat) eqn:E1;
          repeat apply Forall_cons_2; try assumption;
          unfold region_in; lia.
      * destruct ((i + k <? ahi)%nat && (j + k <? bhi)%nat) eqn:E2;
          destruct ((alo <? i)%nat && (blo <? j)%nat) eqn:E1;
          simpl; lia.
      * apply Forall_app. split; [assumption|].
        apply Forall_cons_2; [unfold block_in; simpl; lia|constructor].
Qed.

Lemma insert_sorted_in (x : Match) (l : list Match) :
  block_in a b x -> Forall (block_in a b) l -> Forall (block_in a b) (insert_sorted x l).
Proof.
  intros Hx Hl. induction Hl as [|y l Hy Hl IH]; cbn [insert_sorted].
  - apply Forall_cons_2; [assumption|constructor].
  - destruct (match_leb x y); repeat (apply Forall_cons_2); assumption.
Qed.

Lemma sort_in (l : list Match) : Forall (block_in a b) l -> Forall (block_in a b) (sort l).
Proof.
  intros Hl. induction Hl as [|x l Hx Hl IH]; simpl; [constructor|].
  apply insert_sorted_in; assumption.
Qed.

Lemma collapse_fold_in (l : list Match) :
  forall st, block_in a b st.1 -> Forall (block_in a b) st.2 -> Forall (block_in a b) l ->
    block_in a b (fold_left collapse_step l st).1
    /\ Forall (block_in a b) (fold_left collapse_step l st).2.
Proof.
  induction l as [|[[i2 j2] k2] l IH]; intros [[[i1 j1] k1] acc] H1 Hacc Hl.
  - split; assumption.
  - apply Forall_cons in Hl as [H2 Hl]. cbn [fold_left collapse_step].
    unfold block_in in H1, H2. simpl in H1, H2, Hacc.
    destruct ((i1 + k1 =? i2)%nat && (j1 + k1 =? j2)%nat) eqn:E.
    + apply andb_true_iff in E as [E1 E2]. apply Nat.eqb_eq in E1, E2.
      apply IH; [unfold block_in; simpl; lia|assumption|assumption].
    + apply IH; [unfold block_in; simpl; lia| |assumption].
      simpl. destruct (k1 =? 0)%nat; [assumption|].
      apply Forall_app. split; [assumption|].
      apply Forall_cons_2; [unfold block_in; simpl; lia|constructor].
Qed.

Lemma collapse_in (l : list Match) :
  Forall (block_in a b) l -> Forall (block_in a b) (collapse (length a) (length b) l).
Proof.
  intros Hl. unfold collapse.
  pose proof (collapse_fold_in l ((0, 0, 0), []) ltac:(unfold block_in; simpl; lia)
                ltac:(constructor) Hl) as [H1 H2].
  destruct (fold_left collapse_step l ((0, 0, 0), [])) as [[[i1 j1] k1] acc].
  simpl in H1, H2. apply Forall_app. split.
  - destruct (k1 =? 0)%nat; [assumption|].
    apply Forall_app. split; [assumption|].
    apply Forall_cons_2; [exact H1|constructor].
  - apply Forall_cons_2; [unfold block_in; simpl; lia|constructor].
Qed.

(** [get_matching_blocks] answers, with blocks of the two sequences. *)
Lemma get_matching_blocks_total :
  exists blocks, get_matching_blocks isjunk a b = Ok blocks
                 /\ Forall (block_in a b) blocks.
Proof.
  unfold get_matching_blocks.
  destruct (blocks_loop_total (blocks_fuel a) [(0, length a, 0, length b)] [])
    as (blocks & -> & Hb).
  - apply Forall_cons_2; [unfold region_in; lia|constructor].
  - unfold blocks_fuel. simpl. lia.
  - constructor.
  - cbn [mbind result_bind]. eexists. split; [reflexivity|].
    apply collapse_in, sort_in, Hb.
Qed.


Lemma opcodes_fold_in (blocks : list Match) :
  forall st, Forall (opcode_in a b) st.2 -> Forall (block_in a b) blocks ->
    Forall (opcode_in a b) (fold_left opcode_step blocks st).2.
Proof.
  induction blocks as [|[[ai bj] size] blocks IH]; intros [[i j] answer] Hacc Hbl.
  - assumption.
  - apply Forall_cons in Hbl as [Hb Hbl]. cbn [fold_left]. apply IH; [|assumption].
    unfold block_in in Hb. simpl in Hb, Hacc. unfold opcode_step.
    assert (Hpush : forall (ans : list opcode) (op : opcode),
               Forall (opcode_in a b) ans -> opcode_in a b op -> Forall (opcode_in a b) (ans ++ [op])).
    { intros ans op Hans Hop. apply Forall_app. split; [assumption|].
      apply Forall_cons_2; [assumption|constructor]. }
    assert (Hfirst : Forall (opcode_in a b)
       (if ((i <? ai)%nat && (j <? bj)%nat) then answer ++ [(replace, i, ai, j, bj)]
        else if (i <? ai)%nat then answer ++ [(delete, i, ai, j, bj)]
        else if (j <? bj)%nat then answer ++ [(insert, i, ai, j, bj)]
        else answer)).
    { destruct ((i <? ai)%nat && (j <? bj)%nat) eqn:E.
      - apply andb_true_iff in E as [E1 E2]. apply Nat.ltb_lt in E1, E2.
        apply Hpush; [assumption|]. unfold opcode_in. split_and!; first [lia|auto].
      - destruct (i <? ai)%nat; [|destruct (j <? bj)%nat]; try assumption;
          (apply Hpush; [assumption|]); unfold opcode_in; split_and!;
          first [lia|discriminate]. }
    simpl. destruct (size =? 0)%nat; [assumption|].
    apply Hpush; [assumption|]. unfold opcode_in. split_and!; first [lia|discriminate].
Qed.

(** [get_opcodes] answers, with opcodes of the two sequences. *)
Lemma get_opcodes_total :
  exists ops, get_opcodes isjunk a b = Ok ops /\ Forall (opcode_in a b) ops.
Proof.
  unfold get_opcodes. destruct get_matching_blocks_total as (blocks & -> & Hb).
  cbn [mbind result_bind]. eexists. split; [reflexivity|].
  apply opcodes_fold_in; [constructor|assumption].
Qed.

(** [ratio] answers. *)
Lemma ratio_total : exists r, ratio isjunk a b = Ok r.
Proof.
  unfold ratio. destruct get_matching_blocks_total as (blocks & -> & _).
  cbn [mbind result_bind]. eauto.
Qed.

End Bounds.
End MatcherTotal.

(** ** [ndiff] on a sequence and itself *)

Module DifferFacts.
Import Difflib MatcherFacts.

Lemma dump_from (tg : string) (rest : list string) :
  forall done : list string,
    mapM (fun i => xi ← getitem (done ++ rest) i; Ok (tg +:+ " " +:+ xi))
         (seq (length done) (length rest))
    = Ok (map (fun xi => tg +:+ " " +:+ xi) rest).
Proof.
  induction rest as [|x rest IH]; intros done; [reflexivity|].
  cbn [length seq mapM map].
  rewrite (getitem_Some (done ++ x :: rest) (length done) x)
    by (rewrite lookup_app_r, Nat.sub_diag by lia; reflexivity).
  cbn [mbind result_bind].
  specialize (IH (done ++ [x])).
  rewrite <- app_assoc, length_app, Nat.add_1_r in IH. cbn [app] in IH.
  rewrite IH. reflexivity.
Qed.

(** [_dump] over a whole list. *)
Lemma dump_all (tg : string) (x : list string) :
  dump tg x 0 (length x) = Ok (map (fun xi => tg +:+ " " +:+ xi) x).
Proof. unfold dump. rewrite Nat.sub_0_r. exact (dump_from tg x []). Qed.

(** A sequence compared with itself: one line per token, all unchanged. *)
Lemma ndiff_same (depth : nat) (X : list string) :
  ndiff depth X X = Ok (map (fun t => "  " +:+ t) X).
Proof.
  unfold ndiff, compare. rewrite get_opcodes_same. cbn [mbind result_bind].
  destruct (length X =? 0)%nat eqn:E.
  - apply Nat.eqb_eq in E. destruct X; [reflexivity|discriminate].
  - cbn [mapM compare_step mbind result_bind mret result_ret].
    rewrite dump_all. cbn [mbind result_bind]. unfold mret, result_ret.
    cbn [mbind result_bind concat]. rewrite app_nil_r. reflexivity.
Qed.

End DifferFacts.

(** ** [ndiff] answers, or stops with [RecursionError] *)

Module DifferTotal.
Import Difflib MatcherSpec MatcherFacts MatcherTotal Spec.

Lemma mapM_total {S T : Type} (f : S -> result T) (P : T -> Prop) (l : list S) :
  Forall (fun x => exists y, f x = Ok y /\ P y) l ->
  exists ys, mapM f l = Ok ys /\ Forall P ys.
Proof.
  induction 1 as [|x l (y & Hy & Hp) _ (ys & Hys & Hps)].
  - exists []. split; [reflexivity|constructor].
  - exists (y :: ys). cbn [mapM]. rewrite Hy. cbn [mbind result_bind].
    rewrite Hys. split; [reflexivity|]. constructor; assumption.
Qed.

Lemma answers_Ok {T : Type} (P : T -> Prop) (y : T) :
  P y -> answers_or_recursion P (Ok y).
Proof. intros Hy. left. eauto. Qed.

Lemma answers_total {T : Type} (P : T -> Prop) (r : result T) :
  (exists y, r = Ok y /\ P y) -> answers_or_recursion P r.
Proof. intros Hr. left. exact Hr. Qed.

Lemma answers_bind {S T : Type} (P : S -> Prop) (Q : T -> Prop)
  (r : result S) (k : S -> result T) :
  answers_or_recursion P r ->
  (forall x, P x -> answers_or_recursion Q (k x)) ->
  answers_or_recursion Q (r ≫= k).
Proof.
  intros [(x & -> & Hx)| ->] Hk; [exact (Hk x Hx)|right; reflexivity].
Qed.

Lemma mapM_answers {S T : Type} (f : S -> result T) (P : T -> Prop) (l : list S) :
  Forall (fun x => answers_or_recursion P (f x)) l ->
  answers_or_recursion (Forall P) (mapM f l).
Proof.
  induction 1 as [|x l Hx _ IH]; [apply answers_Ok; constructor|].
  cbn [mapM]. apply (answers_bind P); [exact Hx|]. intros y Hy.
  apply (answers_bind (Forall P)); [exact IH|]. intros ys Hys.
  apply answers_Ok. constructor; assumption.
Qed.

Section Total.
Variables a b : list string.


Lemma dump_total (tg : string) (x : list string) (lo hi : nat) :
  hi <= length x ->
  exists l, dump tg x lo hi = Ok l
            /\ Forall (fun d => exists t, t ∈ x /\ d = tg +:+ " " +:+ t) l.
Proof.
  intros Hhi. unfold dump. apply mapM_total.
  apply Forall_forall. intros i Hi. apply list_elem_of_In, in_seq in Hi.
  destruct (lookup_lt_is_Some_2 x i ltac:(lia)) as [t Ht].
  rewrite (getitem_Some _ _ _ Ht). cbn [mbind result_bind].
  eexists. split; [reflexivity|]. exists t. split; [|reflexivity].
  eapply list_elem_of_lookup_2, Ht.
Qed.

Lemma dump_a (tg : string) (lo hi : nat) :
  tg = " " \/ tg = "-" -> hi <= length a ->
  exists l, dump tg a lo hi = Ok l /\ Forall (ndiff_line (a ++ b)) l.
Proof.
  intros Htg Hhi. destruct (dump_total tg a lo hi Hhi) as (l & -> & Hl).
  exists l. split; [reflexivity|]. eapply Forall_impl; [exact Hl|].
  intros d (t & Ht & ->). left. exists t. split; [apply elem_of_app; auto|].
  destruct Htg as [-> | ->]; auto.
Qed.

Lemma dump_b (lo hi : nat) :
  hi <= length b -> exists l, dump "+" b lo hi = Ok l /\ Forall (ndiff_line (a ++ b)) l.
Proof.
  intros Hhi. destruct (dump_total "+" b lo hi Hhi) as (l & -> & Hl).
  exists l. split; [reflexivity|]. eapply Forall_impl; [exact Hl|].
  intros d (t & Ht & ->). left. exists t. split; [apply elem_of_app; auto|].
  auto.
Qed.

Lemma plain_replace_total (alo ahi blo bhi : nat) :
  alo < ahi -> ahi <= length a -> blo < bhi -> bhi <= length b ->
  exists l, plain_replace a b alo ahi blo bhi = Ok l /\ Forall (ndiff_line (a ++ b)) l.
Proof.
  intros Ha Hla Hb Hlb. unfold plain_replace.
  replace ((alo <? ahi)%nat && (blo <? bhi)%nat) with true
    by (symmetry; rewrite andb_true_iff, !Nat.ltb_lt; lia).
  destruct (dump_a "-" alo ahi ltac:(auto) Hla) as (la & Ea & Hal).
  destruct (dump_b blo bhi Hlb) as (lb & Eb & Hbl).
  destruct (bhi - blo <? ahi - alo)%nat; rewrite Ea, Eb; cbn [mbind result_bind];
    eexists; (split; [reflexivity|]); apply Forall_app; auto.
Qed.


Lemma search_step_total (alo ahi blo bhi i j : nat) (bj : string)
  (st : search_state) :
  ahi <= length a -> alo <= i -> i < ahi -> blo <= j -> j < bhi ->
  search_ok alo ahi blo bhi st ->
  exists st', search_step a j bj st i = Ok st' /\ search_ok alo ahi blo bhi st'.
Proof.
  intros Hla Hi1 Hi2 Hj1 Hj2 [Hb He]. unfold search_step.
  destruct (lookup_lt_is_Some_2 a i ltac:(lia)) as [ai Hai].
  rewrite (getitem_Some _ _ _ Hai). cbn [mbind result_bind].
  assert (Hij : pair_in alo ahi blo bhi (i, j)) by (unfold pair_in; simpl; lia).
  destruct (bool_decide (ai = bj)).
  - eexists. split; [reflexivity|].
    destruct (eq_ij st) eqn:E; split; simpl; try rewrite E; auto.
  - destruct (PrimFloat.ltb _ (real_quick_ratio _ _));
      [|eexists; split; [reflexivity|split; assumption]].
    destruct (PrimFloat.ltb _ (quick_ratio _ _));
      [|eexists; split; [reflexivity|split; assumption]].
    destruct (ratio_total (Some IS_CHARACTER_JUNK) (chars ai) (chars bj)) as [r ->].
    cbn [mbind result_bind].
    destruct (PrimFloat.ltb _ r);
      eexists; (split; [reflexivity|]); split; simpl; assumption.
Qed.

Lemma search_row_total (alo ahi blo bhi j : nat) (bj : string) (m : nat) :
  ahi <= length a -> blo <= j -> j < bhi ->
  forall (i : nat) (st : search_state),
    alo <= i -> i + m = ahi -> search_ok alo ahi blo bhi st ->
    exists st', search_row a j bj st (seq i m) = Ok st'
                /\ search_ok alo ahi blo bhi st'.
Proof.
  intros Hla Hj1 Hj2. induction m as [|m IH]; intros i st Hi Hm Hst.
  - exists st. split; [reflexivity|assumption].
  - cbn [seq search_row].
    destruct (search_step_total alo ahi blo bhi i j bj st) as (st1 & -> & H1);
      try lia; try assumption.
    cbn [mbind result_bind]. apply IH; [lia|lia|assumption].
Qed.

Lemma search_total (alo ahi blo bhi : nat) (m : nat) :
  alo <= ahi -> ahi <= length a -> bhi <= length b ->
  forall (j : nat) (st : search_state),
    blo <= j -> j + m = bhi -> search_ok alo ahi blo bhi st ->
    exists st', search a b alo ahi st (seq j m) = Ok st'
                /\ search_ok alo ahi blo bhi st'.
Proof.
  intros Ha Hla Hlb. induction m as [|m IH]; intros j st Hj Hm Hst.
  - exists st. split; [reflexivity|assumption].
  - cbn [seq search].
    destruct (lookup_lt_is_Some_2 b j ltac:(lia)) as [bj Hbj].
    rewrite (getitem_Some _ _ _ Hbj). cbn [mbind result_bind].
    destruct (search_row_total alo ahi blo bhi j bj (ahi - alo) Hla Hj ltac:(lia)
                alo st) as (st1 & -> & H1); [lia|lia|assumption|].
    cbn [mbind result_bind]. apply IH; [lia|lia|assumption].
Qed.

Lemma fancy_helper_total
  (fancy : nat -> nat -> nat -> nat -> result (list string))
  (alo ahi blo bhi : nat) :
  ahi <= length a -> bhi <= length b ->
  (alo < ahi -> blo < bhi ->
   exists l, fancy alo ahi blo bhi = Ok l /\ Forall (ndiff_line (a ++ b)) l) ->
  exists l, fancy_helper a b fancy alo ahi blo bhi = Ok l /\ Forall (ndiff_line (a ++ b)) l.
Proof.
  intros Hla Hlb Hf. unfold fancy_helper.
  destruct (alo <? ahi)%nat eqn:Ea; destruct (blo <? bhi)%nat eqn:Eb.
  - apply Nat.ltb_lt in Ea, Eb. auto.
  - apply dump_a; auto.
  - apply dump_b; auto.
  - exists []. split; [reflexivity|constructor].
Qed.

Lemma qformat_lines (aelt belt atags btags : string) :
  aelt ∈ a -> belt ∈ b -> Forall (ndiff_line (a ++ b)) (qformat aelt belt atags btags).
Proof.
  intros Ha Hb. unfold qformat. cbv zeta.
  assert (Hq : forall (t : bool) (h : string),
             Forall (ndiff_line (a ++ b)) (if t then ["? " +:+ h] else [])).
  { intros [] h; [|constructor].
    apply Forall_cons_2; [|constructor]. right. exists h. reflexivity. }
  repeat apply Forall_app_2; try apply Hq.
  - apply Forall_cons_2; [|constructor]. left. exists aelt.
    split; [apply elem_of_app; auto|auto].
  - apply Forall_cons_2; [|constructor]. left. exists belt.
    split; [apply elem_of_app; auto|auto].
Qed.

(** [_fancy_replace] answers when the interpreter allows as many nested
    calls as its range of [a] has lines: each nested call works on a
    strictly shorter range. *)
Lemma fancy_replace_total (depth : nat) :
  forall alo ahi blo bhi,
    alo < ahi -> ahi <= length a -> blo < bhi -> bhi <= length b ->
    ahi - alo <= depth ->
    exists l, fancy_replace a b depth alo ahi blo bhi = Ok l /\ Forall (ndiff_line (a ++ b)) l.
Proof.
  induction depth as [|depth IH]; intros alo ahi blo bhi Ha Hla Hb Hlb Hdepth; [lia|].
  cbn [fancy_replace].
  destruct (search_total alo ahi blo bhi (bhi - blo) ltac:(lia) Hla Hlb blo
              (SearchState 0.74 None None)) as (st & -> & Hbest & Heq);
    [lia|lia|split; reflexivity|].
  cbn [mbind result_bind].
  assert (Hsynch : forall best_i best_j identical,
    pair_in alo ahi blo bhi (best_i, best_j) ->
    exists l,
      (before ← fancy_helper a b (fancy_replace a b depth) alo best_i blo best_j;
       aelt ← getitem a best_i;
       belt ← getitem b best_j;
       middle ←
         (if identical : bool then Ok ["  " +:+ aelt]
          else
            ops ← get_opcodes (Some IS_CHARACTER_JUNK) (chars aelt) (chars belt);
            let '(atags, btags) := fold_left tags_step ops ("", "") in
            Ok (qformat aelt belt atags btags));
       after ← fancy_helper a b (fancy_replace a b depth)
                 (best_i + 1) ahi (best_j + 1) bhi;
       Ok (before ++ middle ++ after)) = Ok l /\ Forall (ndiff_line (a ++ b)) l).
  { intros best_i best_j identical (Hi1 & Hi2 & Hj1 & Hj2). simpl in Hi1, Hi2, Hj1, Hj2.
    destruct (fancy_helper_total (fancy_replace a b depth) alo best_i blo best_j)
      as (before & -> & Hbefore); [lia|lia|intros; apply IH; lia|].
    cbn [mbind result_bind].
    destruct (lookup_lt_is_Some_2 a best_i ltac:(lia)) as [aelt Hae].
    destruct (lookup_lt_is_Some_2 b best_j ltac:(lia)) as [belt Hbe].
    rewrite (getitem_Some _ _ _ Hae), (getitem_Some _ _ _ Hbe).
    cbn [mbind result_bind].
    assert (Hmid : exists middle,
      (if identical then Ok ["  " +:+ aelt]
       else
         ops ← get_opcodes (Some IS_CHARACTER_JUNK) (chars aelt) (chars belt);
         let '(atags, btags) := fold_left tags_step ops ("", "") in
         Ok (qformat aelt belt atags btags)) = Ok middle /\ Forall (ndiff_line (a ++ b)) middle).
    { destruct identical.
      - eexists. split; [reflexivity|].
        apply Forall_cons_2; [|constructor]. left. exists aelt. split; [|auto].
        apply elem_of_app. left. eapply list_elem_of_lookup_2, Hae.
      - destruct (get_opcodes_total (Some IS_CHARACTER_JUNK) (chars aelt) (chars belt))
          as (ops & -> & _).
        cbn [mbind result_bind].
        destruct (fold_left tags_step ops ("", "")) as [atags btags].
        eexists. split; [reflexivity|].
        apply qformat_lines; eapply list_elem_of_lookup_2; eassumption. }
    destruct Hmid as (middle & -> & Hmiddle). cbn [mbind result_bind].
    destruct (fancy_helper_total (fancy_replace a b depth)
                (best_i + 1) ahi (best_j + 1) bhi)
      as (after & -> & Hafter); [lia|lia|intros; apply IH; lia|].
    cbn [mbind result_bind]. eexists. split; [reflexivity|].
    repeat apply Forall_app_2; assumption. }
  destruct (PrimFloat.ltb (best_ratio st) 0.75) eqn:Ecut.
  - destruct (eq_ij st) as [[eqi eqj]|].
    + exact (Hsynch eqi eqj true Heq).
    + apply plain_replace_total; assumption.
  - destruct (best_ij st) as [[best_i best_j]|].
    + exact (Hsynch best_i best_j false Hbest).
    + rewrite Hbest in Ecut. discriminate.
Qed.

Lemma fancy_helper_answers
  (fancy : nat -> nat -> nat -> nat -> result (list string))
  (alo ahi blo bhi : nat) :
  ahi <= length a -> bhi <= length b ->
  (alo < ahi -> blo < bhi ->
   answers_or_recursion (Forall (ndiff_line (a ++ b))) (fancy alo ahi blo bhi)) ->
  answers_or_recursion (Forall (ndiff_line (a ++ b)))
    (fancy_helper a b fancy alo ahi blo bhi).
Proof.
  intros Hla Hlb Hf. unfold fancy_helper.
  destruct (alo <? ahi)%nat eqn:Ea; destruct (blo <? bhi)%nat eqn:Eb.
  - apply Nat.ltb_lt in Ea, Eb. auto.
  - apply answers_total, dump_a; auto.
  - apply answers_total, dump_b; auto.
  - apply answers_Ok. constructor.
Qed.

(** Whatever the depth, [_fancy_replace] answers or stops with
    [RecursionError]. *)
Lemma fancy_replace_answers (depth : nat) :
  forall alo ahi blo bhi,
    alo < ahi -> ahi <= length a -> blo < bhi -> bhi <= length b ->
    answers_or_recursion (Forall (ndiff_line (a ++ b)))
      (fancy_replace a b depth alo ahi blo bhi).
Proof.
  induction depth as [|depth IH]; intros alo ahi blo bhi Ha Hla Hb Hlb;
    [right; reflexivity|].
  cbn [fancy_replace].
  destruct (search_total alo ahi blo bhi (bhi - blo) ltac:(lia) Hla Hlb blo
              (SearchState 0.74 None None)) as (st & -> & Hbest & Heq);
    [lia|lia|split; reflexivity|].
  cbn [mbind result_bind].
  assert (Hsynch : forall best_i best_j identical,
    pair_in alo ahi blo bhi (best_i, best_j) ->
    answers_or_recursion (Forall (ndiff_line (a ++ b)))
      (before ← fancy_helper a b (fancy_replace a b depth) alo best_i blo best_j;
       aelt ← getitem a best_i;
       belt ← getitem b best_j;
       middle ←
         (if identical : bool then Ok ["  " +:+ aelt]
          else
            ops ← get_opcodes (Some IS_CHARACTER_JUNK) (chars aelt) (chars belt);
            let '(atags, btags) := fold_left tags_step ops ("", "") in
            Ok (qformat aelt belt atags btags));
       after ← fancy_helper a b (fancy_replace a b depth)
                 (best_i + 1) ahi (best_j + 1) bhi;
       Ok (before ++ middle ++ after))).
  { intros best_i best_j identical (Hi1 & Hi2 & Hj1 & Hj2). simpl in Hi1, Hi2, Hj1, Hj2.
    apply (answers_bind (Forall (ndiff_line (a ++ b)))).
    { apply fancy_helper_answers; [lia|lia|intros; apply IH; lia]. }
    intros before Hbefore.
    destruct (lookup_lt_is_Some_2 a best_i ltac:(lia)) as [aelt Hae].
    destruct (lookup_lt_is_Some_2 b best_j ltac:(lia)) as [belt Hbe].
    rewrite (getitem_Some _ _ _ Hae), (getitem_Some _ _ _ Hbe).
    cbn [mbind result_bind].
    apply (answers_bind (Forall (ndiff_line (a ++ b)))).
    { destruct identical.
      - apply answers_Ok.
        apply Forall_cons_2; [|constructor]. left. exists aelt. split; [|auto].
        apply elem_of_app. left. eapply list_elem_of_lookup_2, Hae.
      - destruct (get_opcodes_total (Some IS_CHARACTER_JUNK) (chars aelt) (chars belt))
          as (ops & -> & _).
        cbn [mbind result_bind].
        destruct (fold_left tags_step ops ("", "")) as [atags btags].
        apply answers_Ok.
        apply qformat_lines; eapply list_elem_of_lookup_2; eassumption. }
    intros middle Hmiddle.
    apply (answers_bind (Forall (ndiff_line (a ++ b)))).
    { apply fancy_helper_answers; [lia|lia|intros; apply IH; lia]. }
    intros after Hafter. apply answers_Ok.
    repeat apply Forall_app_2; assumption. }
  destruct (PrimFloat.ltb (best_ratio st) 0.75) eqn:Ecut.
  - destruct (eq_ij st) as [[eqi eqj]|].
    + exact (Hsynch eqi eqj true Heq).
    + apply answers_total, plain_replace_total; assumption.
  - destruct (best_ij st) as [[best_i best_j]|].
    + exact (Hsynch best_i best_j false Hbest).
    + rewrite Hbest in Ecut. discriminate.
Qed.

Lemma concat_lines (gs : list (list string)) :
  Forall (Forall (ndiff_line (a ++ b))) gs -> Forall (ndiff_line (a ++ b)) (concat gs).
Proof. induction 1; simpl; [constructor|]. apply Forall_app_2; assumption. Qed.

(** [Differ.compare] answers when the interpreter allows as many nested
    calls as [a] has lines; each of its lines is then the line of a token
    of [a] or [b], or an intraline hint. *)
Lemma compare_total (depth : nat) :
  length a <= depth ->
  exists l, compare a b depth = Ok l /\ Forall (ndiff_line (a ++ b)) l.
Proof.
  intros Hdepth. unfold compare.
  destruct (get_opcodes_total None a b) as (ops & -> & Hops).
  cbn [mbind result_bind].
  destruct (mapM_total (compare_step a b depth) (Forall (ndiff_line (a ++ b))) ops)
    as (gs & -> & Hgs).
  - eapply Forall_impl; [exact Hops|].
    intros [[[[tg alo] ahi] blo] bhi] (Hla & Hlb & Hr). unfold compare_step.
    destruct tg.
    + destruct (Hr eq_refl). apply fancy_replace_total; lia.
    + apply dump_a; auto.
    + apply dump_b; auto.
    + apply dump_a; auto.
  - cbn [mbind result_bind]. eexists. split; [reflexivity|].
    apply concat_lines, Hgs.
Qed.

(** Whatever the depth, [Differ.compare] answers or stops with
    [RecursionError]. *)
Lemma compare_answers (depth : nat) :
  answers_or_recursion (Forall (ndiff_line (a ++ b))) (compare a b depth).
Proof.
  unfold compare.
  destruct (get_opcodes_total None a b) as (ops & -> & Hops).
  cbn [mbind result_bind].
  apply (answers_bind (Forall (Forall (ndiff_line (a ++ b))))).
  - apply mapM_answers. eapply Forall_impl; [exact Hops|].
    intros [[[[tg alo] ahi] blo] bhi] (Hla & Hlb & Hr). unfold compare_step.
    destruct tg.
    + destruct (Hr eq_refl). apply fancy_replace_answers; lia.
    + apply answers_total, dump_a; auto.
    + apply answers_total, dump_b; auto.
    + apply answers_total, dump_a; auto.
  - intros gs Hgs. apply answers_Ok, concat_lines, Hgs.
Qed.

End Total.

(** [ndiff] answers when the interpreter allows as many nested calls as
    the first sequence has tokens. *)
Lemma ndiff_total (depth : nat) (a b : list string) :
  length a <= depth ->
  exists l, ndiff depth a b = Ok l /\ Forall (ndiff_line (a ++ b)) l.
Proof. exact (compare_total a b depth). Qed.

(** Whatever the depth, [ndiff] answers or stops with [RecursionError]. *)
Lemma ndiff_answers (depth : nat) (a b : list string) :
  answers_or_recursion (Forall (ndiff_line (a ++ b))) (ndiff depth a b).
Proof. exact (compare_answers a b depth). Qed.

End DifferTotal.

(** ** More on strings *)

Module PyStrMore.
Import PyStr MoreSpec.

Lemma append_nil_l (s : string) : "" +:+ s = s.
Proof. reflexivity. Qed.

Lemma append_cons (c : ascii) (s1 s2 : string) :
  String c s1 +:+ s2 = String c (s1 +:+ s2).
Proof. reflexivity. Qed.

Ltac unappend := rewrite ?append_cons, ?append_nil_l.

Lemma append_assoc (s1 s2 s3 : string) : (s1 +:+ s2) +:+ s3 = s1 +:+ s2 +:+ s3.
Proof. induction s1 as [|c s1 IH]; unappend; [reflexivity|]. f_equal. exact IH. Qed.

Lemma append_empty_r (s : string) : s +:+ "" = s.
Proof. induction s as [|c s IH]; unappend; [reflexivity|]. f_equal. exact IH. Qed.

Lemma no_space_append (s1 s2 : string) :
  no_space (s1 +:+ s2) <-> no_space s1 /\ no_space s2.
Proof. induction s1 as [|c s1 IH]; unappend; simpl; [tauto|]. rewrite IH. tauto. Qed.

(** *** [split] *)

Lemma split_from_words (s : string) :
  forall w, no_space w -> Forall is_word (split_from w s).
Proof.
  induction s as [|c s IH]; intros w Hw; simpl.
  - destruct w; simpl; [constructor|].
    apply Forall_cons_2; [split; [discriminate|exact Hw]|constructor].
  - destruct (isspace c) eqn:Hc.
    + destruct w; simpl.
      * apply IH. exact I.
      * apply Forall_cons_2; [split; [discriminate|exact Hw]|]. apply IH. exact I.
    + apply IH. apply no_space_append. split; [exact Hw|]. simpl. auto.
Qed.

(** Every token of [s.split()] is a word. *)
Lemma split_words (s : string) : Forall is_word (split s).
Proof. apply split_from_words. exact I. Qed.

Lemma split_from_no_space (s : string) :
  forall w, no_space s -> w +:+ s <> "" -> split_from w s = [w +:+ s].
Proof.
  induction s as [|c s IH]; intros w Hs Hne; simpl.
  - rewrite append_empty_r in *. destruct w; [congruence|reflexivity].
  - destruct Hs as [Hc Hs]. rewrite Hc.
    rewrite IH; [|exact Hs|].
    + rewrite append_assoc. reflexivity.
    + rewrite append_assoc. exact Hne.
Qed.

(** A word is its own and only token. *)
Lemma split_word (w : string) : is_word w -> split w = [w].
Proof.
  intros [Hne Hw]. unfold split. rewrite split_from_no_space; auto.
Qed.

(** Whitespace between two texts separates their tokens. *)
Lemma split_from_app_space (c : ascii) (s1 s2 : string) :
  isspace c = true ->
  forall w, split_from w (s1 +:+ String c s2) = split_from w s1 ++ split_from "" s2.
Proof.
  intros Hc. induction s1 as [|c1 s1 IH]; intros w; unappend; simpl.
  - rewrite Hc. destruct w; reflexivity.
  - destruct (isspace c1).
    + destruct w; simpl; rewrite IH; reflexivity.
    + apply IH.
Qed.

Lemma split_app_space (s1 s2 : string) :
  split (s1 +:+ " " +:+ s2) = split s1 ++ split s2.
Proof. unfold split. apply (split_from_app_space " "). reflexivity. Qed.

(** Joining words with blanks and splitting again gives the words back. *)
Lemma split_join (ws : list string) :
  Forall is_word ws -> split (join " " ws) = ws.
Proof.
  induction 1 as [|w ws Hw Hws IH]; [reflexivity|].
  destruct ws as [|w' ws].
  - simpl. apply split_word, Hw.
  - change (join " " (w :: w' :: ws)) with (w +:+ " " +:+ join " " (w' :: ws)).
    rewrite split_app_space, IH, split_word by exact Hw. reflexivity.
Qed.

(** *** [strip] *)

Lemma lstrip_length (t : string) : String.length (lstrip t) <= String.length t.
Proof. induction t as [|c t IH]; simpl; [lia|]. destruct (isspace c); simpl; lia. Qed.

(** A text that [lstrip] leaves alone does not start with whitespace. *)
Lemma lstrip_fixed (c : ascii) (s : string) :
  lstrip (String c s) = String c s -> isspace c = false.
Proof.
  simpl. destruct (isspace c); [|reflexivity]. intros Hl.
  apply (f_equal String.length) in Hl. simpl in Hl.
  pose proof (lstrip_length s). lia.
Qed.

Lemma rstrip_idem (s : string) : rstrip (rstrip s) = rstrip s.
Proof.
  induction s as [|c s IH]; simpl; [reflexivity|].
  destruct (isspace c && is_empty (rstrip s)) eqn:E; [reflexivity|].
  simpl. rewrite IH, E. reflexivity.
Qed.

Lemma lstrip_idem (s : string) : lstrip (lstrip s) = lstrip s.
Proof.
  induction s as [|c s IH]; simpl; [reflexivity|].
  destruct (isspace c) eqn:E; [exact IH|]. simpl. rewrite E. reflexivity.
Qed.

Lemma lstrip_rstrip (s : string) : lstrip s = s -> lstrip (rstrip s) = rstrip s.
Proof.
  destruct s as [|c s]; [reflexivity|]. intros Hl.
  pose proof (lstrip_fixed c s Hl) as E. simpl. rewrite E. simpl. rewrite E.
  reflexivity.
Qed.

(** [strip] leaves a trimmed text. *)
Lemma strip_trimmed (s : string) : trimmed (strip s).
Proof.
  unfold trimmed, strip. split.
  - apply lstrip_rstrip, lstrip_idem.
  - apply rstrip_idem.
Qed.

Lemma strip_fixed (s : string) : trimmed s -> strip s = s.
Proof. intros [Hl Hr]. unfold strip. rewrite Hl. exact Hr. Qed.

Lemma strip_idem (s : string) : strip (strip s) = strip s.
Proof. apply strip_fixed, strip_trimmed. Qed.

Lemma lstrip_append (s1 s2 : string) :
  s1 <> "" -> lstrip s1 = s1 -> lstrip (s1 +:+ s2) = s1 +:+ s2.
Proof.
  destruct s1 as [|c s1]; [congruence|]. intros _ Hl.
  pose proof (lstrip_fixed c s1 Hl) as E. unappend. simpl. rewrite E. reflexivity.
Qed.

Lemma rstrip_append (s1 s2 : string) :
  s2 <> "" -> rstrip s2 = s2 -> rstrip (s1 +:+ s2) = s1 +:+ s2.
Proof.
  intros Hne Hr. induction s1 as [|c s1 IH]; unappend; [exact Hr|].
  simpl. rewrite IH. destruct (s1 +:+ s2) eqn:E.
  - destruct s1; [rewrite append_nil_l in E; congruence|discriminate].
  - simpl. rewrite andb_false_r. reflexivity.
Qed.

Lemma join_nonempty (s : string) (ss : list string) :
  s <> "" -> join " " (s :: ss) <> "".
Proof. destruct s; [congruence|]. destruct ss; discriminate. Qed.

(** Trimmed, non-empty texts joined by blanks make a trimmed text. *)
Lemma join_trimmed (ss : list string) :
  Forall (fun s => s <> "" /\ trimmed s) ss -> trimmed (join " " ss).
Proof.
  induction 1 as [|s ss [Hne [Hl Hr]] Hss [IHl IHr]]; [split; reflexivity|].
  destruct ss as [|s' ss]; [split; assumption|].
  change (join " " (s :: s' :: ss)) with (s +:+ " " +:+ join " " (s' :: ss)).
  split.
  - apply lstrip_append; assumption.
  - rewrite <- append_assoc. apply rstrip_append; [|exact IHr].
    apply Forall_cons in Hss as [[Hne' _] _].
    apply join_nonempty, Hne'.
Qed.

End PyStrMore.

(** ** More on the span extractor *)

Module ExtractMore.
Import App Spec MoreSpec PyStrMore.

Lemma span_step_text (text : string) (tilted_words : list string) (sp : span) :
  (span_step (text, tilted_words) sp).1
  = if nonblank sp then text +:+ " " +:+ span_text sp else text.
Proof.
  unfold span_step, nonblank, span_text.
  destruct (PyStr.truthy _); reflexivity.
Qed.

Lemma spans_fold_text (sps : list span) :
  forall st,
    (fold_left span_step sps st).1
    = fold_left (fun t s => t +:+ " " +:+ s)
        (map span_text (filter (fun sp => nonblank sp = true) sps)) st.1.
Proof.
  induction sps as [|sp sps IH]; intros [text tw]; [reflexivity|].
  cbn [fold_left]. rewrite IH, span_step_text.
  rewrite filter_cons. destruct (nonblank sp) eqn:E.
  - rewrite decide_True by reflexivity. reflexivity.
  - rewrite decide_False by discriminate. reflexivity.
Qed.

Lemma fold_join (s : string) (ss : list string) :
  forall acc,
    fold_left (fun t s => t +:+ " " +:+ s) (s :: ss) acc
    = acc +:+ " " +:+ PyStr.join " " (s :: ss).
Proof.
  revert s. induction ss as [|s' ss IH]; intros s acc; [reflexivity|].
  change (fold_left (fun t s => t +:+ " " +:+ s) (s :: s' :: ss) acc)
    with (fold_left (fun t s => t +:+ " " +:+ s) (s' :: ss) (acc +:+ " " +:+ s)).
  rewrite IH.
  change (PyStr.join " " (s :: s' :: ss))
    with (s +:+ " " +:+ PyStr.join " " (s' :: ss)).
  rewrite !append_assoc. reflexivity.
Qed.

Lemma span_text_trimmed (sps : list span) :
  Forall (fun s => s <> "" /\ trimmed s)
    (map span_text (filter (fun sp => nonblank sp = true) sps)).
Proof.
  apply Forall_fmap, Forall_forall. intros sp Hsp.
  apply list_elem_of_filter in Hsp as [Hn _]. split.
  - unfold nonblank in Hn. intros E. rewrite E in Hn. discriminate.
  - apply strip_trimmed.
Qed.

(** The text of a document: the trimmed texts of its spans, the blank ones
    left out, joined by single blanks. *)
Lemma extract_text (doc : document) :
  (extract_with_pymupdf doc).1
  = PyStr.join " "
      (map span_text (filter (fun sp => nonblank sp = true) (spans_of doc))).
Proof.
  unfold extract_with_pymupdf.
  destruct (fold_left page_step doc ("", [])) as [text tw] eqn:E. cbn [fst].
  change text with (text, tw).1. rewrite <- E, ExtractFacts.pages_fold, spans_fold_text.
  cbn [fst].
  pose proof (span_text_trimmed (spans_of doc)) as Ht.
  destruct (map span_text _) as [|s ss]; [reflexivity|].
  rewrite fold_join, append_nil_l.
  change (PyStr.strip (" " +:+ PyStr.join " " (s :: ss)))
    with (PyStr.strip (PyStr.join " " (s :: ss))).
  apply strip_fixed, join_trimmed, Ht.
Qed.

Lemma split_join_flat (ss : list string) :
  PyStr.split (PyStr.join " " ss) = flat_map PyStr.split ss.
Proof.
  induction ss as [|s ss IH]; [reflexivity|].
  destruct ss as [|s' ss].
  - simpl. rewrite app_nil_r. reflexivity.
  - change (PyStr.join " " (s :: s' :: ss))
      with (s +:+ " " +:+ PyStr.join " " (s' :: ss)).
    rewrite split_app_space, IH. reflexivity.
Qed.

(** The words of the text of a document are the words of its spans, in
    order. *)
Lemma extract_words (doc : document) :
  PyStr.split (extract_with_pymupdf doc).1 = flat_map span_words (spans_of doc).
Proof.
  rewrite extract_text, split_join_flat.
  induction (spans_of doc) as [|sp sps IH]; [reflexivity|].
  rewrite filter_cons. cbn [flat_map].
  assert (Hw : span_words sp = PyStr.split (span_text sp)).
  { unfold span_words, span_text. rewrite PyStrFacts.split_strip. reflexivity. }
  destruct (nonblank sp) eqn:E.
  - rewrite decide_True by reflexivity. cbn [map flat_map]. rewrite IH, Hw. reflexivity.
  - rewrite decide_False by discriminate. rewrite IH, Hw.
    unfold nonblank in E. apply PyStrFacts.truthy_false in E. rewrite E. reflexivity.
Qed.

Lemma tilted_sublist (sps : list span) :
  flat_map tilted_words_of sps `sublist_of` flat_map span_words sps.
Proof.
  induction sps as [|sp sps IH]; [constructor|].
  cbn [flat_map]. apply sublist_app; [|exact IH].
  unfold tilted_words_of. destruct (is_tilted sp); [reflexivity|apply sublist_nil_l].
Qed.

Lemma no_angle_not_tilted (sps : list span) :
  Forall (fun sp => sp_angle sp = None) sps -> flat_map tilted_words_of sps = [].
Proof.
  induction 1 as [|sp sps Hsp _ IH]; [reflexivity|].
  cbn [flat_map]. rewrite IH. unfold tilted_words_of, is_tilted. rewrite Hsp.
  reflexivity.
Qed.

End ExtractMore.

(** ** More on sentences, alignment, highlighting and tokens *)

Module DisplayMore.
Import App Spec MoreSpec PyStrMore.

(** *** Sentences *)

Lemma free_of_append (c : ascii) (s1 s2 : string) :
  free_of c (s1 +:+ s2) <-> free_of c s1 /\ free_of c s2.
Proof. induction s1 as [|c1 s1 IH]; unappend; simpl; [tauto|]. rewrite IH. tauto. Qed.

Lemma split_on_free (sep : ascii) (s : string) :
  forall w, free_of sep w -> Forall (free_of sep) (PyStr.split_on_from sep w s).
Proof.
  induction s as [|c s IH]; intros w Hw; simpl.
  - apply Forall_cons_2; [exact Hw|constructor].
  - destruct (Ascii.eqb_spec c sep) as [->|Hne].
    + apply Forall_cons_2; [exact Hw|]. apply IH. exact I.
    + apply IH. apply free_of_append. simpl. auto.
Qed.

Lemma lstrip_free (c : ascii) (s : string) : free_of c s -> free_of c (PyStr.lstrip s).
Proof.
  induction s as [|c1 s IH]; simpl; [auto|]. intros [H1 H2].
  destruct (PyStr.isspace c1); simpl; auto.
Qed.

Lemma rstrip_free (c : ascii) (s : string) : free_of c s -> free_of c (PyStr.rstrip s).
Proof.
  induction s as [|c1 s IH]; simpl; [auto|]. intros [H1 H2].
  destruct (PyStr.isspace c1 && PyStr.is_empty (PyStr.rstrip s)); simpl; auto.
Qed.

Lemma strip_free (c : ascii) (s : string) : free_of c s -> free_of c (PyStr.strip s).
Proof. intros Hs. apply rstrip_free, lstrip_free, Hs. Qed.

(** A sentence is not empty, is trimmed and holds no period. *)
Lemma sentences_shape (text : string) :
  Forall (fun s => s <> "" /\ trimmed s /\ free_of "." s) (sentences text).
Proof.
  unfold sentences. apply Forall_fmap, Forall_forall. intros piece Hp.
  apply list_elem_of_filter in Hp as [Ht Hp]. cbn [compose]. split_and!.
  - intros E. rewrite E in Ht. discriminate.
  - apply strip_trimmed.
  - apply strip_free.
    pose proof (split_on_free "." text "" I) as Hf.
    rewrite Forall_forall in Hf. apply Hf, Hp.
Qed.

Lemma join_cons (sep x : string) (l : list string) :
  l <> [] -> PyStr.join sep (x :: l) = x +:+ sep +:+ PyStr.join sep l.
Proof. destruct l; [congruence|reflexivity]. Qed.

Lemma split_on_nonempty (sep : ascii) (s : string) :
  forall w, PyStr.split_on_from sep w s <> [].
Proof.
  induction s as [|c s IH]; intros w; simpl; [discriminate|].
  destruct (Ascii.eqb c sep); [discriminate|apply IH].
Qed.

(** [split('.')] loses nothing but the periods. *)
Lemma join_split_on (s : string) :
  forall w, PyStr.join "." (PyStr.split_on_from "." w s) = w +:+ s.
Proof.
  induction s as [|c s IH]; intros w; simpl.
  - rewrite append_empty_r. reflexivity.
  - destruct (Ascii.eqb_spec c ".") as [->|Hne].
    + rewrite join_cons by apply split_on_nonempty.
      rewrite IH. reflexivity.
    + rewrite IH, append_assoc. reflexivity.
Qed.

(** *** The aligner *)

Lemma filter_replicate_empty (n : nat) :
  filter (fun s : string => s <> "") (replicate n "") = [].
Proof.
  induction n as [|n IH]; [reflexivity|].
  cbn [replicate]. rewrite filter_cons, decide_False by auto. exact IH.
Qed.

Lemma filter_all_nonempty (l : list string) :
  Forall (fun s => s <> "") l -> filter (fun s : string => s <> "") l = l.
Proof.
  induction 1 as [|s l Hs _ IH]; [reflexivity|].
  rewrite filter_cons, decide_True by exact Hs. rewrite IH. reflexivity.
Qed.

Lemma align_fst (sa sb : list string) :
  (align sa sb).*1 = sa ++ replicate (Nat.max (length sa) (length sb) - length sa) "".
Proof.
  unfold align. cbv zeta. apply fst_zip.
  rewrite !length_app, !length_replicate. lia.
Qed.

Lemma align_snd (sa sb : list string) :
  (align sa sb).*2 = sb ++ replicate (Nat.max (length sa) (length sb) - length sb) "".
Proof.
  unfold align. cbv zeta. apply snd_zip.
  rewrite !length_app, !length_replicate. lia.
Qed.

(** Aligned lists of non-empty strings: dropping the padding of each
    column gives the lists back, and no row is empty on both sides. *)
Lemma align_nonempty (sa sb : list string) :
  Forall (fun s => s <> "") sa -> Forall (fun s => s <> "") sb ->
  filter (fun s : string => s <> "") (align sa sb).*1 = sa
  /\ filter (fun s : string => s <> "") (align sa sb).*2 = sb
  /\ Forall (fun oc => oc.1 <> "" \/ oc.2 <> "") (align sa sb).
Proof.
  intros Ha Hb. split_and!.
  - rewrite align_fst, filter_app, filter_replicate_empty, app_nil_r.
    apply filter_all_nonempty, Ha.
  - rewrite align_snd, filter_app, filter_replicate_empty, app_nil_r.
    apply filter_all_nonempty, Hb.
  - apply Forall_lookup. intros i [o c] Hi.
    rewrite DisplayFacts.align_lookup in Hi.
    case_bool_decide as Hlt; [|discriminate]. injection Hi as <- <-. cbn [fst snd].
    rewrite Forall_lookup in Ha, Hb.
    destruct (decide (i < length sa)) as [Hia|Hia].
    + left. destruct (lookup_lt_is_Some_2 sa i Hia) as [x Hx]. rewrite Hx.
      exact (Ha i x Hx).
    + right. destruct (lookup_lt_is_Some_2 sb i ltac:(lia)) as [x Hx]. rewrite Hx.
      exact (Hb i x Hx).
Qed.

(** *** The highlighter *)

Lemma shown_plain (tilted_words words : list string) :
  Forall (fun w => w ∉ tilted_words) words -> map (shown tilted_words) words = words.
Proof.
  induction 1 as [|w words Hw _ IH]; [reflexivity|].
  cbn [map]. rewrite IH. unfold shown. rewrite bool_decide_eq_false_2 by exact Hw.
  reflexivity.
Qed.

(** *** The tokens of [TextBlob.correct] *)

Lemma join_empty_cons (x : string) (l : list string) :
  PyStr.join "" (x :: l) = x +:+ PyStr.join "" l.
Proof. destruct l; [simpl; rewrite append_empty_r; reflexivity|reflexivity]. Qed.

Lemma join_empty_app (l1 l2 : list string) :
  PyStr.join "" (l1 ++ l2) = PyStr.join "" l1 +:+ PyStr.join "" l2.
Proof.
  induction l1 as [|x l1 IH]; [reflexivity|].
  cbn [app]. rewrite !join_empty_cons, IH, append_assoc. reflexivity.
Qed.

(** The tokens, put together again, are the text: no character is lost. *)
Lemma tokenize_from_join (s : string) :
  forall w, PyStr.join "" (TextBlob.tokenize_from w s) = w +:+ s.
Proof.
  induction s as [|c s IH]; intros w; simpl.
  - rewrite append_empty_r. destruct w; reflexivity.
  - destruct (TextBlob.is_word_char c).
    + rewrite IH, append_assoc. reflexivity.
    + rewrite join_empty_app, join_empty_cons, IH.
      destruct w; reflexivity.
Qed.

Lemma tokenize_join (raw : string) :
  PyStr.join "" (TextBlob.regexp_tokenize raw) = raw.
Proof. apply tokenize_from_join. Qed.

(** A spelling engine that keeps every token of a text keeps the text. *)
Lemma correct_fixed (spelling : string -> string) (raw : string) :
  Forall (fun w => spelling w = w) (TextBlob.regexp_tokenize raw) ->
  TextBlob.correct spelling raw = raw.
Proof.
  intros Hf. unfold TextBlob.correct.
  rewrite <- (tokenize_join raw) at 2. f_equal.
  induction Hf as [|w l Hw _ IH]; [reflexivity|]. cbn [map]. rewrite Hw, IH. reflexivity.
Qed.

End DisplayMore.

(** ** The matches of [SequenceMatcher] are matches *)

Module MatcherSound.
Import Difflib MatcherSpec MatcherFacts MatcherTotal MoreSpec.

Lemma bind_Ok {S T : Type} (r : result S) (k : S -> result T) (y : T) :
  r ≫= k = Ok y -> exists x, r = Ok x /\ k x = Ok y.
Proof. destruct r as [x| |]; simpl; intros E; [eauto|discriminate..]. Qed.

Lemma getitem_Ok {B : Type} (l : list B) (i : nat) (x : B) :
  getitem l i = Ok x -> l !! i = Some x.
Proof. unfold getitem. destruct (l !! i); [intros [= ->]; reflexivity|discriminate]. Qed.

Section Sound.
Context {A : Type} `{Countable A}.
Variable isjunk : option (A -> bool).
Variables a b : list A.

Lemma match_at_0 (i j : nat) : match_at a b i j 0.
Proof. intros x Hx. lia. Qed.

Lemma match_at_snoc (i j k : nat) (e : A) :
  match_at a b i j k -> a !! (i + k) = Some e -> b !! (j + k) = Some e ->
  match_at a b i j (k + 1).
Proof.
  intros Hm Ha Hb x Hx. destruct (decide (x = k)) as [->|Hne].
  - eauto.
  - apply Hm. lia.
Qed.

Lemma match_at_cons (i j k : nat) (e : A) :
  match_at a b (S i) (S j) k -> a !! i = Some e -> b !! j = Some e ->
  match_at a b i j (k + 1).
Proof.
  intros Hm Ha Hb x Hx. destruct x as [|x].
  - rewrite !Nat.add_0_r. eauto.
  - destruct (Hm x ltac:(lia)) as (e' & H1 & H2). exists e'.
    replace (i + S x) with (S i + x) by lia.
    replace (j + S x) with (S j + x) by lia. auto.
Qed.

Lemma kval_match (i j : nat) (ai : A) (j2len : gmap nat nat) :
  table_match a b i j2len -> a !! i = Some ai -> b !! j = Some ai ->
  kval j2len j <= i + 1 /\ kval j2len j <= j + 1
  /\ match_at a b (i + 1 - kval j2len j) (j + 1 - kval j2len j) (kval j2len j).
Proof.
  intros Ht Ha Hb. unfold kval.
  assert (H1 : match_at a b i j 1).
  { intros x Hx. exists ai. replace x with 0 by lia. rewrite !Nat.add_0_r. auto. }
  destruct j as [|j'].
  { cbn. split_and!; try lia. replace (i + 1 - 1) with i by lia. exact H1. }
  destruct (j2len !! j') as [v|] eqn:E; cbn [default from_option id].
  - destruct (Ht j' v E) as (Hvi & Hvj & Hm). split_and!; try lia.
    replace (i + 1 - (v + 1)) with (i - v) by lia.
    replace (S j' + 1 - (v + 1)) with (j' + 1 - v) by lia.
    apply (match_at_snoc _ _ _ ai Hm).
    + replace (i - v + v) with i by lia. exact Ha.
    + replace (j' + 1 - v + v) with (S j') by lia. exact Hb.
  - split_and!; try lia. replace (i + 1 - (0 + 1)) with i by lia.
    replace (S j' + 1 - (0 + 1)) with (S j') by lia. exact H1.
Qed.

Lemma scan_row_match (i blo bhi : nat) (ai : A) (j2len : gmap nat nat) :
  table_match a b i j2len -> a !! i = Some ai ->
  forall (js : list nat) (new : gmap nat nat) (best : Match),
    (forall j, j ∈ js -> b !! j = Some ai) ->
    table_match a b (i + 1) new -> match_ok a b best ->
    table_match a b (i + 1) (scan_row i blo bhi j2len js new best).1
    /\ match_ok a b (scan_row i blo bhi j2len js new best).2.
Proof.
  intros Ht Ha js. induction js as [|j js IH]; intros new best Hjs Hn Hb.
  - split; assumption.
  - cbn [scan_row].
    assert (Hjs' : forall j', j' ∈ js -> b !! j' = Some ai).
    { intros j' Hj'. apply Hjs. right. exact Hj'. }
    destruct (j <? blo)%nat; [apply IH; assumption|].
    destruct (bhi <=? j)%nat; [split; assumption|].
    fold (kval j2len j).
    destruct (kval_match i j ai j2len Ht Ha (Hjs j ltac:(left))) as (Hki & Hkj & Hm).
    apply IH; [exact Hjs'| |].
    + intros j0 v. destruct (decide (j0 = j)) as [->|Hne].
      * rewrite lookup_insert_eq. intros [= <-]. split_and!; try lia.
        exact Hm.
      * rewrite lookup_insert_ne by congruence. apply Hn.
    + destruct (best.2 <? kval j2len j)%nat; [exact Hm|exact Hb].
Qed.

Lemma scan_rows_match (blo bhi : nat) (m : nat) :
  forall (i : nat) (j2len : gmap nat nat) (best best' : Match),
    table_match a b i j2len -> match_ok a b best ->
    scan_rows isjunk a b blo bhi (seq i m) j2len best = Ok best' ->
    match_ok a b best'.
Proof.
  induction m as [|m IH]; intros i j2len best best' Ht Hb.
  - intros [= <-]. exact Hb.
  - cbn [seq scan_rows]. intros (ai & Hai%getitem_Ok & E)%bind_Ok.
    pose proof (scan_row_match i blo bhi ai j2len Ht Hai
                  (default [] (b2j isjunk b !! ai)) ∅ best) as Hrow.
    destruct (scan_row i blo bhi j2len (default [] (b2j isjunk b !! ai)) ∅ best)
      as [new best1].
    destruct Hrow as [Hn1 Hb1].
    + intros j Hj. destruct (b2j isjunk b !! ai) as [js|] eqn:Ejs; [|inversion Hj].
      apply (b2j_indexes isjunk b ai js Ejs), Hj.
    + intros j v. rewrite lookup_empty. discriminate.
    + exact Hb.
    + apply (IH (S i) new best1 best'); [|exact Hb1|exact E].
      replace (S i) with (i + 1) by lia. exact Hn1.
Qed.

Lemma extend_left_match (want_junk : bool) (alo blo : nat) :
  forall besti bestj bestsize m,
    match_at a b besti bestj bestsize ->
    extend_left isjunk a b want_junk alo blo besti bestj bestsize = Ok m ->
    match_ok a b m.
Proof.
  intros besti. induction besti as [|i IH]; intros bestj bestsize m Hm.
  - intros [= <-]. exact Hm.
  - cbn [extend_left].
    destruct ((alo <? S i)%nat && (blo <? bestj)%nat) eqn:E; [|intros [= <-]; exact Hm].
    apply andb_true_iff in E as [_ E2]. apply Nat.ltb_lt in E2.
    intros (bj & Hbj%getitem_Ok & E)%bind_Ok.
    destruct (Bool.eqb _ _); [|injection E as <-; exact Hm].
    apply bind_Ok in E as (ai & Hai%getitem_Ok & E).
    destruct (bool_decide (ai = bj)) eqn:Eq; [|injection E as <-; exact Hm].
    apply bool_decide_eq_true in Eq. subst bj.
    apply (IH (bestj - 1) (bestsize + 1) m); [|exact E].
    apply (match_at_cons _ _ _ ai); [|exact Hai|exact Hbj].
    replace (S (bestj - 1)) with bestj by lia. exact Hm.
Qed.

Lemma extend_right_match (want_junk : bool) (ahi bhi : nat) :
  forall n besti bestj bestsize m,
    match_at a b besti bestj bestsize ->
    extend_right isjunk a b want_junk ahi bhi n besti bestj bestsize = Ok m ->
    match_ok a b m.
Proof.
  intros n. induction n as [|n IH]; intros besti bestj bestsize m Hm.
  - intros [= <-]. exact Hm.
  - cbn [extend_right].
    destruct ((besti + bestsize <? ahi)%nat && (bestj + bestsize <? bhi)%nat);
      [|intros [= <-]; exact Hm].
    intros (bj & Hbj%getitem_Ok & E)%bind_Ok.
    destruct (Bool.eqb _ _); [|injection E as <-; exact Hm].
    apply bind_Ok in E as (ai & Hai%getitem_Ok & E).
    destruct (bool_decide (ai = bj)) eqn:Eq; [|injection E as <-; exact Hm].
    apply bool_decide_eq_true in Eq. subst bj.
    apply (IH besti bestj (bestsize + 1) m); [|exact E].
    apply (match_at_snoc _ _ _ ai); assumption.
Qed.

(** What [find_longest_match] returns is a match. *)
Lemma find_longest_match_match (alo ahi blo bhi : nat) (m : Match) :
  find_longest_match isjunk a b alo ahi blo bhi = Ok m -> match_ok a b m.
Proof.
  unfold find_longest_match.
  intros ([[i1 j1] k1] & E1 & E)%bind_Ok.
  apply bind_Ok in E as ([[i2 j2] k2] & E2 & E).
  apply bind_Ok in E as ([[i3 j3] k3] & E3 & E).
  apply bind_Ok in E as ([[i4 j4] k4] & E4 & E).
  apply scan_rows_match in E1;
    [|intros j v; rewrite lookup_empty; discriminate|apply match_at_0].
  apply extend_left_match in E2; [|exact E1].
  apply extend_right_match in E3; [|exact E2].
  apply extend_left_match in E4; [|exact E3].
  apply extend_right_match in E; [exact E|exact E4].
Qed.

End Sound.
End MatcherSound.

(** ** The matching blocks come in order *)

Module MatcherOrder.
Import Difflib MatcherSpec MatcherFacts MatcherTotal MoreSpec MatcherSound.

Lemma apart_sym (x y : box) : apart x y -> apart y x.
Proof. unfold apart. tauto. Qed.

Lemma apart_inside (s r y : box) : inside s r -> apart r y -> apart s y.
Proof.
  destruct s as [[[salo sahi] sblo] sbhi], r as [[[alo ahi] blo] bhi],
    y as [[[yalo yahi] yblo] ybhi].
  unfold apart, before, inside. lia.
Qed.

Lemma sorted_sublist {T : Type} (R : relation T) (l1 l2 : list T) :
  l1 `sublist_of` l2 -> StronglySorted R l2 -> StronglySorted R l1.
Proof.
  induction 1 as [|x l1 l2 Hs IH|x l1 l2 Hs IH]; intros Hl.
  - constructor.
  - apply StronglySorted_cons in Hl as [Hx Hl]. apply StronglySorted_cons. split.
    + apply Forall_forall. intros y Hy. rewrite Forall_forall in Hx.
      apply Hx. eapply elem_of_sublist; eassumption.
    + apply IH, Hl.
  - apply StronglySorted_cons in Hl as [_ Hl]. apply IH, Hl.
Qed.

Lemma insert_sorted_Forall (P : Match -> Prop) (x : Match) (l : list Match) :
  P x -> Forall P l -> Forall P (insert_sorted x l).
Proof.
  intros Hx Hl. induction Hl as [|y l Hy Hl IH]; cbn [insert_sorted].
  - apply Forall_cons_2; [assumption|constructor].
  - destruct (match_leb x y); repeat (apply Forall_cons_2); assumption.
Qed.

Lemma sort_Forall (P : Match -> Prop) (l : list Match) :
  Forall P l -> Forall P (sort l).
Proof.
  intros Hl. induction Hl as [|x l Hx Hl IH]; simpl; [constructor|].
  apply insert_sorted_Forall; assumption.
Qed.

Lemma mbefore_trans (x y z : Match) : mbefore x y -> mbefore y z -> mbefore x z.
Proof. unfold mbefore. lia. Qed.

(** Among blocks that are apart and not empty, the order of the tuples is
    the order of the blocks. *)
Lemma leb_mbefore (x y : Match) :
  0 < x.2 -> 0 < y.2 -> apart (box_of x) (box_of y) ->
  if match_leb x y then mbefore x y else mbefore y x.
Proof.
  destruct x as [[i1 j1] k1], y as [[i2 j2] k2].
  unfold apart, before, box_of, mbefore, match_leb. cbn [fst snd].
  intros H1 H2 Ha.
  destruct (i1 <? i2)%nat eqn:E1; [apply Nat.ltb_lt in E1; cbn; lia|].
  apply Nat.ltb_ge in E1.
  destruct (i1 =? i2)%nat eqn:E2; [apply Nat.eqb_eq in E2; lia|].
  apply Nat.eqb_neq in E2. cbn. lia.
Qed.

Lemma insert_sorted_sorted (x : Match) (l : list Match) :
  0 < x.2 -> Forall (fun y => 0 < y.2) l ->
  Forall (fun y => apart (box_of x) (box_of y)) l ->
  StronglySorted mbefore l -> StronglySorted mbefore (insert_sorted x l).
Proof.
  intros Hx. induction l as [|y l IH]; intros Hpos Hap Hs; cbn [insert_sorted].
  - repeat constructor.
  - apply Forall_cons in Hpos as [Hy Hpos]. apply Forall_cons in Hap as [Hxy Hap].
    apply StronglySorted_cons in Hs as [Hyl Hs].
    pose proof (leb_mbefore x y Hx Hy Hxy) as Hord.
    destruct (match_leb x y).
    + apply StronglySorted_cons. split; [|apply StronglySorted_cons; auto].
      apply Forall_cons_2; [exact Hord|].
      eapply Forall_impl; [exact Hyl|]. intros z. apply mbefore_trans, Hord.
    + apply StronglySorted_cons. split; [|apply IH; assumption].
      apply insert_sorted_Forall; assumption.
Qed.

Lemma sort_sorted (l : list Match) :
  Forall (fun y => 0 < y.2) l -> StronglySorted apart (map box_of l) ->
  StronglySorted mbefore (sort l).
Proof.
  induction l as [|x l IH]; intros Hpos Hch; simpl; [constructor|].
  apply Forall_cons in Hpos as [Hx Hpos].
  cbn [map] in Hch. apply StronglySorted_cons in Hch as [Hxl Hch].
  apply insert_sorted_sorted.
  - exact Hx.
  - apply sort_Forall, Hpos.
  - apply sort_Forall. rewrite Forall_fmap in Hxl. exact Hxl.
  - apply IH; assumption.
Qed.

Section Order.
Context {A : Type} `{Countable A}.
Variable isjunk : option (A -> bool).
Variables a b : list A.

(** The loop of [get_matching_blocks]: the regions still to search and the
    blocks found so far are pairwise apart, and remain so. *)
Lemma blocks_loop_apart (fuel : nat) :
  forall (queue : list box) (matching_blocks blocks : list Match),
    Forall (region_in a b) queue ->
    StronglySorted apart (queue ++ map box_of matching_blocks) ->
    Forall (fun m => 0 < m.2 /\ match_ok a b m) matching_blocks ->
    blocks_loop isjunk a b fuel queue matching_blocks = Ok blocks ->
    StronglySorted apart (map box_of blocks)
    /\ Forall (fun m => 0 < m.2 /\ match_ok a b m) blocks.
Proof.
  induction fuel as [|fuel IH]; intros queue mb blocks Hq Hch Hmb.
  - destruct queue as [|[[[alo ahi] blo] bhi] queue]; [|discriminate].
    intros [= <-]. split; assumption.
  - destruct queue as [|[[[alo ahi] blo] bhi] queue].
    { intros [= <-]. split; assumption. }
    apply Forall_cons in Hq as [(Ha & Hla & Hb & Hlb) Hq].
    cbn [blocks_loop app] in *.
    destruct (find_longest_match_in isjunk a b alo ahi blo bhi Ha Hla Hb Hlb)
      as ([[i j] k] & Eflm & Hin).
    pose proof (find_longest_match_match isjunk a b _ _ _ _ _ Eflm) as Hmatch.
    rewrite Eflm. cbn [mbind result_bind].
    unfold in_region in Hin. cbn [fst snd] in Hin.
    apply StronglySorted_cons in Hch as [Hr Hch].
    destruct (k =? 0)%nat eqn:Ek; [apply IH; assumption|].
    apply Nat.eqb_neq in Ek. apply IH.
    + destruct ((i + k <? ahi)%nat && (j + k <? bhi)%nat);
        destruct ((alo <? i)%nat && (blo <? j)%nat);
        repeat apply Forall_cons_2; try assumption; unfold region_in; lia.
    + set (r1 := (alo, i, blo, j) : box). set (r2 := (i + k, ahi, j + k, bhi) : box).
      set (bm := box_of (i, j, k)).
      apply (sorted_sublist _ _ (r2 :: r1 :: (queue ++ map box_of mb) ++ [bm])).
      * rewrite map_app, app_assoc. cbn [map]. fold bm.
        destruct ((i + k <? ahi)%nat && (j + k <? bhi)%nat);
          destruct ((alo <? i)%nat && (blo <? j)%nat); cbn [app];
          repeat first [apply sublist_skip | apply sublist_cons]; reflexivity.
      * assert (Hins : forall s, inside s (alo, ahi, blo, bhi) ->
                  Forall (apart s) (queue ++ map box_of mb)).
        { intros s Hs. eapply Forall_impl; [exact Hr|].
          intros y Hy. eapply apart_inside; eassumption. }
        assert (H1 : inside r1 (alo, ahi, blo, bhi)) by (unfold inside, r1; lia).
        assert (H2 : inside r2 (alo, ahi, blo, bhi)) by (unfold inside, r2; lia).
        assert (H3 : inside bm (alo, ahi, blo, bhi))
          by (unfold inside, bm, box_of; cbn [fst snd]; lia).
        apply StronglySorted_cons. split.
        { apply Forall_cons_2; [right; unfold before, r1, r2; lia|].
          apply Forall_app. split; [apply Hins, H2|].
          apply Forall_cons_2; [|constructor].
          right. unfold before, bm, box_of, r2. cbn [fst snd]. lia. }
        apply StronglySorted_cons. split.
        { apply Forall_app. split; [apply Hins, H1|].
          apply Forall_cons_2; [|constructor].
          left. unfold before, bm, box_of, r1. cbn [fst snd]. lia. }
        apply StronglySorted_app_2; [|exact Hch|repeat constructor].
        intros x1 x2 Hx1 ->%list_elem_of_singleton.
        apply apart_sym. pose proof (Hins bm H3) as Hb3.
        rewrite Forall_forall in Hb3. apply Hb3, Hx1.
    + apply Forall_app. split; [assumption|].
      apply Forall_cons_2; [|constructor]. cbn [snd]. split; [lia|exact Hmatch].
Qed.

End Order.
End MatcherOrder.

(** ** The opcodes cover both sequences *)

Module MatcherCover.
Import Difflib MatcherSpec MatcherFacts MatcherTotal MoreSpec MatcherSound MatcherOrder.

Lemma slice_nil {T : Type} (l : list T) (i : nat) : slice l i i = [].
Proof. unfold slice. rewrite Nat.sub_diag. reflexivity. Qed.

Lemma slice_split {T : Type} (l : list T) (lo mid hi : nat) :
  lo <= mid -> mid <= hi -> slice l lo hi = slice l lo mid ++ slice l mid hi.
Proof.
  intros H1 H2. unfold slice.
  replace (hi - lo) with ((mid - lo) + (hi - mid)) by lia.
  rewrite <- take_take_drop, drop_drop. do 3 f_equal. lia.
Qed.

Lemma slice_one {T : Type} (l : list T) (i : nat) (x : T) :
  l !! i = Some x -> slice l i (i + 1) = [x].
Proof.
  intros Hx. unfold slice. replace (i + 1 - i) with 1 by lia.
  rewrite (drop_S l x i Hx). reflexivity.
Qed.

Lemma slice_drop {T : Type} (l : list T) (lo hi : nat) :
  lo <= hi -> slice l lo hi ++ drop hi l = drop lo l.
Proof.
  intros Hle. unfold slice.
  replace (drop hi l) with (drop (hi - lo) (drop lo l))
    by (rewrite drop_drop; f_equal; lia).
  apply take_drop.
Qed.

Section Cover.
Context {A : Type} `{Countable A}.
Variable isjunk : option (A -> bool).
Variables a b : list A.

Lemma match_at_app (i j k1 k2 : nat) :
  match_at a b i j k1 -> match_at a b (i + k1) (j + k1) k2 ->
  match_at a b i j (k1 + k2).
Proof.
  intros H1 H2 x Hx. destruct (decide (x < k1)) as [Hlt|Hge]; [apply H1, Hlt|].
  destruct (H2 (x - k1) ltac:(lia)) as (e & Ha & Hb). exists e.
  replace (i + x) with (i + k1 + (x - k1)) by lia.
  replace (j + x) with (j + k1 + (x - k1)) by lia. auto.
Qed.

Lemma match_slice (i j k : nat) :
  match_at a b i j k -> slice a i (i + k) = slice b j (j + k).
Proof.
  intros Hm. unfold slice. replace (i + k - i) with k by lia.
  replace (j + k - j) with k by lia. apply list_eq. intros x.
  destruct (decide (x < k)) as [Hlt|Hge].
  - rewrite !lookup_take_lt, !lookup_drop by exact Hlt.
    destruct (Hm x Hlt) as (e & -> & ->). reflexivity.
  - rewrite !lookup_take_ge by lia. reflexivity.
Qed.

Lemma collapse_fold_ok (rest : list Match) :
  forall (cur : Match) (acc : list Match) (cur' : Match) (acc' : list Match),
    StronglySorted mbefore (acc ++ cur :: rest) ->
    Forall (match_ok a b) (acc ++ cur :: rest) ->
    fold_left collapse_step rest (cur, acc) = (cur', acc') ->
    StronglySorted mbefore (acc' ++ [cur']) /\ Forall (match_ok a b) (acc' ++ [cur']).
Proof.
  induction rest as [|[[i2 j2] k2] rest IH]; intros [[i1 j1] k1] acc cur' acc' Hs Hm.
  - intros [= <- <-]. split; assumption.
  - cbn [fold_left collapse_step].
    destruct ((i1 + k1 =? i2)%nat && (j1 + k1 =? j2)%nat) eqn:E.
    + apply andb_true_iff in E as [E1 E2]. apply Nat.eqb_eq in E1, E2. subst i2 j2.
      apply StronglySorted_app in Hs as (Hab & Hsa & Hsc).
      apply StronglySorted_cons in Hsc as [Hc Hsc].
      apply Forall_cons in Hc as [_ Hc].
      apply StronglySorted_cons in Hsc as [Hmr Hsr].
      apply Forall_app in Hm as [Hma Hmc].
      apply Forall_cons in Hmc as [Hm1 Hmc]. apply Forall_cons in Hmc as [Hm2 Hmr'].
      apply IH.
      * apply StronglySorted_app_2; [|exact Hsa|].
        -- intros x1 x2 Hx1 Hx2. apply elem_of_cons in Hx2 as [->|Hx2].
           ++ pose proof (Hab x1 (i1, j1, k1) Hx1 ltac:(left)) as Hb.
              unfold mbefore in *. cbn [fst snd] in *. lia.
           ++ apply Hab; [exact Hx1|]. right. right. exact Hx2.
        -- apply StronglySorted_cons. split; [|exact Hsr].
           eapply Forall_impl; [exact Hmr|]. intros z. unfold mbefore. cbn [fst snd]. lia.
      * apply Forall_app. split; [exact Hma|]. apply Forall_cons_2; [|exact Hmr'].
        unfold match_ok in *. cbn [fst snd] in *. apply match_at_app; assumption.
    + destruct (k1 =? 0)%nat.
      * apply IH.
        -- eapply sorted_sublist; [|exact Hs].
           apply sublist_app; [reflexivity|]. apply sublist_cons. reflexivity.
        -- apply Forall_app in Hm as [Hma Hmc]. apply Forall_cons in Hmc as [_ Hmc].
           apply Forall_app. split; assumption.
      * apply IH; rewrite <- app_assoc; assumption.
Qed.

Lemma collapse_ok (l : list Match) :
  StronglySorted mbefore l -> Forall (match_ok a b) l -> Forall (block_in a b) l ->
  blocks_ok a b (collapse (length a) (length b) l).
Proof.
  intros Hs Hm Hb.
  pose proof (collapse_in a b l Hb) as Hin.
  unfold collapse in *.
  destruct (fold_left collapse_step l ((0, 0, 0), [])) as [[[i1 j1] k1] acc] eqn:Efold.
  destruct (collapse_fold_ok l (0, 0, 0) [] (i1, j1, k1) acc) as [Hfs Hfm]; [| |exact Efold|].
  { cbn [app]. apply StronglySorted_cons. split; [|exact Hs].
    apply Forall_forall. intros z _. unfold mbefore. cbn [fst snd]. lia. }
  { cbn [app]. apply Forall_cons_2; [|exact Hm]. intros x Hx. cbn [snd] in Hx. lia. }
  set (na := if (k1 =? 0)%nat then acc else acc ++ [(i1, j1, k1)]) in *.
  assert (Hsub : na `sublist_of` acc ++ [(i1, j1, k1)]).
  { unfold na. destruct (k1 =? 0)%nat; [apply sublist_inserts_r|]; reflexivity. }
  apply Forall_app in Hin as [Hna Hsent].
  split_and!.
  - apply StronglySorted_app_2.
    + intros x1 x2 Hx1 ->%list_elem_of_singleton.
      rewrite Forall_forall in Hna. exact (Hna x1 Hx1).
    + eapply sorted_sublist; eassumption.
    + repeat constructor.
  - apply Forall_app. split.
    + apply Forall_forall. intros x Hx. rewrite Forall_forall in Hfm.
      apply Hfm. eapply elem_of_sublist; eassumption.
    + apply Forall_cons_2; [|constructor]. intros x Hx. cbn [snd] in Hx. lia.
  - apply Forall_app. split; assumption.
  - exists na. reflexivity.
Qed.

(** [get_matching_blocks] returns real matches, in order, and the
    sentinel. *)
Lemma get_matching_blocks_ok (blocks : list Match) :
  get_matching_blocks isjunk a b = Ok blocks -> blocks_ok a b blocks.
Proof.
  unfold get_matching_blocks. intros (mb & Eloop & [= <-])%bind_Ok.
  destruct (blocks_loop_total isjunk a b (blocks_fuel a)
              [(0, length a, 0, length b)] []) as (mb' & Eloop' & Hin).
  { apply Forall_cons_2; [unfold region_in; lia|constructor]. }
  { unfold blocks_fuel. simpl. lia. }
  { constructor. }
  rewrite Eloop in Eloop'. injection Eloop' as <-.
  destruct (blocks_loop_apart isjunk a b (blocks_fuel a)
              [(0, length a, 0, length b)] [] mb) as [Hap Hpm].
  { apply Forall_cons_2; [unfold region_in; lia|constructor]. }
  { repeat constructor. }
  { constructor. }
  { exact Eloop. }
  apply collapse_ok.
  - apply sort_sorted; [|exact Hap].
    eapply Forall_impl; [exact Hpm|]. intros m [Hk _]. exact Hk.
  - apply sort_Forall. eapply Forall_impl; [exact Hpm|]. intros m [_ Hk]. exact Hk.
  - apply sort_Forall, Hin.
Qed.

Lemma opcode_step_ops (i j ai bj size : nat) (answer : list opcode) :
  opcode_step (i, j, answer) (ai, bj, size)
  = (ai + size, bj + size, answer ++ gap_ops i j ai bj ++ equal_ops ai bj size).
Proof.
  unfold opcode_step, gap_ops, equal_ops.
  destruct ((i <? ai)%nat && (j <? bj)%nat); [|destruct (i <? ai)%nat; [|destruct (j <? bj)%nat]];
    destruct (size =? 0)%nat; cbn [app];
    rewrite ?app_nil_r, <- ?app_assoc; reflexivity.
Qed.

Lemma covers_gap (i j ai bj : nat) (ops : list opcode) :
  i <= ai -> ai <= length a -> j <= bj -> bj <= length b ->
  covers a b ai bj ops -> covers a b i j (gap_ops i j ai bj ++ ops).
Proof.
  intros Hi Hla Hj Hlb Hc. unfold gap_ops.
  destruct (Nat.ltb_spec i ai) as [Ei|Ei]; destruct (Nat.ltb_spec j bj) as [Ej|Ej];
    cbn [andb app covers tag_ok].
  - split_and!; try lia; exact Hc.
  - split_and!; try lia; exact Hc.
  - split_and!; try lia; exact Hc.
  - replace i with ai by lia. replace j with bj by lia. exact Hc.
Qed.

Lemma covers_equal (ai bj size : nat) (ops : list opcode) :
  match_at a b ai bj size -> ai + size <= length a -> bj + size <= length b ->
  covers a b (ai + size) (bj + size) ops ->
  covers a b ai bj (equal_ops ai bj size ++ ops).
Proof.
  intros Hm Hla Hlb Hc. unfold equal_ops. destruct (size =? 0)%nat eqn:E.
  - apply Nat.eqb_eq in E. subst size. rewrite !Nat.add_0_r in Hc. exact Hc.
  - apply Nat.eqb_neq in E. cbn [app covers tag_ok].
    split_and!; try lia; [apply match_slice, Hm|exact Hc].
Qed.

Lemma opcodes_fold_cover (blocks : list Match) :
  forall (i j : nat) (answer : list opcode),
    StronglySorted mbefore blocks ->
    Forall (fun m => i <= m.1.1 /\ j <= m.1.2) blocks ->
    Forall (match_ok a b) blocks -> Forall (block_in a b) blocks ->
    (exists pre, blocks = pre ++ [(length a, length b, 0)]) ->
    exists ops,
      (fold_left opcode_step blocks (i, j, answer)).2 = answer ++ ops
      /\ covers a b i j ops.
Proof.
  induction blocks as [|[[ai bj] size] rest IH]; intros i j answer Hs Hge Hm Hin [pre Hpre].
  - destruct pre; discriminate.
  - cbn [fold_left]. rewrite opcode_step_ops.
    apply StronglySorted_cons in Hs as [Hrest Hs].
    apply Forall_cons in Hge as [[Hi Hj] _]. cbn [fst snd] in Hi, Hj.
    apply Forall_cons in Hm as [Hm1 Hm]. apply Forall_cons in Hin as [[Hia Hib] Hin].
    unfold match_ok in Hm1. cbn [fst snd] in Hm1, Hia, Hib.
    destruct rest as [|m' rest'].
    + destruct pre as [|p pre]; [|destruct pre; discriminate].
      injection Hpre as -> -> ->. cbn [fold_left snd].
      exists (gap_ops i j (length a) (length b) ++ equal_ops (length a) (length b) 0).
      split; [reflexivity|].
      apply covers_gap; try lia. cbn. auto.
    + assert (Hge : Forall (fun m => ai + size <= m.1.1 /\ bj + size <= m.1.2)
                      (m' :: rest')).
      { eapply Forall_impl; [exact Hrest|]. intros z. unfold mbefore. cbn [fst snd]. tauto. }
      assert (Hpre' : exists pre', m' :: rest' = pre' ++ [(length a, length b, 0)]).
      { destruct pre as [|p pre]; [discriminate|]. injection Hpre as _ Hpre.
        exists pre. exact Hpre. }
      destruct (IH (ai + size) (bj + size)
                  (answer ++ gap_ops i j ai bj ++ equal_ops ai bj size)
                  Hs Hge Hm Hin Hpre') as (ops & Eops & Hc).
      exists (gap_ops i j ai bj ++ equal_ops ai bj size ++ ops).
      split; [rewrite Eops, <- !app_assoc; reflexivity|].
      apply covers_gap; try lia. apply covers_equal; assumption.
Qed.

(** [get_opcodes] returns opcodes that cover [a] and [b]. *)
Lemma get_opcodes_cover (ops : list opcode) :
  get_opcodes isjunk a b = Ok ops -> covers a b 0 0 ops.
Proof.
  unfold get_opcodes. intros (blocks & Eb%get_matching_blocks_ok & [= <-])%bind_Ok.
  destruct Eb as (Hs & Hm & Hin & Hpre).
  assert (Hge : Forall (fun m : Match => 0 <= m.1.1 /\ 0 <= m.1.2) blocks).
  { apply Forall_forall. intros m _. lia. }
  destruct (opcodes_fold_cover blocks 0 0 [] Hs Hge Hm Hin Hpre) as (ops & Eops & Hc).
  unfold opcodes_of_blocks. rewrite Eops. exact Hc.
Qed.

End Cover.
End MatcherCover.

(** ** [restore] undoes [ndiff] *)

Module DifferRestore.
Import Difflib MatcherSpec MatcherFacts MatcherTotal DifferTotal Spec MoreSpec.
Import PyStrMore MatcherSound MatcherCover.

Lemma restore_app (l1 l2 : list string) (which : side) :
  restore (l1 ++ l2) which = restore l1 which ++ restore l2 which.
Proof. unfold restore. rewrite filter_app, map_app. reflexivity. Qed.

Lemma restore_cons_keep (d : string) (l : list string) (which : side) :
  PyStr.startswith "  " d || PyStr.startswith (side_tag which) d = true ->
  restore (d :: l) which = PyStr.drop 2 d :: restore l which.
Proof. intros Hd. unfold restore. rewrite filter_cons, decide_True by exact Hd. reflexivity. Qed.

Lemma restore_cons_skip (d : string) (l : list string) (which : side) :
  PyStr.startswith "  " d || PyStr.startswith (side_tag which) d = false ->
  restore (d :: l) which = restore l which.
Proof.
  intros Hd. unfold restore. rewrite filter_cons, decide_False; [reflexivity|].
  rewrite Hd. discriminate.
Qed.

Lemma restore_keep_both (t : string) (l : list string) (which : side) :
  restore (String " " (String " " t) :: l) which = t :: restore l which.
Proof. apply restore_cons_keep. destruct which, t; reflexivity. Qed.

Lemma restore_keep_first (t : string) (l : list string) :
  restore (String "-" (String " " t) :: l) First = t :: restore l First.
Proof. apply restore_cons_keep. destruct t; reflexivity. Qed.

Lemma restore_keep_second (t : string) (l : list string) :
  restore (String "+" (String " " t) :: l) Second = t :: restore l Second.
Proof. apply restore_cons_keep. destruct t; reflexivity. Qed.

(** The lines of unchanged tokens belong to both sides, those of removed
    tokens to the first, those of added tokens to the second. *)
Lemma restore_unchanged (ts : list string) (which : side) :
  restore (map (fun t => " " +:+ " " +:+ t) ts) which = ts.
Proof.
  induction ts as [|t ts IH]; [reflexivity|]. cbn [map]. unappend.
  rewrite restore_keep_both, IH. reflexivity.
Qed.

Lemma restore_removed (ts : list string) :
  restore (map (fun t => "-" +:+ " " +:+ t) ts) First = ts
  /\ restore (map (fun t => "-" +:+ " " +:+ t) ts) Second = [].
Proof.
  induction ts as [|t ts [IH1 IH2]]; [split; reflexivity|]. cbn [map]. unappend. split.
  - rewrite restore_keep_first, IH1. reflexivity.
  - rewrite restore_cons_skip by reflexivity. exact IH2.
Qed.

Lemma restore_added (ts : list string) :
  restore (map (fun t => "+" +:+ " " +:+ t) ts) First = []
  /\ restore (map (fun t => "+" +:+ " " +:+ t) ts) Second = ts.
Proof.
  induction ts as [|t ts [IH1 IH2]]; [split; reflexivity|]. cbn [map]. unappend. split.
  - rewrite restore_cons_skip by reflexivity. exact IH1.
  - rewrite restore_keep_second, IH2. reflexivity.
Qed.

Lemma mapM_cons_Ok {S T : Type} (f : S -> result T) (x : S) (l : list S)
  (ys : list T) :
  mapM f (x :: l) = Ok ys ->
  exists y ys', f x = Ok y /\ mapM f l = Ok ys' /\ ys = y :: ys'.
Proof.
  cbn [mapM]. intros (y & Hy & E)%bind_Ok. apply bind_Ok in E as (ys' & Hys & [= <-]).
  eauto.
Qed.

Lemma dump_seq (tg : string) (x : list string) (n : nat) :
  forall lo, (n <> 0 -> lo + n <= length x) ->
    mapM (fun i => xi ← getitem x i; Ok (tg +:+ " " +:+ xi)) (seq lo n)
    = Ok (map (fun t => tg +:+ " " +:+ t) (take n (drop lo x))).
Proof.
  induction n as [|n IH]; intros lo Hn; [reflexivity|].
  destruct (lookup_lt_is_Some_2 x lo ltac:(lia)) as [t Ht].
  cbn [seq mapM]. rewrite (getitem_Some _ _ _ Ht). cbn [mbind result_bind].
  rewrite IH by lia. cbn [mbind result_bind].
  rewrite (drop_S x t lo Ht). reflexivity.
Qed.

(** [_dump] gives one line for each element of the range. *)
Lemma dump_slice (tg : string) (x : list string) (lo hi : nat) :
  hi <= length x ->
  dump tg x lo hi = Ok (map (fun t => tg +:+ " " +:+ t) (slice x lo hi)).
Proof. intros Hhi. unfold dump, slice. apply dump_seq. lia. Qed.

Section Restore.
Variables a b : list string.

Lemma restores_app (l1 l2 : list string) (alo amid ahi blo bmid bhi : nat) :
  alo <= amid -> amid <= ahi -> blo <= bmid -> bmid <= bhi ->
  restores a b l1 alo amid blo bmid -> restores a b l2 amid ahi bmid bhi ->
  restores a b (l1 ++ l2) alo ahi blo bhi.
Proof.
  intros H1 H2 H3 H4 [Ha1 Hb1] [Ha2 Hb2]. unfold restores.
  rewrite !restore_app, Ha1, Ha2, Hb1, Hb2.
  rewrite <- !slice_split by assumption. split; reflexivity.
Qed.

Lemma dump_removed (alo ahi j : nat) (l : list string) :
  ahi <= length a -> dump "-" a alo ahi = Ok l -> restores a b l alo ahi j j.
Proof.
  intros Hla. rewrite dump_slice by exact Hla. intros [= <-].
  destruct (restore_removed (slice a alo ahi)) as [H1 H2].
  split; [exact H1|]. rewrite H2, slice_nil. reflexivity.
Qed.

Lemma dump_added (i blo bhi : nat) (l : list string) :
  bhi <= length b -> dump "+" b blo bhi = Ok l -> restores a b l i i blo bhi.
Proof.
  intros Hlb. rewrite dump_slice by exact Hlb. intros [= <-].
  destruct (restore_added (slice b blo bhi)) as [H1 H2].
  split; [|exact H2]. rewrite H1, slice_nil. reflexivity.
Qed.

Lemma plain_replace_restore (alo ahi blo bhi : nat) (l : list string) :
  ahi <= length a -> bhi <= length b ->
  plain_replace a b alo ahi blo bhi = Ok l -> restores a b l alo ahi blo bhi.
Proof.
  intros Hla Hlb. unfold plain_replace.
  destruct ((alo <? ahi)%nat && (blo <? bhi)%nat) eqn:E; [|discriminate].
  apply andb_true_iff in E as [E1 E2]. apply Nat.ltb_lt in E1, E2.
  destruct (bhi - blo <? ahi - alo)%nat.
  - intros (l1 & H1 & E)%bind_Ok. apply bind_Ok in E as (l2 & H2 & [= <-]).
    apply (restores_app _ _ alo alo ahi blo bhi bhi); try lia.
    + apply dump_added; assumption.
    + apply dump_removed; assumption.
  - intros (l1 & H1 & E)%bind_Ok. apply bind_Ok in E as (l2 & H2 & [= <-]).
    apply (restores_app _ _ alo ahi ahi blo blo bhi); try lia.
    + apply dump_removed; assumption.
    + apply dump_added; assumption.
Qed.

Lemma search_step_eq (i j : nat) (bj : string) (st st' : search_state) :
  b !! j = Some bj -> eq_ok a b st ->
  search_step a j bj st i = Ok st' -> eq_ok a b st'.
Proof.
  intros Hbj Heq. unfold search_step.
  intros (ai & Hai%getitem_Ok & E)%bind_Ok.
  destruct (bool_decide (ai = bj)) eqn:Eab.
  - apply bool_decide_eq_true in Eab. subst bj. injection E as <-.
    destruct (eq_ij st) as [ij|] eqn:Est; [exact Heq|].
    intros i' j'. cbn [eq_ij]. intros [= <- <-]. eauto.
  - destruct (PrimFloat.ltb _ (real_quick_ratio _ _)); [|injection E as <-; exact Heq].
    destruct (PrimFloat.ltb _ (quick_ratio _ _)); [|injection E as <-; exact Heq].
    apply bind_Ok in E as (r & _ & E).
    destruct (PrimFloat.ltb _ r); injection E as <-; exact Heq.
Qed.

Lemma search_row_eq (j : nat) (bj : string) (rows : list nat) :
  b !! j = Some bj ->
  forall st st', eq_ok a b st -> search_row a j bj st rows = Ok st' -> eq_ok a b st'.
Proof.
  intros Hbj. induction rows as [|i rows IH]; intros st st' Heq.
  - intros [= <-]. exact Heq.
  - cbn [search_row]. intros (st1 & H1 & E)%bind_Ok.
    apply (IH st1 st'); [|exact E]. eapply search_step_eq; eassumption.
Qed.

Lemma search_eq (alo ahi : nat) (cols : list nat) :
  forall st st', eq_ok a b st -> search a b alo ahi st cols = Ok st' -> eq_ok a b st'.
Proof.
  induction cols as [|j cols IH]; intros st st' Heq.
  - intros [= <-]. exact Heq.
  - cbn [search]. intros (bj & Hbj%getitem_Ok & E)%bind_Ok.
    apply bind_Ok in E as (st1 & H1 & E).
    apply (IH st1 st'); [|exact E]. eapply search_row_eq; eassumption.
Qed.

Lemma fancy_helper_restore
  (fancy : nat -> nat -> nat -> nat -> result (list string))
  (alo ahi blo bhi : nat) (l : list string) :
  alo <= ahi -> ahi <= length a -> blo <= bhi -> bhi <= length b ->
  (forall l', fancy alo ahi blo bhi = Ok l' -> restores a b l' alo ahi blo bhi) ->
  fancy_helper a b fancy alo ahi blo bhi = Ok l -> restores a b l alo ahi blo bhi.
Proof.
  intros Ha Hla Hb Hlb Hf. unfold fancy_helper.
  destruct (Nat.ltb_spec alo ahi) as [Ea|Ea]; destruct (Nat.ltb_spec blo bhi) as [Eb|Eb].
  - apply Hf.
  - replace bhi with blo by lia. apply dump_removed, Hla.
  - replace ahi with alo by lia. apply dump_added, Hlb.
  - intros [= <-]. replace ahi with alo by lia. replace bhi with blo by lia.
    split; rewrite slice_nil; reflexivity.
Qed.

Lemma qformat_restore (aelt belt atags btags : string) (i j : nat) :
  a !! i = Some aelt -> b !! j = Some belt ->
  restores a b (qformat aelt belt atags btags) i (i + 1) j (j + 1).
Proof.
  intros Ha Hb. unfold restores, qformat. cbv zeta.
  rewrite (slice_one a i aelt Ha), (slice_one b j belt Hb).
  rewrite !restore_app.
  assert (Hq : forall (t : bool) (h : string) which,
             restore (if t then ["? " +:+ h] else []) which = []).
  { intros [] h which; [|reflexivity]. unappend. destruct which; reflexivity. }
  rewrite !Hq. unappend.
  rewrite restore_keep_first, restore_keep_second.
  split; reflexivity.
Qed.

(** [_fancy_replace] on a range of [a] and a range of [b]. *)
Lemma fancy_replace_restore (fuel : nat) :
  forall alo ahi blo bhi l,
    alo <= ahi -> ahi <= length a -> blo <= bhi -> bhi <= length b ->
    fancy_replace a b fuel alo ahi blo bhi = Ok l -> restores a b l alo ahi blo bhi.
Proof.
  induction fuel as [|fuel IH]; intros alo ahi blo bhi l Ha Hla Hb Hlb; [discriminate|].
  cbn [fancy_replace]. intros (st & Est & E)%bind_Ok.
  assert (Hst : search_ok alo ahi blo bhi st /\ eq_ok a b st).
  { split.
    - destruct (search_total a b alo ahi blo bhi (bhi - blo) Ha Hla Hlb blo
                  (SearchState 0.74 None None)) as (st' & Est' & Hok);
        [lia|lia|split; reflexivity|].
      rewrite Est in Est'. injection Est' as <-. exact Hok.
    - eapply search_eq; [|exact Est]. intros i j. discriminate. }
  destruct Hst as [[Hbest Heqin] Heq].
  assert (Hsynch : forall best_i best_j identical,
    pair_in alo ahi blo bhi (best_i, best_j) ->
    (identical = true -> exists e, a !! best_i = Some e /\ b !! best_j = Some e) ->
    (before ← fancy_helper a b (fancy_replace a b fuel) alo best_i blo best_j;
     aelt ← getitem a best_i;
     belt ← getitem b best_j;
     middle ←
       (if identical : bool then Ok ["  " +:+ aelt]
        else
          ops ← get_opcodes (Some IS_CHARACTER_JUNK) (chars aelt) (chars belt);
          let '(atags, btags) := fold_left tags_step ops ("", "") in
          Ok (qformat aelt belt atags btags));
     after ← fancy_helper a b (fancy_replace a b fuel)
               (best_i + 1) ahi (best_j + 1) bhi;
     Ok (before ++ middle ++ after)) = Ok l ->
    restores a b l alo ahi blo bhi).
  { intros best_i best_j identical (Hi1 & Hi2 & Hj1 & Hj2) Hid.
    cbn [fst snd] in Hi1, Hi2, Hj1, Hj2.
    intros (before & Hbefore & E1)%bind_Ok.
    apply bind_Ok in E1 as (aelt & Hae%getitem_Ok & E1).
    apply bind_Ok in E1 as (belt & Hbe%getitem_Ok & E1).
    apply bind_Ok in E1 as (middle & Hmiddle & E1).
    apply bind_Ok in E1 as (after & Hafter & [= <-]).
    apply fancy_helper_restore in Hbefore; try lia; [|intros l'; apply IH; lia].
    apply fancy_helper_restore in Hafter; try lia; [|intros l'; apply IH; lia].
    apply (restores_app _ _ alo best_i ahi blo best_j bhi); try lia; [exact Hbefore|].
    apply (restores_app _ _ best_i (best_i + 1) ahi best_j (best_j + 1) bhi);
      try lia; [|exact Hafter].
    destruct identical.
    - injection Hmiddle as <-. destruct (Hid eq_refl) as (e & He1 & He2).
      assert (e = aelt) by congruence. assert (e = belt) by congruence. subst aelt belt.
      unfold restores. rewrite (slice_one a best_i e He1), (slice_one b best_j e He2).
      unappend. rewrite !restore_keep_both. split; reflexivity.
    - apply bind_Ok in Hmiddle as (ops & _ & Hmiddle).
      destruct (fold_left tags_step ops ("", "")) as [atags btags].
      injection Hmiddle as <-. apply qformat_restore; assumption. }
  revert E. cbv zeta. destruct (PrimFloat.ltb (best_ratio st) 0.75).
  - destruct (eq_ij st) as [[eqi eqj]|] eqn:Eeq.
    + exact (Hsynch eqi eqj true Heqin (fun _ => Heq eqi eqj Eeq)).
    + apply plain_replace_restore; assumption.
  - destruct (best_ij st) as [[best_i best_j]|]; [|discriminate].
    refine (Hsynch best_i best_j false Hbest _). discriminate.
Qed.

Lemma compare_step_restore (depth : nat) (op : opcode) (g : list string) :
  tag_ok a b op -> compare_step a b depth op = Ok g ->
  restores a b g op.1.1.1.2 op.1.1.2 op.1.2 op.2.
Proof.
  destruct op as [[[[tg i1] i2] j1] j2]. cbn [fst snd].
  intros (Hi & Hla & Hj & Hlb & Htag). unfold compare_step. destruct tg.
  - apply fancy_replace_restore; assumption.
  - destruct Htag as [_ <-]. apply dump_removed, Hla.
  - destruct Htag as [<- _]. apply dump_added, Hlb.
  - destruct Htag as [_ Hsl]. rewrite dump_slice by exact Hla. intros [= <-].
    unfold restores. rewrite !restore_unchanged. split; [reflexivity|exact Hsl].
Qed.

Lemma compare_steps_restore (depth : nat) (ops : list opcode) :
  forall i j gs, covers a b i j ops -> mapM (compare_step a b depth) ops = Ok gs ->
    restore (concat gs) First = drop i a /\ restore (concat gs) Second = drop j b.
Proof.
  induction ops as [|[[[[tg i1] i2] j1] j2] ops IH]; intros i j gs.
  - intros [-> ->] [= <-]. rewrite !drop_all. split; reflexivity.
  - cbn [covers]. intros (-> & -> & Htag & Hc).
    intros (g & gs' & Hg & Hgs & ->)%mapM_cons_Ok.
    destruct (IH i2 j2 gs' Hc Hgs) as [IHa IHb].
    apply (compare_step_restore _ _ _ Htag) in Hg as [Hga Hgb]. cbn [fst snd] in Hga, Hgb.
    destruct Htag as (Hi & _ & Hj & _).
    cbn [concat]. rewrite !restore_app, Hga, Hgb, IHa, IHb.
    split; apply slice_drop; assumption.
Qed.

End Restore.

(** [restore] gives back the two sequences that [ndiff] compared. *)
Lemma ndiff_restore (depth : nat) (a b l : list string) :
  ndiff depth a b = Ok l -> restore l First = a /\ restore l Second = b.
Proof.
  unfold ndiff, compare. intros (ops & Hops%get_opcodes_cover & E)%bind_Ok.
  apply bind_Ok in E as (gs & Hgs & [= <-]).
  exact (compare_steps_restore a b depth ops 0 0 gs Hops Hgs).
Qed.

(** *** An empty side *)

Lemma slice_nonempty {T : Type} (l : list T) (lo hi : nat) :
  lo < hi -> hi <= length l -> slice l lo hi <> [].
Proof.
  intros Hlt Hhi E. apply (f_equal length) in E. unfold slice in E.
  rewrite length_take, length_drop in E. cbn [length] in E. lia.
Qed.

Lemma compare_steps_removed (depth : nat) (a : list string) (ops : list opcode) :
  forall i, covers a [] i 0 ops ->
    exists gs, mapM (compare_step a [] depth) ops = Ok gs
               /\ concat gs = map (fun t => "- " +:+ t) (drop i a).
Proof.
  induction ops as [|[[[[tg i1] i2] j1] j2] ops IH]; intros i.
  - intros [-> _]. exists []. rewrite drop_all. split; reflexivity.
  - cbn [covers]. intros (-> & -> & Htag & Hc).
    destruct Htag as (Hi & Hla & Hj & Hlb & Htag). cbn [length] in Hlb.
    assert (j2 = 0) as -> by lia.
    destruct (IH i2 Hc) as (gs & Hgs & Hcat). cbn [mapM].
    destruct tg; try (exfalso; lia).
    + change (compare_step a [] depth (delete, i, i2, 0, 0)) with (dump "-" a i i2).
      rewrite dump_slice by exact Hla.
      cbn [mbind result_bind]. rewrite Hgs. cbn [mbind result_bind].
      eexists. split; [reflexivity|]. cbn [concat].
      rewrite Hcat, <- (slice_drop a i i2 Hi), map_app. reflexivity.
    + destruct Htag as [Hlt Hsl]. destruct (slice_nonempty a i i2 Hlt Hla).
      rewrite Hsl. reflexivity.
Qed.

Lemma compare_steps_added (depth : nat) (b : list string) (ops : list opcode) :
  forall j, covers [] b 0 j ops ->
    exists gs, mapM (compare_step [] b depth) ops = Ok gs
               /\ concat gs = map (fun t => "+ " +:+ t) (drop j b).
Proof.
  induction ops as [|[[[[tg i1] i2] j1] j2] ops IH]; intros j.
  - intros [_ ->]. exists []. rewrite drop_all. split; reflexivity.
  - cbn [covers]. intros (-> & -> & Htag & Hc).
    destruct Htag as (Hi & Hla & Hj & Hlb & Htag). cbn [length] in Hla.
    assert (i2 = 0) as -> by lia.
    destruct (IH j2 Hc) as (gs & Hgs & Hcat). cbn [mapM].
    destruct tg; try (exfalso; lia).
    change (compare_step [] b depth (insert, 0, 0, j, j2)) with (dump "+" b j j2).
    rewrite dump_slice by exact Hlb.
    cbn [mbind result_bind]. rewrite Hgs. cbn [mbind result_bind].
    eexists. split; [reflexivity|]. cbn [concat].
    rewrite Hcat, <- (slice_drop b j j2 Hj), map_app. reflexivity.
Qed.

(** Against an empty list every token is removed, or every token is
    added; no call of [_fancy_replace] is made. *)
Lemma ndiff_nil_r (depth : nat) (a : list string) :
  ndiff depth a [] = Ok (map (fun t => "- " +:+ t) a).
Proof.
  unfold ndiff, compare.
  destruct (get_opcodes_total None a []) as (ops & Hops & _).
  rewrite Hops. cbn [mbind result_bind].
  destruct (compare_steps_removed depth a ops 0 (get_opcodes_cover _ _ _ _ Hops))
    as (gs & -> & Hcat).
  cbn [mbind result_bind]. rewrite Hcat. reflexivity.
Qed.

Lemma ndiff_nil_l (depth : nat) (b : list string) :
  ndiff depth [] b = Ok (map (fun t => "+ " +:+ t) b).
Proof.
  unfold ndiff, compare.
  destruct (get_opcodes_total None [] b) as (ops & Hops & _).
  rewrite Hops. cbn [mbind result_bind].
  destruct (compare_steps_added depth b ops 0 (get_opcodes_cover _ _ _ _ Hops))
    as (gs & -> & Hcat).
  cbn [mbind result_bind]. rewrite Hcat. reflexivity.
Qed.

End DifferRestore.

(** ** The sentence splitter, character by character *)

Module SentenceFacts.
Import App Spec MoreSpec PyStrMore.

Lemma all_space_append (s1 s2 : string) :
  all_space s1 -> all_space s2 -> all_space (s1 +:+ s2).
Proof.
  induction s1 as [|c s1 IH]; unappend; [auto|].
  intros [Hc H1] H2. split; [exact Hc|apply IH; assumption].
Qed.

(** [lstrip] takes whitespace off the left end, up to the first character
    that is none. *)
Lemma lstrip_parts (s : string) :
  exists l, s = l +:+ PyStr.lstrip s /\ all_space l /\ starts_nonspace (PyStr.lstrip s).
Proof.
  induction s as [|c s (l & Hs & Hl & Hn)].
  - exists "". split_and!; [reflexivity|exact I|exact I].
  - cbn [PyStr.lstrip]. destruct (PyStr.isspace c) eqn:Ec.
    + exists (String c l). unappend. rewrite <- Hs. split_and!; [reflexivity| |exact Hn].
      split; assumption.
    + exists "". split_and!; [reflexivity|exact I|exact Ec].
Qed.

(** [rstrip] takes whitespace off the right end, up to the last character
    that is none. *)
Lemma rstrip_parts (s : string) :
  exists r, s = PyStr.rstrip s +:+ r /\ all_space r /\ ends_nonspace (PyStr.rstrip s).
Proof.
  induction s as [|c s (r & Hs & Hr & Hn)].
  - exists "". split_and!; [reflexivity|exact I|exact I].
  - cbn [PyStr.rstrip]. cbv zeta.
    destruct (PyStr.isspace c) eqn:Ec; cbn [andb].
    + destruct (PyStr.rstrip s) as [|c' s'] eqn:Es; cbn [PyStr.is_empty].
      * rewrite append_nil_l in Hs. subst r. exists (String c s).
        rewrite append_nil_l. split_and!; [reflexivity| |exact I]. split; assumption.
      * exists r. unappend. split_and!; [|exact Hr|exact Hn].
        f_equal. rewrite Hs at 1. unappend. reflexivity.
    + exists r. unappend. split_and!; [f_equal; exact Hs|exact Hr|].
      cbn [ends_nonspace]. destruct (PyStr.rstrip s); [exact Ec|exact Hn].
Qed.

Lemma rstrip_starts (s : string) :
  starts_nonspace s -> starts_nonspace (PyStr.rstrip s).
Proof.
  destruct s as [|c s]; [auto|]. cbn [starts_nonspace PyStr.rstrip]. cbv zeta.
  intros Ec. rewrite Ec. exact Ec.
Qed.

(** [strip] gives the piece without the whitespace at its two ends. *)
Lemma strip_trim_of (p : string) : trim_of p (PyStr.strip p).
Proof.
  unfold PyStr.strip.
  destruct (lstrip_parts p) as (l & Hp & Hl & Hn).
  destruct (rstrip_parts (PyStr.lstrip p)) as (r & Hq & Hr & Hm).
  exists l, r. split_and!; [|exact Hl|exact Hr|apply rstrip_starts, Hn|exact Hm].
  rewrite <- Hq. exact Hp.
Qed.

Lemma strip_blank (p : string) : PyStr.strip p = "" -> all_space p.
Proof.
  intros E. destruct (strip_trim_of p) as (l & r & Hp & Hl & Hr & _).
  rewrite E, append_nil_l in Hp. rewrite Hp. apply all_space_append; assumption.
Qed.

(** The comprehension keeps every piece that is not blank, trimmed, in
    order. *)
Lemma sentences_kept (pieces : list string) :
  kept pieces
    (map PyStr.strip (filter (fun s => PyStr.truthy (PyStr.strip s) = true) pieces)).
Proof.
  induction pieces as [|p pieces IH]; [constructor|].
  rewrite filter_cons. destruct (PyStr.truthy (PyStr.strip p)) eqn:E.
  - rewrite decide_True by reflexivity. cbn [map]. apply kept_sentence.
    + apply strip_trim_of.
    + intros E'. rewrite E' in E. discriminate.
    + exact IH.
  - rewrite decide_False by discriminate. apply kept_blank; [|exact IH].
    apply strip_blank, PyStrFacts.truthy_false, E.
Qed.

(** [split('.')] gives the parts between the periods. *)
Lemma split_on_pieces (text : string) : pieces_of text (PyStr.split_on "." text).
Proof.
  unfold pieces_of, PyStr.split_on. split_and!.
  - apply DisplayMore.split_on_nonempty.
  - rewrite DisplayMore.join_split_on. apply append_nil_l.
  - apply DisplayMore.split_on_free. exact I.
Qed.

Lemma sentences_pieces (text : string) :
  exists pieces, pieces_of text pieces /\ kept pieces (sentences text).
Proof.
  exists (PyStr.split_on "." text). split; [apply split_on_pieces|apply sentences_kept].
Qed.

(** Conversely, the parts and the sentences are the only lists that
    answer these descriptions. *)
Lemma lstrip_all_space (l x : string) :
  all_space l -> PyStr.lstrip (l +:+ x) = PyStr.lstrip x.
Proof.
  induction l as [|c l IH]; unappend; [reflexivity|].
  intros [Hc Hl]. cbn [PyStr.lstrip]. rewrite Hc. apply IH, Hl.
Qed.

Lemma rstrip_all_space (r : string) : all_space r -> PyStr.rstrip r = "".
Proof.
  induction r as [|c r IH]; [reflexivity|]. intros [Hc Hr].
  cbn [PyStr.rstrip]. cbv zeta. rewrite (IH Hr), Hc. reflexivity.
Qed.

Lemma rstrip_core (s r : string) :
  ends_nonspace s -> all_space r -> PyStr.rstrip (s +:+ r) = s.
Proof.
  intros Hs Hr. induction s as [|c s IH]; unappend; [apply rstrip_all_space, Hr|].
  cbn [PyStr.rstrip]. cbv zeta. destruct s as [|c' s'].
  - rewrite append_nil_l, (rstrip_all_space r Hr).
    cbn [ends_nonspace] in Hs. rewrite Hs. reflexivity.
  - rewrite IH by exact Hs. rewrite andb_false_r. reflexivity.
Qed.

Lemma trim_of_strip (p s : string) : trim_of p s -> s = PyStr.strip p.
Proof.
  intros (l & r & -> & Hl & Hr & Hn & Hm). unfold PyStr.strip.
  rewrite (lstrip_all_space l _ Hl). destruct s as [|c s].
  - rewrite append_nil_l.
    rewrite <- (append_empty_r r) at 1. rewrite (lstrip_all_space r "" Hr).
    reflexivity.
  - unappend. cbn [PyStr.lstrip]. cbn [starts_nonspace] in Hn. rewrite Hn.
    rewrite <- append_cons. symmetry. apply rstrip_core; assumption.
Qed.

Lemma strip_all_space (p : string) : all_space p -> PyStr.strip p = "".
Proof.
  intros Hp. unfold PyStr.strip.
  rewrite <- (append_empty_r p). rewrite (lstrip_all_space p "" Hp). reflexivity.
Qed.

Lemma kept_unique (pieces ss : list string) :
  kept pieces ss ->
  ss = map PyStr.strip
         (filter (fun s => PyStr.truthy (PyStr.strip s) = true) pieces).
Proof.
  induction 1 as [|p ps ss Hp _ IH|p s ps ss Hp Hs _ IH]; [reflexivity| |].
  - rewrite filter_cons, (strip_all_space p Hp).
    rewrite decide_False by discriminate. exact IH.
  - apply trim_of_strip in Hp. subst s. rewrite filter_cons.
    destruct (PyStr.strip p) eqn:E; [congruence|].
    rewrite decide_True by reflexivity. cbn [map]. rewrite E, <- IH. reflexivity.
Qed.

Lemma split_on_free_piece (p : string) :
  free_of "." p ->
  forall w, PyStr.split_on_from "." w p = [w +:+ p].
Proof.
  induction p as [|c p IH]; intros Hp w; cbn [PyStr.split_on_from].
  - rewrite append_empty_r. reflexivity.
  - destruct Hp as [Hc Hp]. destruct (Ascii.eqb_spec c ".") as [->|_]; [congruence|].
    rewrite (IH Hp), append_assoc. reflexivity.
Qed.

Lemma split_on_piece_period (p rest : string) :
  free_of "." p ->
  forall w, PyStr.split_on_from "." w (p +:+ String "." rest)
            = (w +:+ p) :: PyStr.split_on_from "." "" rest.
Proof.
  induction p as [|c p IH]; intros Hp w; unappend; cbn [PyStr.split_on_from].
  - rewrite append_empty_r. reflexivity.
  - destruct Hp as [Hc Hp]. destruct (Ascii.eqb_spec c ".") as [->|_]; [congruence|].
    rewrite (IH Hp), append_assoc. reflexivity.
Qed.

Lemma split_on_join (ps : list string) :
  forall p w, Forall (free_of ".") (p :: ps) ->
    PyStr.split_on_from "." w (PyStr.join "." (p :: ps)) = (w +:+ p) :: ps.
Proof.
  induction ps as [|p' ps IH]; intros p w Hf.
  - cbn [PyStr.join]. apply split_on_free_piece. exact (Forall_inv Hf).
  - change (PyStr.join "." (p :: p' :: ps))
      with (p +:+ "." +:+ PyStr.join "." (p' :: ps)).
    unappend. rewrite split_on_piece_period by exact (Forall_inv Hf).
    rewrite (IH p' "" (Forall_inv_tail Hf)), append_nil_l. reflexivity.
Qed.

Lemma pieces_unique (text : string) (pieces : list string) :
  pieces_of text pieces -> pieces = PyStr.split_on "." text.
Proof.
  intros (Hne & <- & Hf). destruct pieces as [|p ps]; [congruence|].
  unfold PyStr.split_on. rewrite (split_on_join ps p "" Hf), append_nil_l.
  reflexivity.
Qed.

Lemma sentences_unique (text : string) (pieces ss : list string) :
  pieces_of text pieces -> kept pieces ss -> ss = sentences text.
Proof.
  intros Hp Hk. apply pieces_unique in Hp. subst pieces.
  exact (kept_unique _ _ Hk).
Qed.

End SentenceFacts.

(** ** The summary of a diff and the whole run *)

Module RunFacts.
Import App Spec MoreSpec PyStrMore DifferRestore.

Lemma startswith_head (c1 c2 : ascii) (p1 p2 d : string) :
  c1 <> c2 -> PyStr.startswith (String c1 p1) d = true ->
  PyStr.startswith (String c2 p2) d = false.
Proof.
  intros Hne. unfold PyStr.startswith. destruct d as [|c d]; [discriminate|].
  cbn [String.prefix]. destruct (ascii_dec c1 c), (ascii_dec c2 c);
    congruence.
Qed.

Lemma lines_with_cons (p d : string) (diff : list string) :
  lines_with p (d :: diff)
  = (if PyStr.startswith p d then [PyStr.drop 2 d] else []) ++ lines_with p diff.
Proof.
  unfold lines_with. rewrite filter_cons.
  destruct (PyStr.startswith p d).
  - rewrite decide_True by reflexivity. reflexivity.
  - rewrite decide_False by discriminate. reflexivity.
Qed.

Lemma restore_cons (d : string) (diff : list string) (which : side) :
  restore (d :: diff) which
  = (if PyStr.startswith "  " d || PyStr.startswith (side_tag which) d
     then [PyStr.drop 2 d] else []) ++ restore diff which.
Proof.
  destruct (_ || _) eqn:E.
  - apply restore_cons_keep, E.
  - apply restore_cons_skip, E.
Qed.

Lemma side_tag_head (which : side) :
  exists c, side_tag which = String c " " /\ c <> " "%char.
Proof. destruct which; eexists; (split; [reflexivity|discriminate]). Qed.

(** The loop of Agent 4 collects the tokens of the [+ ] lines and of the
    [- ] lines. *)
Lemma summary_fold (diff : list string) :
  forall st, fold_left summary_step diff st
             = (st.1 ++ lines_with "+ " diff, st.2 ++ lines_with "- " diff).
Proof.
  induction diff as [|d diff IH]; intros [added removed].
  - cbn. rewrite !app_nil_r. reflexivity.
  - cbn [fold_left]. rewrite IH, !lines_with_cons. unfold summary_step.
    destruct (PyStr.startswith "+ " d) eqn:Ep.
    + rewrite (startswith_head "+" "-" " " " " d ltac:(intro; discriminate) Ep).
      cbn [fst snd]. rewrite <- app_assoc. reflexivity.
    + destruct (PyStr.startswith "- " d); cbn [fst snd];
        rewrite <- ?app_assoc; reflexivity.
Qed.

(** The tokens of one side are the unchanged ones and the side's own. *)
Lemma restore_lines (which : side) (diff : list string) :
  lines_with (side_tag which) diff `sublist_of` restore diff which
  /\ length (restore diff which)
     = length (lines_with "  " diff) + length (lines_with (side_tag which) diff).
Proof.
  destruct (side_tag_head which) as (c & Hc & Hne).
  induction diff as [|d diff [IHs IHl]]; [split; [constructor|reflexivity]|].
  rewrite restore_cons, !lines_with_cons, !length_app, IHl.
  destruct (PyStr.startswith "  " d) eqn:Ek.
  - rewrite Hc in *. rewrite (startswith_head " " c " " " " d ltac:(congruence) Ek).
    cbn [orb app length]. split; [apply sublist_cons, IHs|lia].
  - cbn [orb]. destruct (PyStr.startswith (side_tag which) d).
    + cbn [app length]. split; [apply sublist_skip, IHs|lia].
    + cbn [app length]. split; [exact IHs|lia].
Qed.

Lemma restore_empty (which : side) (diff : list string) :
  restore diff which = [] ->
  lines_with "  " diff = [] /\ lines_with (side_tag which) diff = [].
Proof.
  intros E. destruct (restore_lines which diff) as [_ Hl]. rewrite E in Hl.
  cbn [length] in Hl. split; apply length_zero_iff_nil; lia.
Qed.

Lemma restore_no_unchanged (which : side) (diff : list string) :
  lines_with "  " diff = [] -> restore diff which = lines_with (side_tag which) diff.
Proof.
  induction diff as [|d diff IH]; [reflexivity|].
  rewrite restore_cons, !lines_with_cons.
  destruct (PyStr.startswith "  " d); [discriminate|].
  cbn [orb app]. intros E. rewrite (IH E). reflexivity.
Qed.

Lemma lines_with_unchanged (c : ascii) (X : list string) :
  c <> " "%char -> lines_with (String c " ") (map (fun t => "  " +:+ t) X) = [].
Proof.
  intros Hc. induction X as [|t X IH]; [reflexivity|].
  cbn [map]. rewrite lines_with_cons, IH. unappend.
  rewrite (startswith_head " " c " " " " (String " " (String " " t)));
    [reflexivity|congruence|destruct t; reflexivity].
Qed.

Lemma startswith_tag (c : ascii) (t : string) :
  PyStr.startswith (String c " ") (String c " " +:+ t) = true.
Proof.
  unappend. unfold PyStr.startswith. cbn [String.prefix].
  destruct (ascii_dec c c); [|congruence].
  destruct (ascii_dec " " " "); [|congruence]. destruct t; reflexivity.
Qed.

Lemma drop_tag (c : ascii) (t : string) : PyStr.drop 2 (String c " " +:+ t) = t.
Proof. unappend. reflexivity. Qed.

Lemma lines_with_tagged (c : ascii) (X : list string) :
  lines_with (String c " ") (map (fun t => String c " " +:+ t) X) = X.
Proof.
  induction X as [|t X IH]; [reflexivity|].
  cbn [map]. rewrite lines_with_cons, IH, startswith_tag, drop_tag. reflexivity.
Qed.

Lemma lines_with_other (c c' : ascii) (X : list string) :
  c <> c' -> lines_with (String c' " ") (map (fun t => String c " " +:+ t) X) = [].
Proof.
  intros Hc. induction X as [|t X IH]; [reflexivity|].
  cbn [map]. rewrite lines_with_cons, IH.
  rewrite (startswith_head c c' " " " " _ Hc (startswith_tag c t)). reflexivity.
Qed.

(** The loop that fills [diff_html], on lines of removed tokens and on
    lines of added tokens. *)
Lemma diff_html_removed (ws : list string) :
  forall acc, fold_left diff_html_step (map (fun t => "- " +:+ t) ws) acc
              = acc ++ map red ws.
Proof.
  induction ws as [|w ws IH]; intros acc; [cbn; rewrite app_nil_r; reflexivity|].
  cbn [map fold_left]. rewrite IH. unfold diff_html_step.
  rewrite (startswith_head "-" "+" " " " " _ ltac:(intro; discriminate)
             (startswith_tag "-" w)).
  rewrite (startswith_tag "-" w), (drop_tag "-" w), <- app_assoc. reflexivity.
Qed.

Lemma diff_html_added (ws : list string) :
  forall acc, fold_left diff_html_step (map (fun t => "+ " +:+ t) ws) acc
              = acc ++ map green ws.
Proof.
  induction ws as [|w ws IH]; intros acc; [cbn; rewrite app_nil_r; reflexivity|].
  cbn [map fold_left]. rewrite IH. unfold diff_html_step.
  rewrite (startswith_tag "+" w), (drop_tag "+" w), <- app_assoc. reflexivity.
Qed.

(** What a completed run has computed, field by field. *)
Lemma main_inv (depth : nat) (ocr_engine : page -> result string)
  (spelling : string -> string) (doc : document) (out : output) :
  main depth ocr_engine spelling doc = Ok out ->
  let raw_text := (extract_with_pymupdf doc).1 in
  let tilted_words := (extract_with_pymupdf doc).2 in
  (if PyStr.truthy raw_text then combined_text out = raw_text
   else ocr_attempt ocr_engine doc = Ok (combined_text out))
  /\ corrected_text out = correct_text spelling (combined_text out)
  /\ (exists diff,
        Difflib.ndiff depth (PyStr.split (combined_text out))
          (PyStr.split (corrected_text out)) = Ok diff
        /\ fold_left summary_step diff ([], []) = (added out, removed out))
  /\ agent_report out
     = [Agent1 (length (PyStr.split raw_text)) tilted_words;
        agent2_line (ocr_attempt ocr_engine doc);
        Agent3 (length (PyStr.split (corrected_text out)));
        Agent4 (added out) (removed out) tilted_words]
  /\ final_text_display out = highlight_tilted (corrected_text out) tilted_words
  /\ df_rows out
     = align (sentences (combined_text out)) (sentences (corrected_text out))
  /\ mapM (html_row depth tilted_words) (df_rows out) = Ok (html_rows out).
Proof.
  unfold main, ocr_attempt.
  destruct (extract_with_pymupdf doc) as [raw_text tilted_words]. cbn [fst snd].
  destruct (_ ≫= _) as [t| |] eqn:Eocr;
    intros (combined & Hsel & E)%MatcherSound.bind_Ok;
    apply MatcherSound.bind_Ok in E as (diff & Hdiff & E);
    destruct (fold_left summary_step diff ([], [])) as [ad rm] eqn:Esum;
    apply MatcherSound.bind_Ok in E as (rows & Hrows & [= <-]);
    cbn [combined_text corrected_text added removed agent_report
         final_text_display df_rows html_rows agent2_line];
    (split_and!; [|reflexivity|eauto|reflexivity|reflexivity|reflexivity|exact Hrows]);
    destruct (PyStr.truthy raw_text); congruence.
Qed.

(** A row of the detailed comparison answers, or stops with
    [RecursionError]; it answers when there is room for as many nested
    calls as its original side has words. *)
Lemma html_row_answers (depth : nat) (tilted_words : list string)
  (oc : string * string) :
  answers_or_recursion (fun _ => True) (html_row depth tilted_words oc).
Proof.
  destruct oc as [o c]. unfold html_row.
  eapply DifferTotal.answers_bind; [apply DifferTotal.ndiff_answers|].
  intros diff _. apply DifferTotal.answers_Ok. exact I.
Qed.

Lemma html_row_total (depth : nat) (tilted_words : list string)
  (oc : string * string) :
  length (PyStr.split oc.1) <= depth ->
  exists row, html_row depth tilted_words oc = Ok row.
Proof.
  destruct oc as [o c]. cbn [fst]. intros Hd. unfold html_row.
  destruct (DifferTotal.ndiff_total depth (PyStr.split o) (PyStr.split c) Hd)
    as (diff & -> & _).
  cbn [mbind result_bind]. eauto.
Qed.

Lemma align_room (depth : nat) (sa sb : list string) :
  Forall (fun o => length (PyStr.split o) <= depth) sa ->
  Forall (fun oc : string * string => length (PyStr.split oc.1) <= depth) (align sa sb).
Proof.
  intros Hsa. apply Forall_lookup. intros i [o c] Hi.
  rewrite DisplayFacts.align_lookup in Hi.
  case_bool_decide; [|discriminate]. injection Hi as <- <-. cbn [fst].
  destruct (sa !! i) as [o|] eqn:E; cbn [default from_option].
  - exact (Forall_lookup_1 _ _ _ _ Hsa E).
  - cbn. lia.
Qed.

(** Once a text is selected, the rest of the run completes or stops with
    [RecursionError]; it completes when there is room for the text. *)
Lemma run_from_selection_answers (depth : nat) (spelling : string -> string)
  (tilted_words : list string) (report : list report_line) (combined : string) :
  answers_or_recursion (fun out => combined_text out = combined)
    (run_from_selection depth spelling tilted_words report combined).
Proof.
  unfold run_from_selection. cbv zeta.
  eapply DifferTotal.answers_bind; [apply DifferTotal.ndiff_answers|].
  intros diff _. destruct (fold_left summary_step diff ([], [])) as [ad rm].
  eapply DifferTotal.answers_bind.
  { apply DifferTotal.mapM_answers, Forall_forall. intros oc _.
    apply html_row_answers. }
  intros rows _. apply DifferTotal.answers_Ok. reflexivity.
Qed.

Lemma run_from_selection_total (depth : nat) (spelling : string -> string)
  (tilted_words : list string) (report : list report_line) (combined : string) :
  room_for depth combined ->
  exists out,
    run_from_selection depth spelling tilted_words report combined = Ok out
    /\ combined_text out = combined.
Proof.
  intros [Hd Hs]. unfold run_from_selection. cbv zeta.
  destruct (DifferTotal.ndiff_total depth (PyStr.split combined)
              (PyStr.split (correct_text spelling combined)) Hd) as (diff & -> & _).
  cbn [mbind result_bind].
  destruct (fold_left summary_step diff ([], [])) as [ad rm].
  destruct (DifferTotal.mapM_total (html_row depth tilted_words) (fun _ => True)
              (align (sentences combined)
                 (sentences (correct_text spelling combined))))
    as (rows & -> & _).
  { eapply Forall_impl; [apply (align_room depth), Hs|].
    intros oc Hoc. destruct (html_row_total depth tilted_words oc Hoc) as [row ->].
    eauto. }
  cbn [mbind result_bind]. eexists. split; reflexivity.
Qed.

(** The report so far goes through the rest of the run unread. *)
Lemma run_from_selection_report (depth : nat) (spelling : string -> string)
  (tilted_words : list string) (report : list report_line) (combined : string)
  (out : output) :
  run_from_selection depth spelling tilted_words report combined = Ok out ->
  exists l3 l4,
    agent_report out = report ++ [l3; l4]
    /\ forall report',
         run_from_selection depth spelling tilted_words report' combined
         = Ok (Output (report' ++ [l3; l4]) (combined_text out) (corrected_text out)
                 (added out) (removed out) (final_text_display out)
                 (df_rows out) (html_rows out)).
Proof.
  unfold run_from_selection. cbv zeta.
  intros (diff & Hdiff & E)%MatcherSound.bind_Ok. rewrite Hdiff.
  cbn [mbind result_bind].
  destruct (fold_left summary_step diff ([], [])) as [ad rm].
  apply MatcherSound.bind_Ok in E as (rows & Hrows & [= <-]). rewrite Hrows.
  cbn [mbind result_bind agent_report combined_text corrected_text added removed
       final_text_display df_rows html_rows].
  eexists _, _. split; [rewrite <- app_assoc; reflexivity|].
  intros report'. rewrite <- app_assoc. reflexivity.
Qed.

Lemma run_from_selection_raise (depth : nat) (spelling : string -> string)
  (tilted_words : list string) (report report' : list report_line)
  (combined : string) (e : exn) :
  run_from_selection depth spelling tilted_words report combined = Raise e ->
  run_from_selection depth spelling tilted_words report' combined = Raise e.
Proof.
  unfold run_from_selection. cbv zeta.
  destruct (Difflib.ndiff _ _ _) as [diff| |]; cbn [mbind result_bind]; [|auto..].
  destruct (fold_left summary_step diff ([], [])) as [ad rm].
  destruct (mapM _ _) as [rows| |]; cbn [mbind result_bind]; [discriminate|auto..].
Qed.

(** With a selected text, the script is the rest of the run on it. *)
Lemma main_selected (depth : nat) (ocr_engine : page -> result string)
  (spelling : string -> string) (doc : document) (selected : string) :
  selects ocr_engine doc selected ->
  main depth ocr_engine spelling doc
  = run_from_selection depth spelling (extract_with_pymupdf doc).2
      [Agent1 (length (PyStr.split (extract_with_pymupdf doc).1))
         (extract_with_pymupdf doc).2;
       agent2_line (ocr_attempt ocr_engine doc)]
      selected.
Proof.
  unfold selects, main, ocr_attempt.
  destruct (extract_with_pymupdf doc) as [raw_text tilted_words]. cbn [fst snd].
  destruct (_ ≫= _) as [t| |] eqn:Eocr; intros [[Hraw ->]|[Hraw E]];
    rewrite Hraw; try discriminate; try reflexivity.
  injection E as ->. reflexivity.
Qed.

Lemma align_same (sa : list string) :
  Forall (fun oc : string * string => oc.1 = oc.2) (align sa sa).
Proof.
  apply Forall_lookup. intros i [o c] Hi. rewrite DisplayFacts.align_lookup in Hi.
  case_bool_decide; [|discriminate]. injection Hi as <- <-. reflexivity.
Qed.

End RunFacts.

(** ** Properties of the script *)

Module Properties.
Import App Spec MoreSpec.

Lemma bind_Ok_inv {S T : Type} (r : result S) (k : S -> result T) (y : T) :
  r ≫= k = Ok y -> exists x, r = Ok x /\ k x = Ok y.
Proof. destruct r as [x| |]; simpl; intros E; [eauto|discriminate..]. Qed.

Lemma ndiff_nil (depth : nat) : Difflib.ndiff depth [] [] = Ok [].
Proof. exact (DifferFacts.ndiff_same depth []). Qed.

Lemma summary_unchanged (X : list string) (st : list string * list string) :
  fold_left summary_step (map render (map Unchanged X)) st = st.
Proof.
  revert st. induction X as [|t X IH]; intros [added removed]; [reflexivity|].
  cbn [map fold_left]. rewrite <- (IH (added, removed)) at 2. reflexivity.
Qed.

Lemma sentences_spec (text s : string) :
  s ∈ sentences text <->
  exists piece, piece ∈ PyStr.split_on "." text /\ s = PyStr.strip piece /\ s <> "".
Proof.
  unfold sentences. rewrite list_elem_of_fmap. split.
  - intros (piece & -> & Hp). apply list_elem_of_filter in Hp as [Ht Hp].
    exists piece. split_and!; [exact Hp|reflexivity|].
    intros E. rewrite E in Ht. discriminate.
  - intros (piece & Hp & -> & Hne). exists piece. split; [reflexivity|].
    apply list_elem_of_filter. split; [|exact Hp].
    destruct (PyStr.strip piece); [congruence|reflexivity].
Qed.

(** What a completed run has computed. *)
Lemma main_Ok (depth : nat) (ocr_engine : page -> result string)
  (spelling : string -> string) (doc : document) (out : output) :
  main depth ocr_engine spelling doc = Ok out ->
  corrected_text out = correct_text spelling (combined_text out)
  /\ final_text_display out
     = highlight_tilted (corrected_text out) (extract_with_pymupdf doc).2
  /\ df_rows out
     = align (sentences (combined_text out)) (sentences (corrected_text out)).
Proof.
  unfold main. destruct (extract_with_pymupdf doc) as [raw_text tilted_words].
  destruct (_ ≫= _) as [t| |];
    intros (combined & _ & E)%bind_Ok_inv;
    apply bind_Ok_inv in E as (diff & _ & E);
    destruct (fold_left summary_step diff ([], [])) as [added removed];
    apply bind_Ok_inv in E as (rows & _ & [= <-]); auto.
Qed.

(** *** The OCR fallback *)

(** With embedded text, a failing OCR step is recorded and the run goes on. *)
Example ocr_failure_recorded (depth : nat) :
  exists out,
    main (S depth) ocr_unavailable helo_to_hello helo_world = Ok out
    /\ agent_report out
       = [Agent1 2 ["Helo"]; Agent2Failed; Agent3 2; Agent4 ["Hello"] ["Helo"] ["Helo"]]
    /\ combined_text out = "Helo world.".
Proof. eexists. split; [vm_compute; reflexivity|]. split; reflexivity. Qed.

(** C1. The claim asks that a failing OCR step leaves an empty OCR text and
    that the run completes with it. The script does not do that: the
    [except] branch records the failure and binds nothing, so when the
    embedded text is empty too, reading [ocr_text] stops the run with a
    [NameError]. *)
Theorem ocr_failure_leaves_text_unbound
  (depth : nat) (ocr_engine : page -> result string) (spelling : string -> string)
  (doc : document) :
  (extract_with_pymupdf doc).1 = "" ->
  (forall t, (pg ← getitem doc 0; extract_with_ocr ocr_engine pg) <> Ok t) ->
  main depth ocr_engine spelling doc = Raise (NameError "ocr_text").
Proof.
  intros Hraw Hocr. unfold main.
  destruct (extract_with_pymupdf doc) as [raw_text tilted_words].
  simpl in Hraw. subst raw_text.
  destruct (_ ≫= _) as [t| |]; [destruct (Hocr t eq_refl)|reflexivity..].
Qed.

Lemma ocr_failure_leaves_text_unbound_witness :
  main example_depth ocr_unavailable helo_to_hello blank_page
  = Raise (NameError "ocr_text").
Proof.
  apply ocr_failure_leaves_text_unbound; [reflexivity|].
  intros t. discriminate.
Defined.

(** *** The span extractor *)

(** C2, as the claim states it, fails: two tilted spans that hold the same
    word put it twice among the tilted words. *)
Lemma tilted_words_repeat : ~ NoDup (extract_with_pymupdf bad_twice).2.
Proof.
  assert (E : (extract_with_pymupdf bad_twice).2 = ["bad"; "bad"])
    by (vm_compute; reflexivity).
  rewrite E. intros Hd. apply NoDup_cons in Hd as [Hn _].
  apply Hn. left.
Qed.

(** C2, amended. The tilted words are a list: the words of every tilted
    span, in document order, each as often as it occurs there; a string is
    in the list exactly when some tilted span has it as a word. *)
Theorem tilted_words_in_document_order (doc : document) :
  (extract_with_pymupdf doc).2 = flat_map tilted_words_of (spans_of doc)
  /\ forall w, w ∈ (extract_with_pymupdf doc).2 <->
        exists sp, sp ∈ spans_of doc /\ is_tilted sp = true /\ w ∈ span_words sp.
Proof.
  split.
  - apply ExtractFacts.extract_tilted.
  - apply ExtractFacts.elem_of_tilted.
Qed.


(** *** The diff engine *)

(** C3. The claim asks that nothing but unchanged, added and removed tokens
    appears in a diff. The script does not ensure it: for two similar words
    [ndiff] also emits an intraline hint, which is the line of no token, and
    the loop over a sentence pair renders it like an unchanged token. *)
Theorem hint_line_rendered_as_token (depth : nat) :
  Difflib.ndiff (S depth) ["Helo"; "world"] ["Hello"; "world"]
  = Ok [render (Removed "Helo"); render (Added "Hello"); hint_plus;
        render (Unchanged "world")]
  /\ is_entry ["Helo"; "world"; "Hello"; "world"] hint_plus = false
  /\ html_row (S depth) [] ("Helo world", "Hello world")
     = Ok ("<p><b>Original:</b> Helo world<br><b>Corrected:</b> Hello world"
           +:+ "<br><b>Diff:</b> <span style='color:red'>Helo</span> "
           +:+ "<span style='color:green'>Hello</span> "
           +:+ PyStr.drop 2 hint_plus +:+ " world</p><hr>").
Proof. split_and!; vm_compute; reflexivity. Qed.

(** C5. The diff of [a b c] and [a c d] is: [a] unchanged, [b] removed,
    [c] unchanged, [d] added, in this order. *)
Theorem ndiff_abc_acd (depth : nat) :
  Difflib.ndiff depth ["a"; "b"; "c"] ["a"; "c"; "d"]
  = Ok (map render [Unchanged "a"; Removed "b"; Unchanged "c"; Added "d"]).
Proof. vm_compute. reflexivity. Qed.

(** C6. The diff of any token sequence with itself has one entry per
    token, all unchanged, and leaves the lists of added and removed tokens
    empty. *)
Theorem ndiff_self_unchanged (depth : nat) (X : list string) :
  Difflib.ndiff depth X X = Ok (map render (map Unchanged X))
  /\ fold_left summary_step (map render (map Unchanged X)) ([], []) = ([], []).
Proof.
  split.
  - rewrite DifferFacts.ndiff_same, map_map. reflexivity.
  - apply summary_unchanged.
Qed.

(** *** The sentence aligner *)

(** C7. The sentences of a text are its parts between periods, each
    without the whitespace at its two ends, in order and as often as they
    occur; the parts of whitespace only are left out; and they are the
    only list of which this is true. The aligner has as
    many pairs as the longer of the two sentence lists; pair [i] holds
    sentence [i] of each list, or the empty string past the end of the
    shorter one. [One. Two.] against [One. Two. Three.] gives the three
    pairs of the example; a sentence that occurs twice is kept twice, and
    blanks around a sentence and after the last period are dropped. *)
Theorem sentence_aligner_pads_and_pairs (original corrected : string) :
  let A := sentences original in
  let B := sentences corrected in
  (forall text,
     (exists pieces, pieces_of text pieces /\ kept pieces (sentences text))
     /\ (forall pieces ss, pieces_of text pieces -> kept pieces ss ->
           ss = sentences text))
  /\ length (align A B) = Nat.max (length A) (length B)
  /\ (forall i, align A B !! i
               = if bool_decide (i < Nat.max (length A) (length B))
                 then Some (default "" (A !! i), default "" (B !! i))
                 else None)
  /\ align (sentences "One. Two.") (sentences "One. Two. Three.")
     = [("One", "One"); ("Two", "Two"); ("", "Three")]
  /\ sentences " One .Two two.  One . " = ["One"; "Two two"; "One"]
  /\ align (sentences "A . B. A. ") (sentences " A.")
     = [("A", "A"); ("B", ""); ("A", "")].
Proof.
  intros A B. split_and!.
  - intros text. split; [apply SentenceFacts.sentences_pieces|].
    apply SentenceFacts.sentences_unique.
  - apply DisplayFacts.align_length.
  - intros i. apply DisplayFacts.align_lookup.
  - vm_compute. reflexivity.
  - vm_compute. reflexivity.
  - vm_compute. reflexivity.
Qed.

(** *** The tilt highlighter *)


(** *** The whole run *)

(** C9. When the embedded text is empty and OCR reads the empty string,
    the selected text is empty and the run completes: the corrected text is
    empty, the diff has no entry, there is no sentence and no sentence
    pair. *)
Theorem empty_text_degenerates
  (depth : nat) (ocr_engine : page -> result string) (spelling : string -> string)
  (doc : document) :
  (extract_with_pymupdf doc).1 = "" ->
  (pg ← getitem doc 0; extract_with_ocr ocr_engine pg) = Ok "" ->
  let tilted_words := (extract_with_pymupdf doc).2 in
  main depth ocr_engine spelling doc
  = Ok (Output [Agent1 0 tilted_words; Agent2 0; Agent3 0; Agent4 [] [] tilted_words]
          "" "" [] [] "" [] [])
  /\ correct_text spelling "" = ""
  /\ Difflib.ndiff depth (PyStr.split "") (PyStr.split "") = Ok []
  /\ sentences "" = []
  /\ align (sentences "") (sentences "") = [].
Proof.
  intros Hraw Hocr tilted_words. split_and!; try reflexivity.
  subst tilted_words. unfold main.
  destruct (extract_with_pymupdf doc) as [raw_text tw].
  simpl in Hraw. subst raw_text. rewrite Hocr.
  cbn [PyStr.truthy PyStr.is_empty negb mbind result_bind].
  change (correct_text spelling "") with "".
  change (PyStr.split "") with (@nil string).
  rewrite ndiff_nil. reflexivity.
Qed.

Lemma empty_text_degenerates_witness :
  let tilted_words := (extract_with_pymupdf blank_page).2 in
  main example_depth ocr_reads_nothing helo_to_hello blank_page
  = Ok (Output [Agent1 0 tilted_words; Agent2 0; Agent3 0; Agent4 [] [] tilted_words]
          "" "" [] [] "" [] [])
  /\ correct_text helo_to_hello "" = ""
  /\ Difflib.ndiff example_depth (PyStr.split "") (PyStr.split "") = Ok []
  /\ sentences "" = []
  /\ align (sentences "") (sentences "") = [].
Proof.
  apply (empty_text_degenerates example_depth ocr_reads_nothing helo_to_hello
           blank_page);
    reflexivity.
Defined.

(** C10, as the claim states it, fails in its last part: a tilted word
    that the corrector respells is still marked when its new spelling is
    itself a word of a tilted span. With [Helo] and [Hello] both tilted
    and [Helo] corrected to [Hello], both tokens of the final display are
    marked. *)
Lemma respelled_word_still_marked :
  exists out,
    main example_depth ocr_unavailable helo_to_hello helo_hello = Ok out
    /\ "Helo" ∈ (extract_with_pymupdf helo_hello).2
    /\ helo_to_hello "Helo" = "Hello"
    /\ combined_text out = "Helo Hello"
    /\ corrected_text out = "Hello Hello"
    /\ final_text_display out = mark "Hello" +:+ " " +:+ mark "Hello".
Proof.
  eexists. split; [vm_compute; reflexivity|].
  split_and!; try reflexivity.
  change ((extract_with_pymupdf helo_hello).2) with ["Helo"; "Hello"]. left.
Qed.

(** C10, amended. In a completed run the final display is the highlighted
    corrected text, and the highlighter is given the words collected from
    the tilted spans of the original document: a token of the corrected
    text is marked exactly when some tilted span of the document has that
    very string as a word, and is shown unmarked otherwise. So a tilted
    word that the corrector respells, such as [Helo] into [Hello], is no
    longer marked unless its new spelling is itself a word of a tilted
    span. *)
Theorem final_display_keyed_to_original
  (depth : nat) (ocr_engine : page -> result string) (spelling : string -> string)
  (doc : document) (out : output) :
  main depth ocr_engine spelling doc = Ok out ->
  let tilted_words := (extract_with_pymupdf doc).2 in
  corrected_text out = correct_text spelling (combined_text out)
  /\ final_text_display out
     = PyStr.join " " (map (shown tilted_words) (PyStr.split (corrected_text out)))
  /\ (forall w, shown tilted_words w = mark w <->
        exists sp, sp ∈ spans_of doc /\ is_tilted sp = true /\ w ∈ span_words sp)
  /\ (forall w, shown tilted_words w = mark w \/ shown tilted_words w = w).
Proof.
  intros Hrun tilted_words.
  destruct (main_Ok _ _ _ _ _ Hrun) as (Hc & Hf & _). split_and!.
  - exact Hc.
  - rewrite Hf. apply DisplayFacts.highlight_map.
  - intros w. rewrite DisplayFacts.shown_mark.
    apply ExtractFacts.elem_of_tilted.
  - intros w. unfold shown. destruct (bool_decide _); auto.
Qed.

Lemma final_display_keyed_to_original_witness :
  exists out,
    main example_depth ocr_unavailable helo_to_hello helo_world = Ok out
    /\ final_text_display out = "Hello world."
    /\ shown (extract_with_pymupdf helo_world).2 "Helo" = mark "Helo"
    /\ (let tilted_words := (extract_with_pymupdf helo_world).2 in
        corrected_text out = correct_text helo_to_hello (combined_text out)
        /\ final_text_display out
           = PyStr.join " " (map (shown tilted_words) (PyStr.split (corrected_text out)))
        /\ (forall w, shown tilted_words w = mark w <->
              exists sp, sp ∈ spans_of helo_world /\ is_tilted sp = true
                         /\ w ∈ span_words sp)
        /\ (forall w, shown tilted_words w = mark w \/ shown tilted_words w = w)).
Proof.
  eexists. split; [vm_compute; reflexivity|].
  split; [reflexivity|]. split; [reflexivity|].
  apply (final_display_keyed_to_original example_depth ocr_unavailable
           helo_to_hello helo_world).
  vm_compute. reflexivity.
Defined.

End Properties.

(** ** Further properties of the script *)

Module Coverage.
Import App Spec MoreSpec.

(** *** The span extractor *)

(** X1. The text that the span extractor returns is the stripped texts of
    the spans that have any, in document order, joined by single spaces;
    each of them is non-empty and neither starts nor ends with
    whitespace. Spans without text, blank spans, lines without spans and
    blocks without lines add nothing. *)
Theorem extracted_text_joins_span_texts (doc : document) :
  let texts :=
    map span_text (filter (fun sp => nonblank sp = true) (spans_of doc)) in
  (extract_with_pymupdf doc).1 = PyStr.join " " texts
  /\ Forall (fun s => s <> "" /\ trimmed s) texts.
Proof.
  split; [apply ExtractMore.extract_text|apply ExtractMore.span_text_trimmed].
Qed.

(** X2. The words of the extracted text are the words of the spans, in
    document order: joining the spans neither merges nor splits a word,
    and every word is non-empty and free of whitespace. *)
Theorem extracted_words_are_span_words (doc : document) :
  PyStr.split (extract_with_pymupdf doc).1 = flat_map span_words (spans_of doc)
  /\ Forall is_word (PyStr.split (extract_with_pymupdf doc).1).
Proof.
  split; [apply ExtractMore.extract_words|apply PyStrMore.split_words].
Qed.

(** X3. The tilted words are a subsequence of the words of the extracted
    text: every tilted word is a word of the text, and they come in the
    same order. *)
Theorem tilted_words_are_text_words (doc : document) :
  (extract_with_pymupdf doc).2 `sublist_of` PyStr.split (extract_with_pymupdf doc).1.
Proof.
  rewrite ExtractFacts.extract_tilted, ExtractMore.extract_words.
  apply ExtractMore.tilted_sublist.
Qed.

(** X4. Extraction goes page by page: the words and the tilted words of
    two documents put together are those of the first followed by those
    of the second. *)
Theorem extraction_is_page_additive (doc1 doc2 : document) :
  PyStr.split (extract_with_pymupdf (doc1 ++ doc2)).1
  = PyStr.split (extract_with_pymupdf doc1).1
    ++ PyStr.split (extract_with_pymupdf doc2).1
  /\ (extract_with_pymupdf (doc1 ++ doc2)).2
     = (extract_with_pymupdf doc1).2 ++ (extract_with_pymupdf doc2).2.
Proof.
  rewrite !ExtractMore.extract_words, !ExtractFacts.extract_tilted.
  unfold spans_of. rewrite !flat_map_app. split; reflexivity.
Qed.

(** X5. A document in which no span is tilted, for instance because the
    spans carry no angle, has no tilted word, and the highlighter given
    its tilted words marks nothing: it returns the words of the text
    joined by single spaces. *)
Theorem untilted_document_has_no_mark (doc : document) :
  Forall (fun sp => is_tilted sp = false) (spans_of doc) ->
  (extract_with_pymupdf doc).2 = []
  /\ forall text,
       highlight_tilted text (extract_with_pymupdf doc).2
       = PyStr.join " " (PyStr.split text).
Proof.
  intros Hsp.
  assert (Htw : (extract_with_pymupdf doc).2 = []).
  { rewrite ExtractFacts.extract_tilted.
    induction Hsp as [|sp sps Hsp _ IH]; [reflexivity|].
    cbn [flat_map]. rewrite IH. unfold tilted_words_of. rewrite Hsp. reflexivity. }
  split; [exact Htw|]. intros text. rewrite Htw, DisplayFacts.highlight_map.
  rewrite DisplayMore.shown_plain; [reflexivity|].
  apply Forall_forall. intros w _. apply not_elem_of_nil.
Qed.

Lemma untilted_document_has_no_mark_witness :
  (extract_with_pymupdf plain_doc).2 = []
  /\ forall text,
       highlight_tilted text (extract_with_pymupdf plain_doc).2
       = PyStr.join " " (PyStr.split text).
Proof.
  apply (untilted_document_has_no_mark plain_doc).
  vm_compute. repeat constructor.
Defined.

(** *** The highlighter *)

(** X6. When no word of the text is a tilted word, the highlighter only
    normalises whitespace: it returns the words joined by single spaces,
    and splitting its result gives the words of the text back. *)
Theorem highlight_without_tilted_word (text : string) (tilted_words : list string) :
  Forall (fun w => w ∉ tilted_words) (PyStr.split text) ->
  highlight_tilted text tilted_words = PyStr.join " " (PyStr.split text)
  /\ PyStr.split (highlight_tilted text tilted_words) = PyStr.split text.
Proof.
  intros Hw.
  assert (E : highlight_tilted text tilted_words = PyStr.join " " (PyStr.split text)).
  { rewrite DisplayFacts.highlight_map, DisplayMore.shown_plain by exact Hw.
    reflexivity. }
  split; [exact E|]. rewrite E. apply PyStrMore.split_join, PyStrMore.split_words.
Qed.

Lemma highlight_without_tilted_word_witness :
  highlight_tilted " big   world " ["bad"] = PyStr.join " " (PyStr.split " big   world ")
  /\ PyStr.split (highlight_tilted " big   world " ["bad"]) = PyStr.split " big   world ".
Proof.
  apply (highlight_without_tilted_word " big   world " ["bad"]).
  vm_compute. repeat constructor; intros Hin; inversion Hin as [|? ? ? Hin']; inversion Hin'.
Defined.

(** *** Sentences and their table *)

(** X7. Every sentence of the sentence splitter is non-empty, neither
    starts nor ends with whitespace, and holds no period. *)
Theorem sentences_are_trimmed_without_period (text : string) :
  Forall (fun s => s <> "" /\ trimmed s /\ free_of "." s) (sentences text).
Proof. apply DisplayMore.sentences_shape. Qed.

(** X8. The sentence table keeps the sentences: the non-empty entries of
    its first column are the sentences of the first text, those of its
    second column the sentences of the second text, in order; and no row
    is empty on both sides. *)
Theorem sentence_table_keeps_sentences (original corrected : string) :
  let rows := align (sentences original) (sentences corrected) in
  filter (fun s : string => s <> "") rows.*1 = sentences original
  /\ filter (fun s : string => s <> "") rows.*2 = sentences corrected
  /\ Forall (fun oc => oc.1 <> "" \/ oc.2 <> "") rows.
Proof.
  apply DisplayMore.align_nonempty.
  - eapply Forall_impl; [apply DisplayMore.sentences_shape|]. intros s [Hs _]. exact Hs.
  - eapply Forall_impl; [apply DisplayMore.sentences_shape|]. intros s [Hs _]. exact Hs.
Qed.

(** *** The corrector *)

(** X9. The tokens of the corrector, put together, are the text: no
    character is lost between them. So a spelling engine that keeps every
    token of a text keeps the text, whitespace and punctuation
    included. *)
Theorem corrector_keeps_known_text (spelling : string -> string) (text : string) :
  Forall (fun w => spelling w = w) (TextBlob.regexp_tokenize text) ->
  PyStr.join "" (TextBlob.regexp_tokenize text) = text
  /\ correct_text spelling text = text.
Proof.
  intros Hw. split; [apply DisplayMore.tokenize_join|].
  apply DisplayMore.correct_fixed, Hw.
Qed.

Lemma corrector_keeps_known_text_witness :
  PyStr.join "" (TextBlob.regexp_tokenize "Hello,  big world.") = "Hello,  big world."
  /\ correct_text helo_to_hello "Hello,  big world." = "Hello,  big world.".
Proof.
  apply (corrector_keeps_known_text helo_to_hello "Hello,  big world.").
  vm_compute. repeat constructor.
Defined.

(** *** The comparison *)

(** X10. Consumed to its end, the comparison of two token lists answers
    or stops with [RecursionError], when the calls of [_fancy_replace]
    nest deeper than the interpreter allows; it answers whenever there is
    room for as many nested calls as the first list has tokens. When it
    answers it loses nothing: the lines that start with two blanks or
    with [- ], without these two characters, are the first list, and
    those that start with two blanks or with [+ ] are the second list,
    as [difflib.restore] reads them. With room for one call only, two
    respelt words in a row already stop it. *)
Theorem ndiff_restores_both_sides (depth : nat) (a b : list string) :
  answers_or_recursion
    (fun diff => restore diff First = a /\ restore diff Second = b)
    (Difflib.ndiff depth a b)
  /\ (length a <= depth ->
      exists diff,
        Difflib.ndiff depth a b = Ok diff
        /\ restore diff First = a /\ restore diff Second = b)
  /\ Difflib.ndiff 1 ["Helo"; "Helo"] ["Hello"; "Hello"] = Raise RecursionError.
Proof.
  split_and!.
  - destruct (DifferTotal.ndiff_answers depth a b) as [(diff & Hdiff & _)|Hrec];
      [left|right; exact Hrec].
    exists diff. split; [exact Hdiff|].
    exact (DifferRestore.ndiff_restore depth a b diff Hdiff).
  - intros Hd. destruct (DifferTotal.ndiff_total depth a b Hd) as (diff & Hdiff & _).
    exists diff. split; [exact Hdiff|].
    exact (DifferRestore.ndiff_restore depth a b diff Hdiff).
  - vm_compute. reflexivity.
Qed.

(** X11. The opcodes of the sequence comparison tile the two lists: each
    starts where the one before it ends, in both lists, from the start
    to the ends; a replacement is non-empty on both sides, a deletion
    and an insertion on one side only, and an equal range holds the same
    tokens in both lists. *)
Theorem opcodes_tile_both_sequences (isjunk : option (string -> bool))
  (a b : list string) :
  exists ops,
    Difflib.get_opcodes isjunk a b = Ok ops /\ covers a b 0 0 ops.
Proof.
  destruct (MatcherTotal.get_opcodes_total isjunk a b) as (ops & Hops & _).
  exists ops. split; [exact Hops|]. exact (MatcherCover.get_opcodes_cover isjunk a b ops Hops).
Qed.

(** X12. The matching blocks of the sequence comparison are real matches
    inside the two lists, every block ends before the next one starts in
    both lists, and the last block is the empty one at the two ends. *)
Theorem matching_blocks_are_ordered_matches (isjunk : option (string -> bool))
  (a b : list string) :
  exists blocks,
    Difflib.get_matching_blocks isjunk a b = Ok blocks /\ blocks_ok a b blocks.
Proof.
  destruct (MatcherTotal.get_matching_blocks_total isjunk a b) as (blocks & Hb & _).
  exists blocks. split; [exact Hb|]. exact (MatcherCover.get_matching_blocks_ok isjunk a b blocks Hb).
Qed.

(** X13. Against an empty list the comparison has one line for each
    token and no other: all tokens are removed when the second list is
    empty, all are added when the first is, and the summary of Agent 4
    holds them in order. *)
Theorem diff_against_nothing (depth : nat) (a : list string) :
  Difflib.ndiff depth a [] = Ok (map (fun t => "- " +:+ t) a)
  /\ fold_left summary_step (map (fun t => "- " +:+ t) a) ([], []) = ([], a)
  /\ Difflib.ndiff depth [] a = Ok (map (fun t => "+ " +:+ t) a)
  /\ fold_left summary_step (map (fun t => "+ " +:+ t) a) ([], []) = (a, []).
Proof.
  split_and!.
  - apply DifferRestore.ndiff_nil_r.
  - rewrite RunFacts.summary_fold.
    rewrite (RunFacts.lines_with_tagged "-"), (RunFacts.lines_with_other "-" "+")
      by discriminate.
    reflexivity.
  - apply DifferRestore.ndiff_nil_l.
  - rewrite RunFacts.summary_fold.
    rewrite (RunFacts.lines_with_tagged "+"), (RunFacts.lines_with_other "+" "-")
      by discriminate.
    reflexivity.
Qed.

(** X14. A row of the detailed comparison whose corrected side is empty,
    as the padding makes it when the original text has more sentences,
    shows every word of the original sentence as removed; a row whose
    original side is empty shows every word of the corrected sentence as
    added. *)
Theorem padded_rows_are_all_removed_or_added (depth : nat)
  (tilted_words : list string) (s : string) :
  html_row depth tilted_words (s, "")
  = Ok ("<p><b>Original:</b> " +:+ highlight_tilted s tilted_words
        +:+ "<br><b>Corrected:</b> "
        +:+ "<br><b>Diff:</b> " +:+ PyStr.join " " (map red (PyStr.split s))
        +:+ "</p><hr>")
  /\ html_row depth tilted_words ("", s)
     = Ok ("<p><b>Original:</b> "
           +:+ "<br><b>Corrected:</b> " +:+ highlight_tilted s tilted_words
           +:+ "<br><b>Diff:</b> " +:+ PyStr.join " " (map green (PyStr.split s))
           +:+ "</p><hr>").
Proof.
  unfold html_row. change (PyStr.split "") with (@nil string).
  rewrite DifferRestore.ndiff_nil_r, DifferRestore.ndiff_nil_l.
  cbn [mbind result_bind].
  rewrite RunFacts.diff_html_removed, RunFacts.diff_html_added, !app_nil_l.
  change (highlight_tilted "" tilted_words) with "".
  rewrite !PyStrMore.append_nil_l. split; reflexivity.
Qed.

(** *** The whole run *)

(** X15. In a completed run the added words are a subsequence of the
    words of the corrected text and the removed words a subsequence of
    the words of the selected text; and the counts agree: the corrected
    words and the removed ones are as many as the selected words and the
    added ones. *)
Theorem summary_within_texts
  (depth : nat) (ocr_engine : page -> result string) (spelling : string -> string)
  (doc : document) (out : output) :
  main depth ocr_engine spelling doc = Ok out ->
  added out `sublist_of` PyStr.split (corrected_text out)
  /\ removed out `sublist_of` PyStr.split (combined_text out)
  /\ length (PyStr.split (corrected_text out)) + length (removed out)
     = length (PyStr.split (combined_text out)) + length (added out).
Proof.
  intros Hrun.
  destruct (RunFacts.main_inv _ _ _ _ _ Hrun) as (_ & _ & (diff & Hdiff & Hsum) & _).
  destruct (DifferRestore.ndiff_restore _ _ _ _ Hdiff) as [Ha Hb].
  rewrite RunFacts.summary_fold in Hsum. cbn [fst snd app] in Hsum.
  injection Hsum as Had Hrm.
  destruct (RunFacts.restore_lines First diff) as [Hs1 Hl1].
  destruct (RunFacts.restore_lines Second diff) as [Hs2 Hl2].
  cbn [side_tag] in Hs1, Hl1, Hs2, Hl2.
  rewrite Ha in Hs1, Hl1. rewrite Hb in Hs2, Hl2. rewrite Had in Hs2, Hl2.
  rewrite Hrm in Hs1, Hl1. split_and!; [exact Hs2|exact Hs1|lia].
Qed.

Lemma summary_within_texts_witness :
  exists out,
    main example_depth ocr_unavailable helo_to_hello helo_world = Ok out
    /\ added out = ["Hello"] /\ removed out = ["Helo"]
    /\ added out `sublist_of` PyStr.split (corrected_text out)
    /\ removed out `sublist_of` PyStr.split (combined_text out)
    /\ length (PyStr.split (corrected_text out)) + length (removed out)
       = length (PyStr.split (combined_text out)) + length (added out).
Proof.
  eexists. split; [vm_compute; reflexivity|].
  split; [reflexivity|]. split; [reflexivity|].
  apply (summary_within_texts example_depth ocr_unavailable helo_to_hello helo_world).
  vm_compute. reflexivity.
Defined.

(** X16. A run completes with a given selected text only when the
    script selects it: the embedded text when it is not empty, else the
    text that OCR read on the first page; embedded text always wins over
    OCR text. When the script selects a text, the run completes with it
    or stops with [RecursionError] in the comparison, and it completes
    when the recursion limit leaves room for as many nested calls as the
    text, and each of its sentences, has words. *)
Theorem run_completes_with_selected_text
  (depth : nat) (ocr_engine : page -> result string) (spelling : string -> string)
  (doc : document) (selected : string) :
  ((exists out, main depth ocr_engine spelling doc = Ok out
                /\ combined_text out = selected)
   -> selects ocr_engine doc selected)
  /\ (selects ocr_engine doc selected ->
      answers_or_recursion (fun out => combined_text out = selected)
        (main depth ocr_engine spelling doc))
  /\ (selects ocr_engine doc selected -> room_for depth selected ->
      exists out, main depth ocr_engine spelling doc = Ok out
                  /\ combined_text out = selected).
Proof.
  split_and!.
  - intros (out & Hrun & <-).
    destruct (RunFacts.main_inv _ _ _ _ _ Hrun) as (Hsel & _). cbv zeta in Hsel.
    unfold selects.
    destruct (PyStr.truthy (extract_with_pymupdf doc).1); [left|right]; auto.
  - intros Hsel. rewrite (RunFacts.main_selected _ _ _ _ _ Hsel).
    apply RunFacts.run_from_selection_answers.
  - intros Hsel Hroom. rewrite (RunFacts.main_selected _ _ _ _ _ Hsel).
    apply RunFacts.run_from_selection_total, Hroom.
Qed.

Lemma run_completes_with_selected_text_witness :
  exists out,
    main example_depth ocr_unavailable helo_to_hello helo_world = Ok out
    /\ combined_text out = "Helo world.".
Proof.
  apply (run_completes_with_selected_text example_depth ocr_unavailable
           helo_to_hello helo_world "Helo world.").
  - left. split; reflexivity.
  - split; [vm_compute; lia|]. vm_compute. repeat constructor; lia.
Defined.

(** X17. When there is embedded text, the OCR step decides nothing but
    its own line of the report: with any two OCR engines, when one run
    completes so does the other, with the same texts, the same added and
    removed words, the same display and the same sentence rows, and the
    reports agree outside their second line; and when one run stops with
    an exception, the other stops with the same. *)
Theorem ocr_only_changes_its_report_line
  (depth : nat) (ocr1 ocr2 : page -> result string) (spelling : string -> string)
  (doc : document) :
  PyStr.truthy (extract_with_pymupdf doc).1 = true ->
  (forall out1, main depth ocr1 spelling doc = Ok out1 ->
     exists out2,
       main depth ocr2 spelling doc = Ok out2
       /\ combined_text out1 = combined_text out2
       /\ corrected_text out1 = corrected_text out2
       /\ added out1 = added out2 /\ removed out1 = removed out2
       /\ final_text_display out1 = final_text_display out2
       /\ df_rows out1 = df_rows out2 /\ html_rows out1 = html_rows out2
       /\ forall i, i <> 1 -> agent_report out1 !! i = agent_report out2 !! i)
  /\ (forall e, main depth ocr1 spelling doc = Raise e ->
                main depth ocr2 spelling doc = Raise e).
Proof.
  intros Hraw.
  assert (Hsel : forall ocr, selects ocr doc (extract_with_pymupdf doc).1)
    by (intros ocr; left; split; [exact Hraw|reflexivity]).
  rewrite (RunFacts.main_selected depth ocr1 spelling doc _ (Hsel ocr1)).
  rewrite (RunFacts.main_selected depth ocr2 spelling doc _ (Hsel ocr2)).
  split.
  - intros out1 Hrun.
    destruct (RunFacts.run_from_selection_report _ _ _ _ _ _ Hrun)
      as (l3 & l4 & Hr & Hany).
    eexists. split; [apply Hany|].
    cbn [combined_text corrected_text added removed final_text_display df_rows
         html_rows agent_report].
    split_and!; try reflexivity.
    intros i Hi. rewrite Hr.
    destruct i as [|[|i]]; [reflexivity|contradiction|reflexivity].
  - intros e. apply RunFacts.run_from_selection_raise.
Qed.

Lemma ocr_only_changes_its_report_line_witness :
  (forall out1, main example_depth ocr_unavailable helo_to_hello helo_world = Ok out1 ->
     exists out2,
       main example_depth ocr_reads_two helo_to_hello helo_world = Ok out2
       /\ combined_text out1 = combined_text out2
       /\ corrected_text out1 = corrected_text out2
       /\ added out1 = added out2 /\ removed out1 = removed out2
       /\ final_text_display out1 = final_text_display out2
       /\ df_rows out1 = df_rows out2 /\ html_rows out1 = html_rows out2
       /\ forall i, i <> 1 -> agent_report out1 !! i = agent_report out2 !! i)
  /\ (forall e, main example_depth ocr_unavailable helo_to_hello helo_world = Raise e ->
                main example_depth ocr_reads_two helo_to_hello helo_world = Raise e).
Proof.
  apply (ocr_only_changes_its_report_line example_depth ocr_unavailable
           ocr_reads_two helo_to_hello helo_world).
  reflexivity.
Defined.

(** X18. The report of a completed run has four lines, in this order:
    Agent 1 with the number of words of all spans and the tilted words,
    Agent 2 with the number of words that OCR read on the first page, or
    its failure, Agent 3 with the number of words of the corrected text,
    Agent 4 with the added and removed words and the same tilted
    words. *)
Theorem report_has_four_lines
  (depth : nat) (ocr_engine : page -> result string) (spelling : string -> string)
  (doc : document) (out : output) :
  main depth ocr_engine spelling doc = Ok out ->
  agent_report out
  = [Agent1 (length (flat_map span_words (spans_of doc)))
       (flat_map tilted_words_of (spans_of doc));
     agent2_line (ocr_attempt ocr_engine doc);
     Agent3 (length (PyStr.split (corrected_text out)));
     Agent4 (added out) (removed out) (flat_map tilted_words_of (spans_of doc))].
Proof.
  intros Hrun.
  destruct (RunFacts.main_inv _ _ _ _ _ Hrun) as (_ & _ & _ & Hr & _).
  cbv zeta in Hr.
  rewrite ExtractMore.extract_words, ExtractFacts.extract_tilted in Hr. exact Hr.
Qed.

Lemma report_has_four_lines_witness :
  exists out,
    main example_depth ocr_reads_two helo_to_hello helo_world = Ok out
    /\ agent_report out
       = [Agent1 2 ["Helo"]; Agent2 2; Agent3 2; Agent4 ["Hello"] ["Helo"] ["Helo"]]
    /\ agent_report out
       = [Agent1 (length (flat_map span_words (spans_of helo_world)))
            (flat_map tilted_words_of (spans_of helo_world));
          agent2_line (ocr_attempt ocr_reads_two helo_world);
          Agent3 (length (PyStr.split (corrected_text out)));
          Agent4 (added out) (removed out)
            (flat_map tilted_words_of (spans_of helo_world))].
Proof.
  eexists. split; [vm_compute; reflexivity|]. split; [reflexivity|].
  apply (report_has_four_lines example_depth ocr_reads_two helo_to_hello helo_world).
  vm_compute. reflexivity.
Defined.

(** X19. When the spelling engine keeps every token of the selected
    text, a completed run changes nothing: the corrected text is the
    selected text, no word is added or removed, every row of the
    sentence table pairs a sentence with itself, and the final display
    is the highlighted selected text. *)
Theorem unchanged_spelling_run
  (depth : nat) (ocr_engine : page -> result string) (spelling : string -> string)
  (doc : document) (out : output) :
  main depth ocr_engine spelling doc = Ok out ->
  Forall (fun w => spelling w = w) (TextBlob.regexp_tokenize (combined_text out)) ->
  corrected_text out = combined_text out
  /\ added out = [] /\ removed out = []
  /\ Forall (fun oc => oc.1 = oc.2) (df_rows out)
  /\ final_text_display out
     = highlight_tilted (combined_text out) (extract_with_pymupdf doc).2.
Proof.
  intros Hrun Hw.
  destruct (RunFacts.main_inv _ _ _ _ _ Hrun)
    as (_ & Hc & (diff & Hdiff & Hsum) & _ & Hf & Hdf & _).
  cbv zeta in Hf.
  assert (E : corrected_text out = combined_text out).
  { rewrite Hc. apply DisplayMore.correct_fixed, Hw. }
  rewrite E in Hdiff, Hdf, Hf. rewrite DifferFacts.ndiff_same in Hdiff.
  injection Hdiff as <-.
  rewrite RunFacts.summary_fold in Hsum.
  rewrite !RunFacts.lines_with_unchanged in Hsum by discriminate.
  injection Hsum as <- <-.
  split_and!; [exact E|reflexivity|reflexivity| |exact Hf].
  rewrite Hdf. apply RunFacts.align_same.
Qed.

Lemma unchanged_spelling_run_witness :
  exists out,
    main example_depth ocr_unavailable keep_spelling helo_world = Ok out
    /\ corrected_text out = "Helo world."
    /\ corrected_text out = combined_text out
    /\ added out = [] /\ removed out = []
    /\ Forall (fun oc => oc.1 = oc.2) (df_rows out)
    /\ final_text_display out
       = highlight_tilted (combined_text out) (extract_with_pymupdf helo_world).2.
Proof.
  eexists. split; [vm_compute; reflexivity|]. split; [reflexivity|].
  apply (unchanged_spelling_run example_depth ocr_unavailable keep_spelling helo_world).
  - vm_compute. reflexivity.
  - vm_compute. repeat constructor.
Defined.

End Coverage.
